(** * binaural-server: the /generate request handler of server.js and the
      verify_beats.js command-line checker

    A shallow embedding of the parameter resolver ([num]), the duration
    resolver ([probeDurationSec] and the handler's fallback chain), the
    labelling and naming code ([bandLabel], the filename template), the
    signal-graph strings handed to ffmpeg, and the event handlers that
    clean up after the render process; and, of the checker, of the argument
    parser ([parseArgs]), the reader that collects the audio data to analyse
    ([analyzeWavFile]), the sample decoder ([deinterleaveToFloatStereo]) and
    the peak search of [dominantFreqInBand].  The Fourier transform and the
    window are the work of a library and of [Math.cos]; they are not
    modelled, the peak search takes the spectrum as it is given.

    ECMAScript numbers are IEEE-754 binary64 values; they are modelled with
    the Standard Library's [spec_float] at precision 53 and maximal exponent
    1024, so that comparisons, signed zeros, NaN and the infinities behave as
    in the source.  Strings are sequences of 8-bit code units. *)

From Stdlib Require Import ZArith Lia List Bool Ascii String.
From Stdlib Require Import Floats.SpecFloat.
From Stdlib Require Import Reals Lra.
From stdpp Require Import base strings gmap.
Import ListNotations.
Local Open Scope Z_scope.

(* ================================================================== *)
(** ** ECMAScript numbers *)
(* ================================================================== *)

Module JS.

Abbreviation number := spec_float.

Definition prec : Z := 53.
Definition emax : Z := 1024.

Definition NaN : number := S754_nan.
Definition Infinity : number := S754_infinity false.
Definition pos_zero : number := S754_zero false.

(** The Number nearest to an integer (exact below 2^53). *)
Definition of_Z (z : Z) : number := binary_normalize prec emax z 0 false.

(** The Number nearest to [m * 10^e10], for [0 <= m]: the value of a numeric
    literal of the source text and of a decimal string.  Rounding is to
    nearest, ties to even; a negative exponent is a correctly rounded
    division by a power of ten. *)
Definition dec (m e10 : Z) : number :=
  match m with
  | Z0 => pos_zero
  | Zneg _ => NaN
  | Zpos _ =>
      if 0 <=? e10 then binary_normalize prec emax (m * 10 ^ e10) 0 false
      else
        let '(q, e', l) := SFdiv_core_binary prec emax m 0 (10 ^ (- e10)) 0 in
        binary_round_aux prec emax false q e' l
  end.

(** [Number.isFinite] *)
Definition isFinite (x : number) : bool :=
  match x with
  | S754_zero _ | S754_finite _ _ _ => true
  | S754_infinity _ | S754_nan => false
  end.

Definition isNaN (x : number) : bool :=
  match x with S754_nan => true | _ => false end.

(** Relational operators [<], [<=], [>], [>=] and [===] on numbers; every
    comparison with NaN is false. *)
Definition lt (x y : number) : bool := SFltb x y.
Definition le (x y : number) : bool := SFleb x y.
Definition gt (x y : number) : bool := SFltb y x.
Definition ge (x y : number) : bool := SFleb y x.
Definition eq (x y : number) : bool := SFeqb x y.

Definition add (x y : number) : number := SFadd prec emax x y.
Definition sub (x y : number) : number := SFsub prec emax x y.
Definition div (x y : number) : number := SFdiv prec emax x y.

Definition is_neg_zero (x : number) : bool :=
  match x with S754_zero true => true | _ => false end.
Definition is_pos_zero (x : number) : bool :=
  match x with S754_zero false => true | _ => false end.

(** [Math.max] and [Math.min] of two arguments: NaN if either is NaN, and
    [+0] counts as larger than [-0]. *)
Definition Math_max (x y : number) : number :=
  match SFcompare x y with
  | None => NaN
  | Some Lt => y
  | Some Gt => x
  | Some Eq => if is_neg_zero x then y else x
  end.

Definition Math_min (x y : number) : number :=
  match SFcompare x y with
  | None => NaN
  | Some Lt => x
  | Some Gt => y
  | Some Eq => if is_pos_zero x then y else x
  end.

(** [Math.round]: the nearest integral Number, ties towards +Infinity; the
    sign of a zero result is the sign of the argument. *)
Definition Math_round (x : number) : number :=
  match x with
  | S754_finite s m e =>
      if 0 <=? e then x
      else
        let sm := if s then Z.neg m else Z.pos m in
        let z := (2 * sm + 2 ^ (- e)) / 2 ^ (- e + 1) in
        if z =? 0 then S754_zero s else of_Z z
  | _ => x
  end.

(* ------------------------------------------------------------------ *)
(** *** Strings to numbers *)

Definition code (c : ascii) : N := N_of_ascii c.

Definition is_digit (c : ascii) : bool :=
  ((48 <=? code c) && (code c <=? 57))%N.

Definition digit_val (c : ascii) : Z := Z.of_N (code c) - 48.

(** White space and line terminators among the 8-bit code units:
    TAB, LF, VT, FF, CR, SP and NBSP. *)
Definition is_space (c : ascii) : bool :=
  (((9 <=? code c) && (code c <=? 13)) || (code c =? 32) || (code c =? 160))%N.

Fixpoint trimStart (s : string) : string :=
  match s with
  | String c r => if is_space c then trimStart r else s
  | EmptyString => EmptyString
  end.

Fixpoint trimEnd (s : string) : string :=
  match s with
  | String c r =>
      match trimEnd r with
      | EmptyString => if is_space c then EmptyString else String c EmptyString
      | r' => String c r'
      end
  | EmptyString => EmptyString
  end.

(** [String.prototype.trim] *)
Definition trim (s : string) : string := trimEnd (trimStart s).

(** A maximal run of decimal digits: its value on top of [acc], how many
    digits were read, and the rest of the string. *)
Fixpoint scan_digits (s : string) (acc cnt : Z) : Z * Z * string :=
  match s with
  | String c r =>
      if is_digit c then scan_digits r (10 * acc + digit_val c) (cnt + 1)
      else (acc, cnt, s)
  | EmptyString => (acc, cnt, s)
  end.

(** An optional ExponentPart; an incomplete one is not consumed. *)
Definition scan_exponent (s : string) : Z * string :=
  match s with
  | String c r =>
      if ((code c =? 101) || (code c =? 69))%N then
        let '(sgn, r1) :=
          match r with
          | String "+" r' => (1, r')
          | String "-" r' => (-1, r')
          | _ => (1, r)
          end in
        let '(v, n, rest) := scan_digits r1 0 0 in
        if n =? 0 then (0, s) else (sgn * v, rest)
      else (0, s)
  | EmptyString => (0, s)
  end.

Fixpoint strip_prefix (p s : string) : option string :=
  match p, s with
  | EmptyString, _ => Some s
  | String a p', String b s' =>
      if Ascii.eqb a b then strip_prefix p' s' else None
  | String _ _, EmptyString => None
  end.

(** The longest prefix that is a StrUnsignedDecimalLiteral, with its value. *)
Definition scan_unsigned (s : string) : option (number * string) :=
  match strip_prefix "Infinity" s with
  | Some rest => Some (Infinity, rest)
  | None =>
      let '(ip, ni, r1) := scan_digits s 0 0 in
      let '(m, nf, r2) :=
        match r1 with
        | String "." r => scan_digits r ip 0
        | _ => (ip, 0, r1)
        end in
      if (ni =? 0) && (nf =? 0) then None
      else
        let '(ex, r3) := scan_exponent r2 in
        Some (dec m (ex - nf), r3)
  end.

(** The longest prefix that is a StrDecimalLiteral. *)
Definition scan_decimal (s : string) : option (number * string) :=
  match s with
  | String "+" r => scan_unsigned r
  | String "-" r =>
      match scan_unsigned r with
      | Some (v, rest) => Some (SFopp v, rest)
      | None => None
      end
  | _ => scan_unsigned s
  end.

(** Hexadecimal, octal and binary integer literals ([0x], [0o], [0b]). *)
Definition radix_digit (radix : Z) (c : ascii) : option Z :=
  let n := Z.of_N (code c) in
  let d :=
    if (48 <=? n) && (n <=? 57) then n - 48
    else if (97 <=? n) && (n <=? 102) then n - 87
    else if (65 <=? n) && (n <=? 70) then n - 55
    else radix in
  if d <? radix then Some d else None.

Fixpoint scan_radix (radix : Z) (s : string) (acc : Z) : option Z :=
  match s with
  | EmptyString => Some acc
  | String c r =>
      match radix_digit radix c with
      | Some d => scan_radix radix r (radix * acc + d)
      | None => None
      end
  end.

Definition scan_nondecimal (s : string) : option number :=
  match s with
  | String "0" (String c (String d r)) =>
      let body := String d r in
      let n := code c in
      let radix :=
        if ((n =? 120) || (n =? 88))%N then 16
        else if ((n =? 111) || (n =? 79))%N then 8
        else if ((n =? 98) || (n =? 66))%N then 2
        else 0 in
      if radix =? 0 then None
      else match scan_radix radix body 0 with
           | Some z => Some (of_Z z)
           | None => None
           end
  | _ => None
  end.

(** StringToNumber: white space is trimmed, the empty string is [+0], and
    anything that is not a numeric literal as a whole is NaN. *)
Definition StringToNumber (s : string) : number :=
  match trim s with
  | EmptyString => pos_zero
  | t =>
      match scan_nondecimal t with
      | Some v => v
      | None =>
          match scan_decimal t with
          | Some (v, EmptyString) => v
          | _ => NaN
          end
      end
  end.

(** [Number(value)] for a form field: a string, or [undefined] when the
    field is absent. *)
Definition Number (value : option string) : number :=
  match value with
  | None => NaN
  | Some s => StringToNumber s
  end.

(** [parseFloat]: leading white space is skipped and the longest prefix that
    is a decimal literal is converted; NaN when there is none. *)
Definition parseFloat (s : string) : number :=
  match scan_decimal (trimStart s) with
  | Some (v, _) => v
  | None => NaN
  end.

(* ------------------------------------------------------------------ *)
(** *** Numbers to strings *)

Definition digit_char (d : Z) : ascii := ascii_of_N (Z.to_N (48 + d mod 10)).

Fixpoint Z_digits (fuel : nat) (z : Z) (acc : string) : string :=
  match fuel with
  | O => acc
  | S f =>
      let acc' := String (digit_char z) acc in
      if z / 10 =? 0 then acc' else Z_digits f (z / 10) acc'
  end.

(** The decimal digits of a non-negative integer, without leading zeros. *)
Definition Z_to_dec (z : Z) : string :=
  Z_digits (S (Z.to_nat (Z.log2 z))) z EmptyString.

Definition ndigits (z : Z) : Z := Z.of_nat (String.length (Z_to_dec z)).

Fixpoint zeros (n : nat) : string :=
  match n with
  | O => EmptyString
  | S k => String "0" (zeros k)
  end.

Fixpoint take (n : nat) (s : string) : string :=
  match n, s with
  | S k, String c r => String c (take k r)
  | _, _ => EmptyString
  end.

Fixpoint drop (n : nat) (s : string) : string :=
  match n, s with
  | S k, String _ r => drop k r
  | _, _ => s
  end.

(** The exact value of a positive finite Number as a fraction [p/q]. *)
Definition exact (m : positive) (e : Z) : Z * Z :=
  if 0 <=? e then (Z.pos m * 2 ^ e, 1) else (Z.pos m, 2 ^ (- e)).

(** [n] with [10^(n-1) <= p/q < 10^n]. *)
Definition decimal_exponent (p q : Z) : Z :=
  if q <=? p then ndigits (p / q)
  else
    let d := ndigits (q / p) in
    if q <=? p * 10 ^ (d - 1) then 2 - d else 1 - d.

(** The two [k]-digit decimals around [p/q], each as (digits, exponent [n])
    so that the candidate is [digits * 10^(n-k)], and whether the upper one
    is strictly nearer ([Gt]), the lower one ([Lt]) or neither ([Eq]). *)
Definition candidates (p q n k : Z)
  : (Z * Z) * (Z * Z) * comparison :=
  let '(a, b) := if n <=? k then (p * 10 ^ (k - n), q)
                 else (p, q * 10 ^ (n - k)) in
  let lo := a / b in
  let r := a mod b in
  let hi := if lo + 1 =? 10 ^ k then (10 ^ (k - 1), n + 1) else (lo + 1, n) in
  ((lo, n), hi, 2 * r ?= b).

Definition roundtrips (x : number) (k : Z) (c : Z * Z) : bool :=
  SFeqb (dec (fst c) (snd c - k)) x.

(** The shortest decimal that converts back to [x]: the least number of
    digits [k], and among the candidates with that many digits the one
    nearest to [x] (the even one on a tie). *)
Fixpoint shortest (fuel : nat) (x : number) (p q n k : Z) : Z * Z * Z :=
  let '(lo, hi, side) := candidates p q n k in
  let pick c := (fst c, snd c, k) in
  match fuel with
  | O => pick lo
  | S f =>
      match roundtrips x k lo, roundtrips x k hi with
      | true, true =>
          match side with
          | Lt => pick lo
          | Gt => pick hi
          | Eq => if Z.even (fst lo) then pick lo else pick hi
          end
      | true, false => pick lo
      | false, true => pick hi
      | false, false => shortest f x p q n (k + 1)
      end
  end.

(** The digit string, its length [k] and the decimal exponent [n] laid out
    as Number::toString prescribes. *)
Definition layout (s n k : Z) : string :=
  let ds := Z_to_dec s in
  if (k <=? n) && (n <=? 21) then ds +:+ zeros (Z.to_nat (n - k))
  else if (0 <? n) && (n <=? 21) then
    take (Z.to_nat n) ds +:+ "." +:+ drop (Z.to_nat n) ds
  else if (-6 <? n) && (n <=? 0) then
    "0." +:+ zeros (Z.to_nat (- n)) +:+ ds
  else
    let ex := (if 0 <? n - 1 then "+" else "-") +:+ Z_to_dec (Z.abs (n - 1)) in
    if k =? 1 then ds +:+ "e" +:+ ex
    else take 1 ds +:+ "." +:+ drop 1 ds +:+ "e" +:+ ex.

(** Number::toString in radix 10, for template literals and [String(x)]. *)
Definition toString (x : number) : string :=
  match x with
  | S754_nan => "NaN"
  | S754_zero _ => "0"
  | S754_infinity s => if s then "-Infinity" else "Infinity"
  | S754_finite sg m e =>
      let '(p, q) := exact m e in
      let '(s, n, k) := shortest 17 (S754_finite false m e) p q
                          (decimal_exponent p q) 1 in
      (if sg then "-" else "") +:+ layout s n k
  end.

(** [x.toFixed(f)]: the integer [n] nearest to [x * 10^f] (the larger one on
    a tie), written with exactly [f] decimals; beyond 10^21, and for NaN and
    the infinities, it is [toString]. *)
Definition toFixed (x : number) (f : nat) : string :=
  match x with
  | S754_finite sg m e =>
      let '(p, q) := exact m e in
      if 10 ^ 21 * q <=? p then toString x
      else
        let n := (2 * p * 10 ^ Z.of_nat f + q) / (2 * q) in
        let ds := Z_to_dec n in
        let ds := zeros (f + 1 - String.length ds) +:+ ds in
        let k := String.length ds in
        (if sg then "-" else "") +:+
        (match f with
         | O => ds
         | _ => take (k - f) ds +:+ "." +:+ drop (k - f) ds
         end)
  | S754_zero _ =>
      match f with
      | O => "0"
      | _ => "0." +:+ zeros f
      end
  | _ => toString x
  end.

End JS.

(* ================================================================== *)
(** ** server.js *)
(* ================================================================== *)

Module Server.
Import JS.

(** Numeric literals of the source text. *)
Definition lit (z : Z) : number := of_Z z.
Definition lit_0_25 : number := dec 25 (-2).
Definition lit_0_35 : number := dec 35 (-2).

(** [function num(value, def, min, max)] *)
Definition num (value : option string) (def min max : number) : number :=
  let v := Number value in
  if negb (isFinite v) then def
  else Math_min (Math_max v min) max.

(** [function bandLabel(beatHz)] *)
Definition bandLabel (beatHz : number) : string :=
  if ge beatHz (lit 12) && le beatHz (lit 20) then "Beta"
  else if ge beatHz (lit 8) && lt beatHz (lit 12) then "Alpha"
  else if ge beatHz (lit 4) && lt beatHz (lit 8) then "Theta"
  else if lt beatHz (lit 4) then "Delta"
  else "Custom".

(* ------------------------------------------------------------------ *)
(** *** The duration probe *)

(** What a child process reports to its listeners, in order of arrival.
    [Close None] is a process ended by a signal (exit code [null]). *)
Inductive child_event :=
  | Stdout (d : string)
  | Stderr (d : string)
  | Close (code : option Z)
  | Error (err : string).

Inductive settled :=
  | Resolved (sec : number)
  | Rejected (reason : string).

Record probe_state := {
  out : string;
  err : string;
  promise : option settled
}.

(** [resolve]/[reject] of a promise: only the first call has an effect. *)
Definition settle (r : settled) (st : probe_state) : probe_state :=
  match promise st with
  | Some _ => st
  | None => {| out := out st; err := err st; promise := Some r |}
  end.

Definition exited_zero (code : option Z) : bool :=
  match code with
  | Some 0 => true
  | _ => false
  end.

Definition probe_step (st : probe_state) (ev : child_event) : probe_state :=
  match ev with
  | Stdout d => {| out := out st +:+ d; err := err st; promise := promise st |}
  | Stderr d => {| out := out st; err := err st +:+ d; promise := promise st |}
  | Close code =>
      if negb (exited_zero code) then
        settle (Rejected (match err st with
                          | EmptyString => "ffprobe failed"
                          | e => e
                          end)) st
      else
        let sec := parseFloat (trim (out st)) in
        if negb (isFinite sec) then settle (Rejected "No duration") st
        else settle (Resolved sec) st
  | Error e => settle (Rejected e) st
  end.

(** [function probeDurationSec(filePath)]: the promise after the events of
    the ffprobe process; [None] while it is still pending. *)
Definition probeDurationSec (events : list child_event) : option settled :=
  promise (fold_left probe_step events
             {| out := ""; err := ""; promise := None |}).

(* ------------------------------------------------------------------ *)
(** *** The request and its parsed inputs *)

Record upload := { path : string }.

Record request := {
  body : gmap string string;
  file : option upload
}.

Definition hasMusic (req : request) : bool :=
  match file req with Some _ => true | None => false end.

Record inputs := {
  carrier : number;
  beatStart : number;
  beatEnd : number;
  toneGain : number;
  musicGain : number;
  fadeSec : number
}.

(** The [// ---- Parse inputs ----] block, apart from [durationSec]. *)
Definition parseInputs (b : gmap string string) : inputs :=
  {| carrier   := num (b !! "carrier") (lit 420) (lit 100) (lit 1000);
     beatStart := num (b !! "beatStart") (lit 12) (lit 0) (lit 40);
     beatEnd   := num (b !! "beatEnd") (lit 14) (lit 0) (lit 40);
     toneGain  := num (b !! "toneGain") lit_0_25 (lit 0) (lit 1);
     musicGain := num (b !! "musicGain") lit_0_35 (lit 0) (lit 1);
     fadeSec   := num (b !! "fadeSec") (lit 3) (lit 0) (lit 10) |}.

(** [let durationSec = num(req.body.durationSec, NaN, 60, 7200)] *)
Definition rawDuration (b : gmap string string) : number :=
  num (b !! "durationSec") NaN (lit 60) (lit 7200).

(** The probe runs when no finite duration was given and music was
    uploaded. *)
Definition probeInvoked (req : request) : bool :=
  negb (isFinite (rawDuration (body req))) && hasMusic req.

Definition defaultIfUnset (d : number) : number :=
  if negb (isFinite d) then lit 1800 else d.

(** The duration the handler goes on with, given the events of the probe
    process should it be started; [None] while the handler still awaits the
    probe. *)
Definition resolveDuration (req : request) (probe : list child_event)
  : option number :=
  let durationSec := rawDuration (body req) in
  if probeInvoked req then
    match probeDurationSec probe with
    | None => None
    | Some (Resolved probed) =>
        Some (defaultIfUnset
                (Math_min (Math_max (Math_round probed) (lit 60)) (lit 7200)))
    | Some (Rejected _) => Some (defaultIfUnset (lit 1800))
    end
  else Some (defaultIfUnset durationSec).

(* ------------------------------------------------------------------ *)
(** *** Tone synthesis and filter chains *)

Fixpoint join (sep : string) (l : list string) : string :=
  match l with
  | [] => ""
  | [x] => x
  | x :: r => x +:+ sep +:+ join sep r
  end.

Definition sr : number := lit 48000.

(** [const k = (be - bs) / dur] *)
Definition slope (bs be dur : number) : number := div (sub be bs) dur.

Definition leftExpr (toneGain fc : number) : string :=
  toString toneGain +:+ "*sin(2*PI*" +:+ toString fc +:+ "*t)".

Definition rightExpr (toneGain fc bs k : number) : string :=
  toString toneGain +:+ "*sin(2*PI*((" +:+ toString fc +:+ "+" +:+
  toString bs +:+ ")*t + 0.5*" +:+ toString k +:+ "*t*t))".

Definition toneGen (i : inputs) (dur : number) : string :=
  let k := slope (beatStart i) (beatEnd i) dur in
  "aevalsrc=exprs=" +:+ leftExpr (toneGain i) (carrier i) +:+ "\|" +:+
  rightExpr (toneGain i) (carrier i) (beatStart i) k +:+
  ":s=" +:+ toString sr +:+ ":d=" +:+ toString dur.

Definition toneFilters (i : inputs) (dur : number) : string :=
  join "," [ "asetpts=N/SR/TB";
             "afade=t=in:st=0:d=" +:+ toString (fadeSec i);
             "afade=t=out:st=" +:+
               toString (Math_max (lit 0) (sub dur (fadeSec i))) +:+
               ":d=" +:+ toString (fadeSec i) ].

Definition musicFilters (i : inputs) (dur : number) : string :=
  join "," [ "aresample=" +:+ toString sr +:+ ":ocl=stereo";
             "asetpts=N/SR/TB";
             "atrim=0:" +:+ toString dur;
             "volume=" +:+ toString (musicGain i) ].

(** [let filterComplex = ''; if (hasMusic) {...} else {...}] *)
Definition filterComplex (music : bool) (i : inputs) (dur : number) : string :=
  if music then
    ("[0:a]" +:+ musicFilters i dur +:+ "[m];") +:+
    ("[1:a]" +:+ toneFilters i dur +:+ "[t];") +:+
    "[m][t]amix=inputs=2:normalize=0:dropout_transition=0[mix];" +:+
    "[mix]alimiter=limit=0.95[out]"
  else
    ("[0:a]" +:+ toneFilters i dur +:+ "[t];") +:+
    "[t]alimiter=limit=0.95[out]".

(** The argument list of the ffmpeg process. *)
Definition ffmpegArgs (req : request) (i : inputs) (dur : number)
  : list string :=
  [ "-hide_banner"; "-loglevel"; "error" ] ++
  match file req with
  | Some f => [ "-stream_loop"; "-1"; "-i"; path f ]
  | None => []
  end ++
  [ "-f"; "lavfi"; "-i"; toneGen i dur ] ++
  [ "-filter_complex"; filterComplex (hasMusic req) i dur ] ++
  [ "-map"; "[out]" ] ++
  [ "-ar"; toString sr; "-ac"; "2"; "-c:a"; "pcm_s24le" ] ++
  [ "-f"; "wav"; "pipe:1" ].

(* ------------------------------------------------------------------ *)
(** *** File name and headers *)

Definition is_upper (c : ascii) : bool := ((65 <=? code c) && (code c <=? 90))%N.
Definition is_lower (c : ascii) : bool := ((97 <=? code c) && (code c <=? 122))%N.

(** The class [[\w\-]] of the sanitising regular expression. *)
Definition is_word_or_dash (c : ascii) : bool :=
  is_upper c || is_lower c || is_digit c || (code c =? 95)%N || (code c =? 45)%N.

Fixpoint keep (f : ascii -> bool) (s : string) : string :=
  match s with
  | EmptyString => EmptyString
  | String c r => if f c then String c (keep f r) else keep f r
  end.

Fixpoint replaceChar (a b : ascii) (s : string) : string :=
  match s with
  | EmptyString => EmptyString
  | String c r => String (if Ascii.eqb c a then b else c) (replaceChar a b r)
  end.

(** [x || d] for an optional string: [undefined] and [''] are falsy. *)
Definition orElse (x : option string) (d : string) : string :=
  match x with
  | None | Some EmptyString => d
  | Some s => s
  end.

Definition avgBeat (i : inputs) : number :=
  div (add (beatStart i) (beatEnd i)) (lit 2).

Definition prettyBeat (bs be : number) : string :=
  if eq bs be then toFixed be 2 +:+ "Hz"
  else toFixed bs 2 +:+ "-" +:+ toFixed be 2 +:+ "Hz".

(** [(req.body.filenameHint || label).toString()
       .replace(/[^\w\-]+/g, '').slice(0, 40) || label] *)
Definition hint (filenameHint : option string) (label : string) : string :=
  orElse (Some (take 40 (keep is_word_or_dash (orElse filenameHint label))))
         label.

Definition filename (b : gmap string string) (i : inputs) (dur : number)
    (uuid : string) : string :=
  let label := bandLabel (avgBeat i) in
  hint (b !! "filenameHint") label +:+ "_" +:+
  replaceChar "." "p" (prettyBeat (beatStart i) (beatEnd i)) +:+ "_" +:+
  toString (Math_round (div dur (lit 60))) +:+ "min_" +:+ uuid +:+ ".wav".

Definition quote : string := String (ascii_of_N 34) EmptyString.

(** The [res.setHeader] calls, in order. *)
Definition headers (b : gmap string string) (i : inputs) (dur : number)
    (uuid : string) : list (string * string) :=
  [ ("Content-Type", "audio/wav");
    ("Content-Disposition",
       "attachment; filename=" +:+ quote +:+ filename b i dur uuid +:+ quote);
    ("X-Beat-Start-Hz", toString (beatStart i));
    ("X-Beat-End-Hz", toString (beatEnd i));
    ("X-Carrier-Hz", toString (carrier i));
    ("X-Duration-Sec", toString dur);
    ("X-Sample-Rate", toString sr);
    ("X-Bit-Depth", "24");
    ("X-Session-Label", bandLabel (avgBeat i)) ].

(** Everything the handler has computed when it spawns ffmpeg. *)
Record plan := {
  plan_headers : list (string * string);
  plan_args : list string
}.

(** The handler up to [spawn(FFMPEG, args)]: [uuid] is what [uuidv4()]
    returns and [probe] what the ffprobe process reports if it is started. *)
Definition prepare (req : request) (probe : list child_event) (uuid : string)
  : option plan :=
  let i := parseInputs (body req) in
  match resolveDuration req probe with
  | None => None
  | Some dur =>
      Some {| plan_headers := headers (body req) i dur uuid;
              plan_args := ffmpegArgs req i dur |}
  end.

(* ------------------------------------------------------------------ *)
(** *** The render session: listeners registered after [spawn] *)

(** What can happen once ffmpeg has been spawned: events of the response
    ([res]) and of the child process ([ff]) with its two output streams. *)
Inductive event :=
  | ResClose
  | ResError
  | FfStdoutData (chunk : string)
  | FfStdoutEnd
  | FfStderrData (d : string)
  | FfClose (code : option Z)
  | FfError (err : string).

(** What the listeners do to the outside world. *)
Inductive effect :=
  | Rm (p : string)                      (* fs.rm(p, { force: true }, ...) *)
  | Kill                                 (* ff.kill('SIGKILL'), errors caught *)
  | Write (chunk : string)               (* ff.stdout.pipe(res): a chunk *)
  | EndResponse                          (* ff.stdout.pipe(res): end of stream *)
  | Respond500 (error details : string). (* res.status(500).json({...}) *)

Record session := {
  stderr : string;
  headersSent : bool;
  effects : list effect
}.

Definition spawned : session :=
  {| stderr := ""; headersSent := false; effects := [] |}.

(** [const cleanup = () => { if (hasMusic && req.file && req.file.path)
      fs.rm(req.file.path, { force: true }, () => {}); }] *)
Definition cleanup (req : request) : list effect :=
  match file req with
  | Some f =>
      match path f with
      | EmptyString => []
      | p => [Rm p]
      end
  | None => []
  end.

(** [const abort = () => { try { ff.kill('SIGKILL'); } catch (_) {} cleanup(); }] *)
Definition abort (req : request) : list effect := Kill :: cleanup req.

Definition emit (st : session) (es : list effect) : session :=
  {| stderr := stderr st; headersSent := headersSent st;
     effects := effects st ++ es |}.

Definition respond500 (st : session) (error details : string) : session :=
  if headersSent st then st
  else {| stderr := stderr st; headersSent := true;
          effects := effects st ++ [Respond500 error details] |}.

Definition step (req : request) (st : session) (ev : event) : session :=
  match ev with
  | ResClose | ResError => emit st (abort req)
  | FfStdoutData chunk =>
      {| stderr := stderr st; headersSent := true;
         effects := effects st ++ [Write chunk] |}
  | FfStdoutEnd =>
      {| stderr := stderr st; headersSent := true;
         effects := effects st ++ [EndResponse] |}
  | FfStderrData d =>
      {| stderr := stderr st +:+ d; headersSent := headersSent st;
         effects := effects st |}
  | FfClose code =>
      let st := emit st (cleanup req) in
      if negb (exited_zero code) then respond500 st "Render failed" (stderr st)
      else st
  | FfError err =>
      respond500 (emit st (cleanup req)) "FFmpeg spawn failed" err
  end.

Definition run (req : request) (evs : list event) : session :=
  fold_left (step req) evs spawned.

Definition is_rm (e : effect) : bool :=
  match e with Rm _ => true | _ => false end.
Definition is_kill (e : effect) : bool :=
  match e with Kill => true | _ => false end.

(** How many temp-file deletions and process terminations were attempted. *)
Definition deletions (st : session) : nat := length (List.filter is_rm (effects st)).
Definition kills (st : session) : nat := length (List.filter is_kill (effects st)).

(** Client aborts, and all the signals upon which [cleanup] is called. *)
Definition is_abort (ev : event) : bool :=
  match ev with ResClose | ResError => true | _ => false end.
Definition is_termination (ev : event) : bool :=
  match ev with
  | ResClose | ResError | FfClose _ | FfError _ => true
  | _ => false
  end.

(** Events after which response bytes (at least the header block) are on
    the wire: a chunk or the end of the piped stream, or a failure
    reported by the process (the 500 response, unless bytes went before). *)
Definition sends_bytes (ev : event) : bool :=
  match ev with
  | FfStdoutData _ | FfStdoutEnd | FfError _ => true
  | FfClose code => negb (exited_zero code)
  | _ => false
  end.


End Server.

(* ================================================================== *)
(** ** What the specification says, in its own words *)
(* ================================================================== *)

Module Spec.
Import JS Server.

(** The numeric request fields of the interface table, with their
    documented defaults and ranges. *)
Inductive field := Carrier | BeatStart | BeatEnd | ToneGain | MusicGain | FadeSec.



Definition minOf (f : field) : number :=
  match f with
  | Carrier => of_Z 100
  | _ => of_Z 0
  end.

Definition maxOf (f : field) : number :=
  match f with
  | Carrier => of_Z 1000
  | BeatStart | BeatEnd => of_Z 40
  | ToneGain | MusicGain => of_Z 1
  | FadeSec => of_Z 10
  end.

Definition resolved (f : field) (i : inputs) : number :=
  match f with
  | Carrier => carrier i
  | BeatStart => beatStart i
  | BeatEnd => beatEnd i
  | ToneGain => toneGain i
  | MusicGain => musicGain i
  | FadeSec => fadeSec i
  end.

(** "Clamp to [lo, hi]". *)
Definition clamp (v lo hi : number) : number := Math_min (Math_max v lo) hi.

Definition minDuration : number := of_Z 60.
Definition maxDuration : number := of_Z 7200.
Definition defaultDuration : number := of_Z 1800.

(** The band table of the Naming/Labeling Engine, in the order it is
    written: Delta, Theta, Alpha, Beta, otherwise Custom. *)
Definition bandOf (avg : number) : string :=
  if lt avg (of_Z 4) then "Delta"
  else if ge avg (of_Z 4) && lt avg (of_Z 8) then "Theta"
  else if ge avg (of_Z 8) && lt avg (of_Z 12) then "Alpha"
  else if ge avg (of_Z 12) && le avg (of_Z 20) then "Beta"
  else "Custom".

(** The filter graph read as its chains: the pieces between semicolons. *)
Fixpoint chains_from (acc s : string) : list string :=
  match s with
  | EmptyString => [acc]
  | String c r =>
      if Ascii.eqb c ";" then acc :: chains_from "" r
      else chains_from (acc +:+ String c "") r
  end.

Definition chains (graph : string) : list string := chains_from "" graph.

Definition limiterChain (input : string) : string :=
  "[" +:+ input +:+ "]alimiter=limit=0.95[out]".

Definition mixChain : string :=
  "[m][t]amix=inputs=2:normalize=0:dropout_transition=0[mix]".

(** The response headers that carry metadata. *)
Definition metadata (hs : list (string * string)) : list (string * string) :=
  List.filter (fun h => match strip_prefix "X-" (fst h) with
                        | Some _ => true
                        | None => false
                        end) hs.

(** Expressions of the tone generator, as they are written down: numbers,
    the tokens [2], [0.5], [PI] and [t], products, sums (with or without
    blanks around the sign), parentheses and [sin]. *)
Inductive expr :=
  | ENum (x : number)
  | ETwo
  | EHalf
  | EPi
  | ETime
  | EMul (a b : expr)
  | EAdd (a b : expr)
  | EAddSp (a b : expr)
  | EParen (a : expr)
  | ESin (a : expr).

Fixpoint print (e : expr) : string :=
  match e with
  | ENum x => toString x
  | ETwo => "2"
  | EHalf => "0.5"
  | EPi => "PI"
  | ETime => "t"
  | EMul a b => print a +:+ "*" +:+ print b
  | EAdd a b => print a +:+ "+" +:+ print b
  | EAddSp a b => print a +:+ " + " +:+ print b
  | EParen a => "(" +:+ print a +:+ ")"
  | ESin a => "sin(" +:+ print a +:+ ")"
  end.

(** The real number a finite Number stands for. *)
Definition B2R (x : number) : R :=
  match x with
  | S754_finite s m e => (IZR (if s then Z.neg m else Z.pos m) * powerRZ 2 e)%R
  | _ => 0%R
  end.

(** The value of an expression at time [t], in exact arithmetic. *)
Fixpoint eval (t : R) (e : expr) : R :=
  match e with
  | ENum x => B2R x
  | ETwo => 2
  | EHalf => / 2
  | EPi => PI
  | ETime => t
  | EMul a b => eval t a * eval t b
  | EAdd a b | EAddSp a b => eval t a + eval t b
  | EParen a => eval t a
  | ESin a => sin (eval t a)
  end%R.

(** The phases [2π·fc·t] and [2π·((fc + bs)·t + 0.5·k·t²)] and the two
    channels, scaled by the tone gain. *)
Definition leftPhase (fc : number) : expr :=
  EMul (EMul (EMul ETwo EPi) (ENum fc)) ETime.

Definition rightPhase (fc bs k : number) : expr :=
  EMul (EMul ETwo EPi)
       (EParen (EAddSp (EMul (EParen (EAdd (ENum fc) (ENum bs))) ETime)
                       (EMul (EMul (EMul EHalf (ENum k)) ETime) ETime))).

Definition channel (gain : number) (phase : expr) : expr :=
  EMul (ENum gain) (ESin phase).

(** The number of hundredths nearest to a non-negative finite Number (the
    larger one on a tie), in exact arithmetic. *)
Definition hundredths (x : number) : Z :=
  match x with
  | S754_finite false m e =>
      let '(p, q) := exact m e in (200 * p + q) / (2 * q)
  | _ => 0
  end.

(** "A value with 2 decimal places". *)
Definition twoDecimals (x : number) : string :=
  let n := hundredths x in
  Z_to_dec (n / 100) +:+ "." +:+
  String (digit_char (n / 10)) (String (digit_char n) "").

(** "The sanitized hint if non-empty, else the band label". *)
Definition hintOrLabel (filenameHint : option string) (label : string)
  : string :=
  match filenameHint with
  | Some s =>
      match take 40 (keep is_word_or_dash s) with
      | EmptyString => label
      | h => h
      end
  | None => label
  end.

(** Every character of a string is in a class; how often one occurs. *)
Fixpoint allChars (f : ascii -> bool) (s : string) : bool :=
  match s with
  | EmptyString => true
  | String c r => f c && allChars f r
  end.

Fixpoint countChar (a : ascii) (s : string) : nat :=
  match s with
  | EmptyString => 0
  | String c r => (if Ascii.eqb c a then 1 else 0) + countChar a r
  end.

(** The characters of a version-4 UUID in its usual form: lower-case
    hexadecimal digits and hyphens. *)
Definition is_uuid_char (c : ascii) : bool :=
  is_digit c || ((97 <=? code c) && (code c <=? 102))%N || (code c =? 45)%N.

(** White space, the double quote and the path separators. *)
Definition is_unsafe (c : ascii) : bool :=
  is_space c || (code c =? 34)%N || (code c =? 47)%N || (code c =? 92)%N.

(** A request has a temp file to delete when multer stored an upload under
    a non-empty path. *)
Definition tempFile (req : request) : option string :=
  match file req with
  | Some f => match path f with EmptyString => None | p => Some p end
  | None => None
  end.

Definition hasTempFile (req : request) : bool :=
  match tempFile req with Some _ => true | None => false end.

Definition count {A : Type} (f : A -> bool) (l : list A) : nat :=
  length (List.filter f l).

(** Events that only deliver output, and the text they deliver. *)
Definition is_data (ev : child_event) : bool :=
  match ev with Stdout _ | Stderr _ => true | _ => false end.

Fixpoint stdout_text (evs : list child_event) : string :=
  match evs with
  | [] => ""
  | Stdout d :: r => d +:+ stdout_text r
  | _ :: r => stdout_text r
  end.

Fixpoint probe_stderr_text (evs : list child_event) : string :=
  match evs with
  | [] => ""
  | Stderr d :: r => d +:+ probe_stderr_text r
  | _ :: r => probe_stderr_text r
  end.

End Spec.

(* ================================================================== *)
(** ** The order of the numbers, as integers *)
(* ================================================================== *)

(** Numbers other than NaN are ordered like the triples
    (class and sign, signed exponent, signed mantissa), lexicographically. *)
Module Order.
Import JS.

Definition r1 (x : number) : Z :=
  match x with
  | S754_infinity true => -2
  | S754_finite true _ _ => -1
  | S754_finite false _ _ => 1
  | S754_infinity false => 2
  | _ => 0
  end.

Definition r2 (x : number) : Z :=
  match x with
  | S754_finite true _ e => - e
  | S754_finite false _ e => e
  | _ => 0
  end.

Definition r3 (x : number) : Z :=
  match x with
  | S754_finite true m _ => Z.neg m
  | S754_finite false m _ => Z.pos m
  | _ => 0
  end.

Definition lexlt (x y : number) : Prop :=
  r1 x < r1 y \/ (r1 x = r1 y /\ (r2 x < r2 y \/ (r2 x = r2 y /\ r3 x < r3 y))).

Definition lexeq (x y : number) : Prop :=
  r1 x = r1 y /\ r2 x = r2 y /\ r3 x = r3 y.

(** A number is well formed when its mantissa is the canonical one for its
    exponent: every number the program computes is. *)
Definition valid (x : number) : Prop := valid_binary prec emax x = true.

(** The mantissa of 60, whose exponent is -47. *)
Definition m60 : Z := 8444249301319680.

End Order.

(* ================================================================== *)
(** ** verify_beats.js *)
(* ================================================================== *)

Module VerifyBeats.
Import JS.

(** *** The command line *)

(** What the properties of the option object hold: numbers and strings. *)
Inductive value :=
  | VNum (n : number)
  | VStr (s : string).

(** Truthiness, as [!out.file] and [argv.help || argv.h] test it; a missing
    property is [undefined]. *)
Definition truthy (v : option value) : bool :=
  match v with
  | None => false
  | Some (VStr EmptyString) => false
  | Some (VStr _) => true
  | Some (VNum (S754_zero _)) | Some (VNum S754_nan) => false
  | Some (VNum _) => true
  end.

(** [isNaN(Number(v)) ? v : Number(v)] *)
Definition numeric (v : string) : value :=
  let n := Number (Some v) in
  if isNaN n then VStr v else VNum n.

(** [out[key] = v] for a number or string [v]: an own property, except that
    assigning a primitive to [__proto__] has no effect. *)
Definition assign (key : string) (v : value) (out : gmap string value)
  : gmap string value :=
  if String.eqb key "__proto__" then out else <[key := v]> out.

Definition startsWith (p s : string) : bool :=
  match strip_prefix p s with
  | Some _ => true
  | None => false
  end.

(** The pieces of [a.split('=', 2)]: the text before the first [=], and,
    if there is one, the text between it and the next. *)
Fixpoint before_eq (s : string) : string :=
  match s with
  | EmptyString => EmptyString
  | String c r => if Ascii.eqb c "=" then EmptyString else String c (before_eq r)
  end.

Fixpoint after_eq (s : string) : option string :=
  match s with
  | EmptyString => None
  | String c r => if Ascii.eqb c "=" then Some r else after_eq r
  end.

Definition split2 (a : string) : string * option string :=
  (before_eq a, option_map before_eq (after_eq a)).

(** [k.replace(/^--/, '')] and [a.replace(/^-+/, '')] *)
Definition strip2 (k : string) : string :=
  match strip_prefix "--" k with
  | Some r => r
  | None => k
  end.

Fixpoint strip_dashes (a : string) : string :=
  match a with
  | String "-" r => strip_dashes r
  | _ => a
  end.

Definition defaults : gmap string value :=
  {[ "seconds" := VNum (of_Z 10);
     "bandMin" := VNum (of_Z 100);
     "bandMax" := VNum (of_Z 1000);
     "minBeat" := VNum (of_Z 1);
     "maxBeat" := VNum (of_Z 40) ]}.

(** What a short option stores. *)
Definition store (key v : string) (out : gmap string value)
  : gmap string value :=
  if String.eqb key "f" then <["file" := VStr v]> out
  else if String.eqb key "s" then <["seconds" := VNum (Number (Some v))]> out
  else assign key (numeric v) out.

(** The [while (!cur.done)] loop over the arguments still to be read. *)
Fixpoint parseLoop (out : gmap string value) (argv : list string)
  : gmap string value :=
  match argv with
  | [] => out
  | a :: rest =>
      if startsWith "--" a then
        let '(k, vRaw) := split2 a in
        let key := strip2 k in
        match vRaw with
        | Some v => parseLoop (assign key (numeric v) out) rest
        | None =>
            match rest with
            | [] => assign key (numeric "true") out
            | n :: rest' =>
                let v := if startsWith "-" n then "true" else n in
                parseLoop (assign key (numeric v) out) rest'
            end
        end
      else if startsWith "-" a then
        let key := strip_dashes a in
        match rest with
        | [] => store key "true" out
        | n :: rest' => parseLoop (store key n out) rest'
        end
      else
        parseLoop (if truthy (out !! "file") then out
                   else <["file" := VStr a]> out) rest
  end.

(** [function parseArgs(argv)] *)
Definition parseArgs (argv : list string) : gmap string value :=
  parseLoop defaults argv.

(** The top-level function: help is printed when there is no file or help
    was asked for; without a file the process exits with code 1, and
    otherwise the file is analysed with the parsed options. *)
Inductive outcome :=
  | Exit (code : Z)
  | Analyze (file : option value) (opts : gmap string value).

Definition main (args : list string) : bool * outcome :=
  let argv := parseArgs args in
  let nofile := negb (truthy (argv !! "file")) in
  (nofile || truthy (argv !! "help") || truthy (argv !! "h"),
   if nofile then Exit 1 else Analyze (argv !! "file") argv).

(** *** Further operations on numbers *)

Definition mul (x y : number) : number := SFmul prec emax x y.

(** [Math.floor] and [Math.ceil]: a zero result keeps the sign of the
    argument. *)
Definition Math_floor (x : number) : number :=
  match x with
  | S754_finite s m e =>
      if 0 <=? e then x
      else
        let sm := if s then Z.neg m else Z.pos m in
        let z := sm / 2 ^ (- e) in
        if z =? 0 then S754_zero s else of_Z z
  | _ => x
  end.

Definition Math_ceil (x : number) : number :=
  match x with
  | S754_finite s m e =>
      if 0 <=? e then x
      else
        let sm := if s then Z.neg m else Z.pos m in
        let z := - ((- sm) / 2 ^ (- e)) in
        if z =? 0 then S754_zero s else of_Z z
  | _ => x
  end.

(** Truthiness of a number: [0], [-0] and NaN are falsy. *)
Definition truthyNumber (x : number) : bool :=
  match x with
  | S754_zero _ | S754_nan => false
  | _ => true
  end.

(** [ToNumber] of an option value; a missing option is [undefined]. *)
Definition toNumber (v : value) : number :=
  match v with
  | VNum n => n
  | VStr s => Number (Some s)
  end.

(** The end of [chunk.subarray(0, end)] for a chunk of [len] bytes: [end]
    is truncated to an integer, counted from the back when negative, and
    clamped to the chunk. *)
Definition subarrayEnd (x : number) (len : Z) : Z :=
  match x with
  | S754_nan | S754_zero _ => 0
  | S754_infinity s => if s then 0 else len
  | S754_finite s m e =>
      let a := if 0 <=? e then Z.pos m * 2 ^ e else Z.pos m / 2 ^ (- e) in
      if s then Z.max (len - a) 0 else Z.min a len
  end.

(** *** Collecting the audio to analyse *)

(** The [format] event of the WAV reader: the header fields, which are
    unsigned integers. *)
Record format := {
  sampleRate : Z;
  channels : Z;
  bitDepth : Z;
  audioFormat : Z
}.

(** [audioFormat === 3 ? (bitDepth / 8 || 4) : (bitDepth / 8)] *)
Definition bytesPerSample (f : format) : number :=
  let b := div (of_Z (bitDepth f)) (of_Z 8) in
  if audioFormat f =? 3 then (if truthyNumber b then b else of_Z 4) else b.

(** [Math.ceil(format.sampleRate * seconds) * format.channels * bps] *)
Definition targetBytesOf (f : format) (seconds : number) : number :=
  mul (mul (Math_ceil (mul (of_Z (sampleRate f)) seconds)) (of_Z (channels f)))
      (bytesPerSample f).

Record reader := {
  fmt : option format;
  targetBytes : number;
  chunks : list (list Byte.byte);
  collected : number;
  analyzed : bool;
  analyses : list (list Byte.byte * format)
}.

Inductive reader_event :=
  | Format (f : format)
  | Data (chunk : list Byte.byte)
  | End.

Definition opened : reader :=
  {| fmt := None; targetBytes := Infinity; chunks := []; collected := of_Z 0;
     analyzed := false; analyses := [] |}.

(** [tryAnalyze]: runs the analysis on [Buffer.concat(chunks)], once, and
    only when the format is known. *)
Definition tryAnalyze (st : reader) : reader :=
  match analyzed st, fmt st with
  | false, Some f =>
      {| fmt := fmt st; targetBytes := targetBytes st; chunks := chunks st;
         collected := collected st; analyzed := true;
         analyses := analyses st ++ [(concat (chunks st), f)] |}
  | _, _ => st
  end.

Definition reader_step (seconds : number) (st : reader) (ev : reader_event)
  : reader :=
  match ev with
  | Format f =>
      {| fmt := Some f; targetBytes := targetBytesOf f seconds;
         chunks := chunks st; collected := collected st;
         analyzed := analyzed st; analyses := analyses st |}
  | Data chunk =>
      if analyzed st then st
      else
        let len := Z.of_nat (length chunk) in
        let remaining := Math_max (of_Z 0) (sub (targetBytes st) (collected st)) in
        let slice :=
          if truthyNumber remaining && lt remaining (of_Z len)
          then firstn (Z.to_nat (subarrayEnd remaining len)) chunk
          else chunk in
        let collected' := add (collected st) (of_Z (Z.of_nat (length slice))) in
        let st' := {| fmt := fmt st; targetBytes := targetBytes st;
                      chunks := chunks st ++ [slice]; collected := collected';
                      analyzed := analyzed st; analyses := analyses st |} in
        if ge collected' (targetBytes st) then tryAnalyze st' else st'
  | End => if analyzed st then st else tryAnalyze st
  end.

(** The reader after the events of a file, for [opts.seconds]. *)
Definition read (seconds : number) (evs : list reader_event) : reader :=
  fold_left (reader_step seconds) evs opened.

(** [async function analyzeWavFile(filePath, opts)]: [opts.seconds], ten
    when it is missing, is used as a number; the reader's events do the
    rest. *)
Definition secondsOf (opts : gmap string value) : number :=
  match opts !! "seconds" with
  | Some v => toNumber v
  | None => of_Z 10
  end.

Definition analyzeWavFile (opts : gmap string value)
    (evs : list reader_event) : reader :=
  read (secondsOf opts) evs.

(** A WAV file as the server renders it, and a buffer of [n] zero bytes. *)
Definition wav48 : format :=
  {| sampleRate := 48000; channels := 2; bitDepth := 24; audioFormat := 1 |}.

Definition bytes (n : nat) : list Byte.byte := repeat Byte.x00 n.

(** *** Decoding the samples *)

(** [Math.fround]: the nearest binary32 value, ties to even, as a Number;
    it is what a [Float32Array] element holds after a store. *)
Definition fround (x : number) : number :=
  match x with
  | S754_finite s m e =>
      let E := Z.max (Zdigits2 (Z.pos m) + e - 24) (-149) in
      let n := E - e in
      if n <=? 0 then x
      else
        let q := Z.pos m / 2 ^ n in
        let r := Z.pos m mod 2 ^ n in
        let half := 2 ^ (n - 1) in
        let q' := if (half <? r) || ((r =? half) && Z.odd q) then q + 1 else q in
        if q' =? 0 then S754_zero s
        else if 2 ^ 128 <=? q' * 2 ^ E then S754_infinity s
        else binary_normalize prec emax (if s then - q' else q') E false
  | _ => x
  end.

(** Little-endian integers of a buffer. *)
Definition byteZ (b : Byte.byte) : Z := Z.of_N (Byte.to_N b).

Fixpoint unsignedLE (bs : list Byte.byte) : Z :=
  match bs with
  | [] => 0
  | b :: r => byteZ b + 256 * unsignedLE r
  end.

Definition signedLE (bs : list Byte.byte) : Z :=
  let u := unsignedLE bs in
  let w := 8 * Z.of_nat (length bs) in
  if u <? 2 ^ (w - 1) then u else u - 2 ^ w.

(** The value of four bytes read as a little-endian binary32. *)
Definition float32LE (bs : list Byte.byte) : number :=
  let u := unsignedLE bs in
  let s := 2 ^ 31 <=? u in
  let ex := (u / 2 ^ 23) mod 2 ^ 8 in
  let frac := u mod 2 ^ 23 in
  if ex =? 255 then (if frac =? 0 then S754_infinity s else NaN)
  else if ex =? 0 then
    (if frac =? 0 then S754_zero s
     else binary_normalize prec emax (if s then - frac else frac) (-149) false)
  else
    let m := 2 ^ 23 + frac in
    binary_normalize prec emax (if s then - m else m) (ex - 150) false.

(** The whole number a Number is, if it is one. *)
Definition integerOf (x : number) : option Z :=
  match x with
  | S754_zero _ => Some 0
  | S754_finite s m e =>
      let sm := if s then Z.neg m else Z.pos m in
      if 0 <=? e then Some (sm * 2 ^ e)
      else if Z.pos m mod 2 ^ (- e) =? 0 then Some (sm / 2 ^ (- e))
      else None
  | _ => None
  end.

Inductive thrown :=
  | NotStereo                 (* Error('Only stereo WAV is supported') *)
  | UnsupportedBitDepth       (* Error(`Unsupported bit depth: ${bitDepth}`) *)
  | OutOfRange.               (* RangeError of a buffer read or of the
                                 typed array constructor *)

Inductive completion (A : Type) :=
  | Ok (a : A)
  | Throw (e : thrown).
Arguments Ok {A} a.
Arguments Throw {A} e.

(** [size] bytes of a buffer at [offset]; a read at an offset that is not a
    whole number within the buffer throws a RangeError. *)
Definition readBytes (buf : list Byte.byte) (offset : number) (size : nat)
  : completion (list Byte.byte) :=
  match integerOf offset with
  | None => Throw OutOfRange
  | Some o =>
      if (0 <=? o) && (o + Z.of_nat size <=? Z.of_nat (length buf))
      then Ok (firstn size (skipn (Z.to_nat o) buf))
      else Throw OutOfRange
  end.

(** [const readSample = (offset) => ...] *)
Definition readSample (buf : list Byte.byte) (f : format) (bps : number)
    (offset : number) : completion number :=
  if (audioFormat f =? 3) && eq bps (of_Z 4) then
    match readBytes buf offset 4 with
    | Ok bs => Ok (float32LE bs)
    | Throw e => Throw e
    end
  else if bitDepth f =? 8 then
    match readBytes buf offset 1 with
    | Ok bs => Ok (div (sub (of_Z (unsignedLE bs)) (of_Z 128)) (of_Z 128))
    | Throw e => Throw e
    end
  else if bitDepth f =? 16 then
    match readBytes buf offset 2 with
    | Ok bs => Ok (div (of_Z (signedLE bs)) (of_Z 32768))
    | Throw e => Throw e
    end
  else if bitDepth f =? 24 then
    match readBytes buf offset 3 with
    | Ok bs => Ok (div (of_Z (signedLE bs)) (of_Z 8388608))
    | Throw e => Throw e
    end
  else if bitDepth f =? 32 then
    match readBytes buf offset 4 with
    | Ok bs => Ok (div (of_Z (signedLE bs)) (of_Z 2147483648))
    | Throw e => Throw e
    end
  else Throw UnsupportedBitDepth.

(** The length of [new Float32Array(n)]: NaN counts as zero, a fraction is
    truncated, and a negative or huge length is a RangeError. *)
Definition toIndex (x : number) : completion Z :=
  match x with
  | S754_nan | S754_zero _ => Ok 0
  | S754_infinity _ => Throw OutOfRange
  | S754_finite s m e =>
      let a := if 0 <=? e then Z.pos m * 2 ^ e else Z.pos m / 2 ^ (- e) in
      if s then (if a =? 0 then Ok 0 else Throw OutOfRange)
      else if a <? 2 ^ 53 then Ok a else Throw OutOfRange
  end.

(** The [for] loop: frames [i], [i+1], ... [i+k-1], left sample first. *)
Fixpoint frames (buf : list Byte.byte) (f : format) (bps frameSize : number)
    (k : nat) (i : Z) : completion (list number * list number) :=
  match k with
  | O => Ok ([], [])
  | S k' =>
      let base := mul (of_Z i) frameSize in
      match readSample buf f bps base with
      | Throw e => Throw e
      | Ok l =>
          match readSample buf f bps (add base bps) with
          | Throw e => Throw e
          | Ok r =>
              match frames buf f bps frameSize k' (i + 1) with
              | Throw e => Throw e
              | Ok (ls, rs) => Ok (fround l :: ls, fround r :: rs)
              end
          end
      end
  end.

(** [function deinterleaveToFloatStereo(buf, format)] *)
Definition deinterleaveToFloatStereo (buf : list Byte.byte) (f : format)
  : completion (list number * list number * Z) :=
  if negb (channels f =? 2) then Throw NotStereo
  else
    let bps := bytesPerSample f in
    let frameSize := mul bps (of_Z (channels f)) in
    let totalFrames :=
      Math_floor (div (of_Z (Z.of_nat (length buf))) frameSize) in
    match toIndex totalFrames with
    | Throw e => Throw e
    | Ok n =>
        match frames buf f bps frameSize (Z.to_nat n) 0 with
        | Throw e => Throw e
        | Ok (ls, rs) => Ok (ls, rs, sampleRate f)
        end
    end.

(** *** The dominant frequency *)

Definition Math_abs (x : number) : number := SFabs x.

(** An array element read for a comparison or for [x || 0]; an index beyond
    the end gives [undefined], which compares and counts as NaN does. *)
Definition elem (a : list number) (i : Z) : number :=
  if i <? 0 then NaN
  else match nth_error a (Z.to_nat i) with
       | Some v => v
       | None => NaN
       end.

(** The search loop of [dominantFreqInBand], bins [i], [i+1], ... while
    [i < N / 2]; [freqs] and [mags] are the frequencies and magnitudes of the
    transform of the windowed slice of [N] samples. *)
Fixpoint peakLoop (freqs mags : list number) (N : Z) (bandMin bandMax : number)
    (fuel : nat) (i peakIdx : Z) (peakMag : number) : Z :=
  match fuel with
  | O => peakIdx
  | S fuel' =>
      if lt (of_Z i) (div (of_Z N) (of_Z 2)) then
        let f := elem freqs i in
        if ge f bandMin && le f bandMax then
          let m := elem mags i in
          if gt m peakMag
          then peakLoop freqs mags N bandMin bandMax fuel' (i + 1) i m
          else peakLoop freqs mags N bandMin bandMax fuel' (i + 1) peakIdx peakMag
        else peakLoop freqs mags N bandMin bandMax fuel' (i + 1) peakIdx peakMag
      else peakIdx
  end.

(** [dominantFreqInBand] from the spectrum on: the peak search and
    [Math.abs(freqs[peakIdx] || 0)].  The loop ends by itself before [i]
    reaches [N]. *)
Definition dominantFreqInBand (freqs mags : list number) (N : Z)
    (bandMin bandMax : number) : number :=
  let peakIdx :=
    peakLoop freqs mags N bandMin bandMax (Z.to_nat N) 0 0 (S754_infinity true) in
  let f := elem freqs peakIdx in
  Math_abs (if truthyNumber f then f else of_Z 0).

End VerifyBeats.

(* ================================================================== *)
(** ** Notions used to state further properties *)
(* ================================================================== *)

Module Notions.
Import JS Server.

(** The value of a finite number in units of 2^-1074, the least positive
    number: an integer for every well-formed number. *)
Definition ival (x : number) : Z :=
  match x with
  | S754_finite s m e => (if s then Z.neg m else Z.pos m) * 2 ^ (e + 1074)
  | _ => 0
  end.




(** [n] bytes of a buffer from offset [o] on. *)
Definition bytesAt (buf : list Byte.byte) (o : Z) (n : nat) : list Byte.byte :=
  firstn n (skipn (Z.to_nat o) buf).

(** The integer that the bytes of an integer PCM sample of depth [w] stand
    for: 8-bit samples are unsigned around 128, deeper ones are signed. *)
Definition pcm (w : Z) (bs : list Byte.byte) : Z :=
  if w =? 8 then VerifyBeats.unsignedLE bs - 128 else VerifyBeats.signedLE bs.

(** What [readSample] computes for the integer depths. *)
Definition integerSample (w : Z) (buf : list Byte.byte) (o : Z) : number :=
  div (of_Z (pcm w (bytesAt buf o (Z.to_nat (w / 8))))) (of_Z (2 ^ (w - 1))).

(** A key that orders the numbers other than NaN: the value in units of
    2^-1074, and beyond every one of them for the infinities. *)
Definition rank (x : number) : Z :=
  match x with
  | S754_infinity s => if s then - 2 ^ 2200 else 2 ^ 2200
  | _ => ival x
  end.

(** A bin that the search can pick: below [N / 2], in the band, and with a
    magnitude above the initial [-Infinity]. *)
Definition candidate (freqs mags : list number) (N : Z)
    (bandMin bandMax : number) (i : Z) : bool :=
  (0 <=? i) && (2 * i <? N) &&
  (ge (VerifyBeats.elem freqs i) bandMin && le (VerifyBeats.elem freqs i) bandMax) &&
  gt (VerifyBeats.elem mags i) (S754_infinity true).

(** The state of the search before bin [j]: nothing could be picked yet, or
    [p] is the first of the strongest bins seen and [pm] its magnitude. *)
Definition searched (freqs mags : list number) (N : Z)
    (bandMin bandMax : number) (j p : Z) (pm : number) : Prop :=
  (pm = S754_infinity true /\ p = 0 /\
   forall i, i < j -> candidate freqs mags N bandMin bandMax i = false) \/
  (p < j /\ candidate freqs mags N bandMin bandMax p = true /\
   pm = VerifyBeats.elem mags p /\
   forall i, i < j -> candidate freqs mags N bandMin bandMax i = true ->
     gt (VerifyBeats.elem mags i) pm = false /\ (i < p -> lt (VerifyBeats.elem mags i) pm = true)).

End Notions.

(* ================================================================== *)
(** ** Facts about numbers *)
(* ================================================================== *)

Import JS Server Spec Order.

Lemma compare_cont_Eq (a b : positive) :
  PosDef.Pos.compare_cont Eq a b = (Z.pos a ?= Z.pos b).
Proof. reflexivity. Qed.

Lemma SFcompare_spec (x y : number) :
  isNaN x = false -> isNaN y = false ->
  match SFcompare x y with
  | Some Lt => lexlt x y
  | Some Eq => lexeq x y
  | Some Gt => lexlt y x
  | None => False
  end.
Proof.
  unfold lexlt, lexeq.
  destruct x as [sx|sx| |sx mx ex], y as [sy|sy| |sy my ey]; simpl;
    try discriminate; intros _ _;
    try destruct sx; try destruct sy; simpl; try lia.
  - rewrite compare_cont_Eq.
    destruct (Z.compare_spec ex ey), (Z.compare_spec (Z.pos mx) (Z.pos my));
      simpl; lia.
  - rewrite compare_cont_Eq.
    destruct (Z.compare_spec ex ey), (Z.compare_spec (Z.pos mx) (Z.pos my));
      simpl; lia.
Qed.

(** Case analysis on the comparison of two numbers known not to be NaN. *)
Ltac cmp x y :=
  let S := fresh "S" in
  let C := fresh "C" in
  assert (S := SFcompare_spec x y);
  destruct (SFcompare x y) as [[]|] eqn:C;
  [ specialize (S ltac:(assumption) ltac:(assumption))
  | specialize (S ltac:(assumption) ltac:(assumption))
  | specialize (S ltac:(assumption) ltac:(assumption))
  | exfalso; apply S; assumption ].

Ltac lex := unfold lexlt, lexeq, pos_zero in *; cbn [r1 r2 r3] in *; lia.

Lemma le_iff x y :
  isNaN x = false -> isNaN y = false ->
  (le x y = true <-> (lexlt x y \/ lexeq x y)).
Proof.
  intros Hx Hy. unfold le, SFleb. cmp x y; split; auto; try discriminate; lex.
Qed.

Lemma lt_iff x y :
  isNaN x = false -> isNaN y = false ->
  (lt x y = true <-> lexlt x y).
Proof.
  intros Hx Hy. unfold lt, SFltb. cmp x y; split; auto; try discriminate; lex.
Qed.

Lemma eq_iff x y :
  isNaN x = false -> isNaN y = false ->
  (eq x y = true <-> lexeq x y).
Proof.
  intros Hx Hy. unfold eq, SFeqb. cmp x y; split; auto; try discriminate; lex.
Qed.

Lemma le_notNaN x y : le x y = true -> isNaN x = false /\ isNaN y = false.
Proof. destruct x, y; simpl; auto; discriminate. Qed.

Lemma lt_notNaN x y : lt x y = true -> isNaN x = false /\ isNaN y = false.
Proof. destruct x, y; simpl; auto; discriminate. Qed.

Lemma isFinite_notNaN x : isFinite x = true -> isNaN x = false.
Proof. destruct x; simpl; auto; discriminate. Qed.

Lemma Math_max_cases x y :
  isNaN x = false -> isNaN y = false ->
  (Math_max x y = y /\ (lexlt x y \/ (lexeq x y /\ is_neg_zero x = true))) \/
  (Math_max x y = x /\ (lexlt y x \/ (lexeq x y /\ is_neg_zero x = false))).
Proof.
  intros Hx Hy. unfold Math_max. cmp x y; auto.
  destruct (is_neg_zero x); auto.
Qed.

Lemma Math_min_cases x y :
  isNaN x = false -> isNaN y = false ->
  (Math_min x y = x /\ (lexlt x y \/ (lexeq x y /\ is_pos_zero x = false))) \/
  (Math_min x y = y /\ (lexlt y x \/ (lexeq x y /\ is_pos_zero x = true))).
Proof.
  intros Hx Hy. unfold Math_min. cmp x y; auto.
  destruct (is_pos_zero x); auto.
Qed.

(** Clamping a number that is not NaN: the result is one of the three
    arguments, whichever lies in the range. *)
Lemma clamp_cases v lo hi :
  isNaN v = false -> lt lo hi = true ->
  (clamp v lo hi = lo /\ (lexlt v lo \/ lexeq v lo)) \/
  (clamp v lo hi = hi /\ (lexlt hi v \/ lexeq hi v)) \/
  (clamp v lo hi = v /\ (lexlt lo v \/ lexeq lo v) /\ (lexlt v hi \/ lexeq v hi)).
Proof.
  intros Hv Hlh. destruct (lt_notNaN _ _ Hlh) as [Hlo Hhi].
  apply lt_iff in Hlh; try assumption.
  unfold clamp.
  destruct (Math_max_cases v lo Hv Hlo) as [[E M]|[E M]]; rewrite E.
  - destruct (Math_min_cases lo hi Hlo Hhi) as [[E' M']|[E' M']]; rewrite E'.
    + left. split; [reflexivity | lex].
    + exfalso. lex.
  - destruct (Math_min_cases v hi Hv Hhi) as [[E' M']|[E' M']]; rewrite E'.
    + right. right. split; [reflexivity | lex].
    + right. left. split; [reflexivity | lex].
Qed.

Lemma clamp_range v lo hi :
  isNaN v = false -> lt lo hi = true ->
  le lo (clamp v lo hi) = true /\ le (clamp v lo hi) hi = true.
Proof.
  intros Hv Hlh. destruct (lt_notNaN _ _ Hlh) as [Hlo Hhi].
  pose proof Hlh as L. apply lt_iff in L; try assumption.
  destruct (clamp_cases v lo hi Hv Hlh) as [[E M]|[[E M]|[E M]]];
    rewrite E; split; apply le_iff; try assumption; lex.
Qed.

Lemma num_clamp value def lo hi :
  num value def lo hi =
  if isFinite (Number value) then clamp (Number value) lo hi else def.
Proof. unfold num, clamp. destruct (isFinite (Number value)); reflexivity. Qed.

Lemma num_spec value def lo hi :
  lt lo hi = true -> le lo def = true -> le def hi = true ->
  let v := Number value in
  let r := num value def lo hi in
  (le lo r = true /\ le r hi = true) /\
  (isFinite v = true ->
     (lt v lo = true -> r = lo) /\
     (lt hi v = true -> r = hi) /\
     (le lo v = true -> le v hi = true -> eq r v = true)) /\
  (isFinite v = false -> r = def) /\
  (value = None -> r = def).
Proof.
  intros Hlh Hld Hdh v r. subst r. rewrite num_clamp. fold v.
  destruct (lt_notNaN _ _ Hlh) as [Hlo Hhi].
  pose proof Hlh as L. apply lt_iff in L; try assumption.
  destruct (isFinite v) eqn:F.
  - pose proof (isFinite_notNaN v F) as Hv.
    pose proof (clamp_range v lo hi Hv Hlh) as R.
    pose proof (clamp_cases v lo hi Hv Hlh) as K.
    split; [exact R|]. split; [|split].
    + intros _. split; [|split].
      * intros H. apply lt_iff in H; try assumption.
        destruct K as [[E M]|[[E M]|[E M]]]; try assumption; exfalso; lex.
      * intros H. apply lt_iff in H; try assumption.
        destruct K as [[E M]|[[E M]|[E M]]]; try assumption; exfalso; lex.
      * intros H1 H2. apply le_iff in H1; try assumption.
        apply le_iff in H2; try assumption.
        destruct K as [[E M]|[[E M]|[E M]]]; rewrite E;
          apply eq_iff; try assumption; lex.
    + discriminate.
    + intros E. subst v. rewrite E in F. discriminate.
  - split; [split; assumption|]. split; [discriminate|]. split; reflexivity.
Qed.

(** ** The parameter resolver *)

Example Number_absent : Number None = NaN.
Proof. reflexivity. Qed.

Example Number_not_finite :
  map (fun s => isFinite (Number (Some s)))
      ["abc"; "NaN"; "Infinity"; "-Infinity"; "12px"; "1e999"]
  = [false; false; false; false; false; false].
Proof. vm_compute. reflexivity. Qed.

Example Number_empty_is_zero :
  Number (Some "") = pos_zero /\ Number (Some "   ") = pos_zero.
Proof. split; reflexivity. Qed.

Example num_examples :
  map (fun s => toString (num (Some s) (lit 420) (lit 100) (lit 1000)))
      ["432"; "99.5"; "-7"; "5000"; "1e3"; "0x1B0"; " 250 "; "abc"; ""]
  = ["432"; "100"; "100"; "1000"; "1000"; "432"; "250"; "420"; "100"].
Proof. vm_compute. reflexivity. Qed.

(** Every numeric field of the parsed inputs lies in its range. *)
Lemma resolved_in_range (b : gmap string string) (f : field) :
  let r := resolved f (parseInputs b) in
  le (minOf f) r = true /\ le r (maxOf f) = true.
Proof.
  destruct f; cbv zeta; cbn [resolved parseInputs carrier beatStart beatEnd
                             toneGain musicGain fadeSec minOf maxOf];
    apply num_spec; vm_compute; reflexivity.
Qed.



(** ** The band label *)

Lemma ltP x y :
  isNaN x = false -> isNaN y = false -> reflect (lexlt x y) (lt x y).
Proof. intros Hx Hy. apply iff_reflect. symmetry. now apply lt_iff. Qed.

Lemma leP x y :
  isNaN x = false -> isNaN y = false ->
  reflect (lexlt x y \/ lexeq x y) (le x y).
Proof. intros Hx Hy. apply iff_reflect. symmetry. now apply le_iff. Qed.

Lemma lt_ge_false x a : lt x a = true -> ge x a = false.
Proof.
  intros H. unfold ge. change (le a x = false). destruct (lt_notNaN _ _ H) as [Hx Ha].
  apply lt_iff in H; try assumption.
  destruct (leP a x Ha Hx); [exfalso; lex | reflexivity].
Qed.

Lemma lt_false_ge x a :
  isNaN x = false -> isNaN a = false -> lt x a = false -> ge x a = true.
Proof.
  intros Hx Ha H. unfold ge. change (le a x = true).
  destruct (ltP x a Hx Ha); [discriminate|].
  apply le_iff; try assumption. lex.
Qed.

Lemma lt_trans x a b : lt x a = true -> lt a b = true -> lt x b = true.
Proof.
  intros H1 H2. destruct (lt_notNaN _ _ H1) as [Hx Ha].
  destruct (lt_notNaN _ _ H2) as [_ Hb].
  apply lt_iff in H1; try assumption. apply lt_iff in H2; try assumption.
  apply lt_iff; try assumption. lex.
Qed.

Lemma band_order (A : Type) (beta alpha theta delta custom : A)
    (c4 c8 c12 c20 x : number) :
  isNaN x = false ->
  lt c4 c8 = true -> lt c8 c12 = true -> lt c12 c20 = true ->
  (if ge x c12 && le x c20 then beta
   else if ge x c8 && lt x c12 then alpha
   else if ge x c4 && lt x c8 then theta
   else if lt x c4 then delta
   else custom) =
  (if lt x c4 then delta
   else if ge x c4 && lt x c8 then theta
   else if ge x c8 && lt x c12 then alpha
   else if ge x c12 && le x c20 then beta
   else custom).
Proof.
  intros Hx L1 L2 L3.
  destruct (lt_notNaN _ _ L1) as [H4 H8].
  destruct (lt_notNaN _ _ L3) as [H12 H20].
  destruct (lt x c4) eqn:E4.
  { pose proof (lt_trans _ _ _ E4 L1) as E8.
    pose proof (lt_trans _ _ _ E8 L2) as E12.
    rewrite (lt_ge_false _ _ E4), (lt_ge_false _ _ E8),
      (lt_ge_false _ _ E12). reflexivity. }
  rewrite (lt_false_ge _ _ Hx H4 E4).
  destruct (lt x c8) eqn:E8.
  { pose proof (lt_trans _ _ _ E8 L2) as E12.
    rewrite (lt_ge_false _ _ E8), (lt_ge_false _ _ E12). reflexivity. }
  rewrite (lt_false_ge _ _ Hx H8 E8).
  destruct (lt x c12) eqn:E12.
  { rewrite (lt_ge_false _ _ E12). reflexivity. }
  rewrite (lt_false_ge _ _ Hx H12 E12).
  destruct (le x c20); reflexivity.
Qed.

Lemma bandLabel_bandOf (x : number) : bandLabel x = bandOf x.
Proof.
  destruct (isNaN x) eqn:Hx.
  - destruct x; try discriminate. reflexivity.
  - apply band_order; try assumption; vm_compute; reflexivity.
Qed.

(** C3: the label of an average beat follows the band table (Delta below 4,
    Theta on [4,8), Alpha on [8,12), Beta on [12,20], Custom otherwise), for
    every number and so for every average of clamped beats; 12 and 20 are
    Beta, 11.999 is Alpha, 20.001 is Custom and 0 is Delta. *)
Theorem bandLabel_table :
  (forall b : gmap string string,
      bandLabel (avgBeat (parseInputs b)) = bandOf (avgBeat (parseInputs b))) /\
  (forall avg : number, bandLabel avg = bandOf avg) /\
  bandLabel (of_Z 12) = "Beta" /\
  bandLabel (of_Z 20) = "Beta" /\
  bandLabel (dec 11999 (-3)) = "Alpha" /\
  bandLabel (dec 20001 (-3)) = "Custom" /\
  bandLabel (of_Z 0) = "Delta".
Proof.
  split; [intros b; apply bandLabel_bandOf|].
  split; [exact bandLabel_bandOf|].
  repeat split; vm_compute; reflexivity.
Qed.

(** ** Strings *)

Lemma append_cons c (s t : string) : String c s +:+ t = String c (s +:+ t).
Proof. reflexivity. Qed.

Lemma append_nil_l (s : string) : "" +:+ s = s.
Proof. reflexivity. Qed.

Lemma append_nil_r (s : string) : s +:+ "" = s.
Proof. induction s as [|c s IH]; [reflexivity|]. now rewrite append_cons, IH. Qed.

Lemma append_assoc (s t u : string) : (s +:+ t) +:+ u = s +:+ (t +:+ u).
Proof.
  induction s as [|c s IH]; [reflexivity|]. now rewrite !append_cons, IH.
Qed.

(** ** The duration resolver *)

Lemma probe_data (pre : list child_event) (st : probe_state) :
  forallb is_data pre = true ->
  fold_left probe_step pre st =
  {| out := out st +:+ stdout_text pre;
     err := err st +:+ probe_stderr_text pre;
     promise := promise st |}.
Proof.
  revert st. induction pre as [|ev pre IH]; intros st H.
  - simpl. rewrite !append_nil_r. destruct st; reflexivity.
  - simpl in H. apply andb_true_iff in H as [Hev Hpre].
    destruct ev; try discriminate; simpl; rewrite (IH _ Hpre); simpl;
      now rewrite ?append_assoc.
Qed.

Lemma probe_settled (evs : list child_event) (st : probe_state) r :
  promise st = Some r -> promise (fold_left probe_step evs st) = Some r.
Proof.
  revert st. induction evs as [|ev evs IH]; intros st H; [exact H|].
  simpl. apply IH.
  destruct ev; simpl; try exact H;
    repeat match goal with
           | |- context [if ?c then _ else _] => destruct c
           end; unfold settle; rewrite H; exact H.
Qed.

(** The promise is settled by the first [close] or [error] event, from the
    output collected until then. *)
Lemma probe_first_settle (pre post : list child_event) (ev : child_event) :
  forallb is_data pre = true ->
  probeDurationSec pre = None /\
  probeDurationSec (pre ++ ev :: post) =
  match ev with
  | Stdout _ | Stderr _ => probeDurationSec (pre ++ ev :: post)
  | Error e => Some (Rejected e)
  | Close code =>
      if exited_zero code then
        let sec := parseFloat (trim (stdout_text pre)) in
        if isFinite sec then Some (Resolved sec)
        else Some (Rejected "No duration")
      else Some (Rejected (match probe_stderr_text pre with
                           | EmptyString => "ffprobe failed"
                           | e => e
                           end))
  end.
Proof.
  intros Hpre. unfold probeDurationSec.
  rewrite fold_left_app, (probe_data pre _ Hpre). simpl.
  rewrite !append_nil_l.
  split; [reflexivity|].
  destruct ev as [d|d|code|e]; try reflexivity.
  - destruct code as [[|c|c]|]; simpl;
      try (apply probe_settled; reflexivity).
    destruct (isFinite (parseFloat (trim (stdout_text pre))));
      simpl; apply probe_settled; reflexivity.
  - apply probe_settled; reflexivity.
Qed.

Lemma clamp_finite v lo hi :
  isNaN v = false -> lt lo hi = true ->
  isFinite lo = true -> isFinite hi = true ->
  isFinite (clamp v lo hi) = true.
Proof.
  intros Hv Hlh Fl Fh.
  destruct (clamp_cases v lo hi Hv Hlh) as [[E M]|[[E M]|[E M]]];
    rewrite E; try assumption.
  destruct (lt_notNaN _ _ Hlh) as [Hlo Hhi].
  destruct v as [|[]| |]; try reflexivity; try discriminate;
    destruct lo as [|[]| |[]], hi as [|[]| |[]]; try discriminate;
    exfalso; lex.
Qed.

Lemma duration_bounds : lt minDuration maxDuration = true.
Proof. vm_compute. reflexivity. Qed.

(** *** Rounding never produces NaN *)

Lemma iter_pos_invariant (A : Type) (P : A -> Prop) (f : A -> A) :
  (forall x, P x -> P (f x)) -> forall n x, P x -> P (SpecFloat.iter_pos f n x).
Proof.
  intros Hf n. induction n as [n IH|n IH|]; intros x Hx; simpl; auto.
Qed.

Lemma shr_1_nonneg (mrs : shr_record) :
  0 <= shr_m mrs -> 0 <= shr_m (shr_1 mrs).
Proof.
  destruct mrs as [m r s]. simpl.
  destruct m as [|[p|p|]|[p|p|]]; simpl; lia.
Qed.

Lemma shr_nonneg (mrs : shr_record) (e n : Z) :
  0 <= shr_m mrs -> 0 <= shr_m (fst (shr mrs e n)).
Proof.
  intros H. destruct n as [|p|p]; simpl; try assumption.
  apply iter_pos_invariant; [exact shr_1_nonneg | assumption].
Qed.

Lemma shr_fexp_nonneg (m e : Z) (l : location) :
  0 <= m -> 0 <= shr_m (fst (shr_fexp prec emax m e l)).
Proof.
  intros H. unfold shr_fexp. apply shr_nonneg.
  destruct l as [|[]]; exact H.
Qed.

Lemma round_nearest_even_nonneg (m : Z) (l : location) :
  0 <= m -> 0 <= round_nearest_even m l.
Proof.
  intros H. destruct l as [|[]]; simpl; try lia.
  destruct (Z.even m); lia.
Qed.

Lemma binary_round_aux_notNaN (s : bool) (mx ex : Z) (lx : location) :
  0 <= mx -> isNaN (binary_round_aux prec emax s mx ex lx) = false.
Proof.
  intros H. unfold binary_round_aux.
  pose proof (shr_fexp_nonneg mx ex lx H) as H1.
  destruct (shr_fexp prec emax mx ex lx) as [mrs' e'].
  simpl in H1.
  pose proof (shr_fexp_nonneg
                (round_nearest_even (shr_m mrs') (loc_of_shr_record mrs'))
                e' loc_Exact
                (round_nearest_even_nonneg _ _ H1)) as H2.
  destruct (shr_fexp prec emax _ e' loc_Exact) as [mrs'' e''].
  simpl in H2.
  destruct (shr_m mrs'') as [|p|p]; try reflexivity; [|lia].
  destruct (e'' <=? emax - prec); reflexivity.
Qed.

Lemma of_Z_notNaN (z : Z) : isNaN (of_Z z) = false.
Proof.
  unfold of_Z, binary_normalize, binary_round.
  destruct z as [|p|p]; try reflexivity;
    destruct (shl_align _ _ _) as [mz ez];
    apply binary_round_aux_notNaN; lia.
Qed.

Lemma Math_round_notNaN (x : number) :
  isNaN x = false -> isNaN (Math_round x) = false.
Proof.
  destruct x as [s|s| |s m e]; simpl; auto.
  intros _. destruct (0 <=? e); [reflexivity|].
  destruct (_ =? 0); [reflexivity | apply of_Z_notNaN].
Qed.

Example Math_round_examples :
  map (fun x => toString (Math_round (StringToNumber x)))
      ["45.2"; "45.5"; "-0.5"; "-2.5"; "2.5"; "7199.9"; "0.49"; "1e300"]
  = ["45"; "46"; "0"; "-2"; "3"; "7200"; "0"; "1e+300"].
Proof. vm_compute. reflexivity. Qed.

Section ProbeResult.
(** Any property of the finite results of [parseFloat] is a property of
    what the probe resolves with. *)
Variable P : number -> Prop.
Hypothesis P_parseFloat :
  forall s, isFinite (parseFloat s) = true -> P (parseFloat s).

Lemma settle_resolved (r : settled) (st : probe_state) :
  (forall s, promise st = Some (Resolved s) -> P s) ->
  (forall s, r = Resolved s -> P s) ->
  forall s, promise (settle r st) = Some (Resolved s) -> P s.
Proof.
  intros Hst Hr s. unfold settle.
  destruct (promise st) as [r0|] eqn:E.
  - rewrite E. exact (Hst s).
  - simpl. intros [= ->]. now apply Hr.
Qed.

Lemma probe_step_resolved (st : probe_state) (ev : child_event) :
  (forall s, promise st = Some (Resolved s) -> P s) ->
  forall s, promise (probe_step st ev) = Some (Resolved s) -> P s.
Proof.
  intros Hst. destruct ev as [d|d|code|e]; simpl; try exact Hst.
  - destruct (negb (exited_zero code)).
    + apply settle_resolved; [exact Hst | discriminate].
    + destruct (isFinite (parseFloat (trim (out st)))) eqn:F; simpl.
      * apply settle_resolved; [exact Hst|].
        intros s [= <-]. now apply P_parseFloat.
      * apply settle_resolved; [exact Hst | discriminate].
  - apply settle_resolved; [exact Hst | discriminate].
Qed.

Lemma probe_resolved (evs : list child_event) (sec : number) :
  probeDurationSec evs = Some (Resolved sec) -> P sec.
Proof.
  unfold probeDurationSec.
  assert (G : forall st,
             (forall s, promise st = Some (Resolved s) -> P s) ->
             promise (fold_left probe_step evs st) = Some (Resolved sec) ->
             P sec).
  { induction evs as [|ev evs IH]; intros st Hst H; [now apply Hst|].
    simpl in H. revert H. apply IH. now apply probe_step_resolved. }
  apply G. simpl. discriminate.
Qed.
End ProbeResult.

(** A probe only ever resolves with a finite number of seconds. *)
Lemma probe_resolved_finite (evs : list child_event) (sec : number) :
  probeDurationSec evs = Some (Resolved sec) -> isFinite sec = true.
Proof. apply (probe_resolved (fun x => isFinite x = true)). auto. Qed.

Lemma clamp_duration (v : number) :
  isNaN v = false ->
  let d := clamp v minDuration maxDuration in
  isFinite d = true /\ le minDuration d = true /\ le d maxDuration = true.
Proof.
  intros Hv d. subst d. split.
  - apply clamp_finite; try assumption; reflexivity.
  - apply clamp_range; [assumption | exact duration_bounds].
Qed.

Lemma probeInvoked_eq (req : request) :
  probeInvoked req =
  negb (isFinite (Number (body req !! "durationSec"))) && hasMusic req.
Proof.
  unfold probeInvoked, rawDuration. rewrite num_clamp.
  destruct (isFinite (Number _)) eqn:F; [|reflexivity].
  destruct (clamp_duration _ (isFinite_notNaN _ F)) as [F' _].
  change (lit 60) with minDuration. change (lit 7200) with maxDuration.
  now rewrite F'.
Qed.

(** The handler's chain of fallbacks, as one expression. *)
Lemma resolveDuration_eq (req : request) (probe : list child_event) :
  resolveDuration req probe =
  let raw := Number (body req !! "durationSec") in
  if isFinite raw then Some (clamp raw minDuration maxDuration)
  else if hasMusic req then
    match probeDurationSec probe with
    | Some (Resolved probed) =>
        Some (clamp (Math_round probed) minDuration maxDuration)
    | Some (Rejected _) => Some defaultDuration
    | None => None
    end
  else Some defaultDuration.
Proof.
  unfold resolveDuration. rewrite probeInvoked_eq.
  unfold rawDuration. rewrite num_clamp. cbv zeta.
  change (lit 60) with minDuration. change (lit 7200) with maxDuration.
  change (lit 1800) with defaultDuration.
  destruct (isFinite (Number _)) eqn:F; cbn [negb andb].
  - destruct (clamp_duration _ (isFinite_notNaN _ F)) as [F' _].
    unfold defaultIfUnset. now rewrite F'.
  - destruct (hasMusic req); [|reflexivity].
    destruct (probeDurationSec probe) as [[sec|r]|] eqn:P; try reflexivity.
    f_equal.
    assert (Hs : isNaN (Math_round sec) = false).
    { apply Math_round_notNaN, isFinite_notNaN.
      now apply (probe_resolved_finite probe). }
    destruct (clamp_duration _ Hs) as [F' _].
    fold (clamp (Math_round sec) minDuration maxDuration).
    unfold defaultIfUnset. now rewrite F'.
Qed.

(** Whatever duration the handler goes on with is finite and within
    [60,7200]. *)
Lemma resolveDuration_range (req : request) (probe : list child_event)
      (dur : number) :
  resolveDuration req probe = Some dur ->
  isFinite dur = true /\
  le minDuration dur = true /\ le dur maxDuration = true.
Proof.
  rewrite resolveDuration_eq. cbv zeta.
  destruct (isFinite (Number _)) eqn:F.
  - intros [= <-]. apply clamp_duration. now apply isFinite_notNaN.
  - destruct (hasMusic req).
    + destruct (probeDurationSec probe) as [[sec|r]|] eqn:P;
        try discriminate; intros [= <-].
      * apply clamp_duration, Math_round_notNaN, isFinite_notNaN.
        now apply (probe_resolved_finite probe).
      * vm_compute. repeat split; reflexivity.
    + intros [= <-]. vm_compute. repeat split; reflexivity.
Qed.


(** ** The render session *)

Lemma run_snoc (req : request) (evs : list event) (ev : event) :
  run req (evs ++ [ev]) = step req (run req evs) ev.
Proof. unfold run. now rewrite fold_left_app. Qed.

Lemma cleanup_tempFile (req : request) :
  cleanup req = match tempFile req with Some p => [Rm p] | None => [] end.
Proof.
  unfold cleanup, tempFile. destruct (file req) as [f|]; [|reflexivity].
  destruct (path f); reflexivity.
Qed.

Lemma count_app {A : Type} (f : A -> bool) (l k : list A) :
  count f (l ++ k) = (count f l + count f k)%nat.
Proof. unfold count. now rewrite List.filter_app, length_app. Qed.

Lemma count_cleanup_rm (req : request) :
  count is_rm (cleanup req) = if hasTempFile req then 1%nat else 0%nat.
Proof.
  rewrite cleanup_tempFile. unfold hasTempFile.
  destruct (tempFile req); reflexivity.
Qed.

Lemma count_cleanup_kill (req : request) : count is_kill (cleanup req) = 0%nat.
Proof. rewrite cleanup_tempFile. destruct (tempFile req); reflexivity. Qed.

Lemma respond500_effects (st : session) (error details : string) :
  effects (respond500 st error details) =
  effects st ++ (if headersSent st then [] else [Respond500 error details]).
Proof.
  unfold respond500. destruct (headersSent st); simpl; [|reflexivity].
  now rewrite app_nil_r.
Qed.

(** What one event adds to the effects. *)
Lemma step_effects (req : request) (st : session) (ev : event) :
  effects (step req st ev) =
  effects st ++
  match ev with
  | ResClose | ResError => Kill :: cleanup req
  | FfStdoutData chunk => [Write chunk]
  | FfStdoutEnd => [EndResponse]
  | FfStderrData _ => []
  | FfClose code =>
      cleanup req ++
      if exited_zero code || headersSent st then []
      else [Respond500 "Render failed" (stderr st)]
  | FfError err =>
      cleanup req ++
      if headersSent st then [] else [Respond500 "FFmpeg spawn failed" err]
  end.
Proof.
  destruct ev as [| |chunk| |d|code|err]; simpl; try reflexivity.
  - now rewrite app_nil_r.
  - destruct (exited_zero code); simpl.
    + now rewrite app_nil_r.
    + rewrite respond500_effects. simpl. now rewrite app_assoc.
  - rewrite respond500_effects. simpl. now rewrite app_assoc.
Qed.

Lemma count_step_rm (req : request) (st : session) (ev : event) :
  deletions (step req st ev) =
  (deletions st +
   if is_termination ev then if hasTempFile req then 1 else 0 else 0)%nat.
Proof.
  unfold deletions. fold (count is_rm (effects (step req st ev))).
  fold (count is_rm (effects st)).
  rewrite step_effects, count_app. f_equal.
  destruct ev as [| |chunk| |d|code|err]; simpl; try reflexivity;
    try (change (count is_rm (Kill :: cleanup req))
           with (count is_rm (cleanup req)); apply count_cleanup_rm).
  - rewrite count_app, count_cleanup_rm.
    destruct (_ || _), (hasTempFile req); reflexivity.
  - rewrite count_app, count_cleanup_rm.
    destruct (headersSent st), (hasTempFile req); reflexivity.
Qed.

Lemma count_step_kill (req : request) (st : session) (ev : event) :
  kills (step req st ev) = (kills st + if is_abort ev then 1 else 0)%nat.
Proof.
  unfold kills. fold (count is_kill (effects (step req st ev))).
  fold (count is_kill (effects st)).
  rewrite step_effects, count_app. f_equal.
  destruct ev as [| |chunk| |d|code|err]; simpl; try reflexivity;
    try (change (count is_kill (Kill :: cleanup req))
           with (S (count is_kill (cleanup req)));
         now rewrite count_cleanup_kill).
  - rewrite count_app, count_cleanup_kill.
    destruct (_ || _); reflexivity.
  - rewrite count_app, count_cleanup_kill.
    destruct (headersSent st); reflexivity.
Qed.

Lemma count_snoc {A : Type} (f : A -> bool) (l : list A) (x : A) :
  count f (l ++ [x]) = (count f l + if f x then 1 else 0)%nat.
Proof. rewrite count_app. unfold count. simpl. destruct (f x); reflexivity. Qed.

Lemma count_existsb {A : Type} (f : A -> bool) (l : list A) :
  existsb f l = true -> (1 <= count f l)%nat.
Proof.
  unfold count. induction l as [|x l IH]; simpl; [discriminate|].
  destruct (f x); simpl; [lia | exact IH].
Qed.

(** C7, as the specification states it, fails: with an uploaded file, a
    client abort followed by the exit of the killed process deletes the
    temp file twice, and a response error followed by the response close
    kills the process twice. *)
Lemma cleanup_runs_once_per_signal_not_once :
  let req := {| body := ∅; file := Some {| path := "uploads/3f9a" |} |} in
  let st := run req [ResError; ResClose; FfClose None] in
  deletions st = 3%nat /\ kills st = 2%nat /\
  deletions (run req [ResClose; FfClose None]) = 2%nat /\
  ~ (deletions st = 1%nat /\ kills st = 1%nat).
Proof. vm_compute. repeat split; try reflexivity. intros [H _]. discriminate. Qed.

(** C7 (amended): there is no run-once guard.  Every termination signal
    (response close, response error, process close, process error) makes
    one more deletion attempt when a temp file exists, and every response
    close or error makes one more termination attempt; so after a client
    abort there is at least one of each, and only the upload's own path is
    ever deleted. *)
Theorem cleanup_once_per_signal (req : request) (evs : list event) :
  let st := run req evs in
  deletions st =
    (if hasTempFile req then count is_termination evs else 0%nat) /\
  kills st = count is_abort evs /\
  (forall p, In (Rm p) (effects st) -> tempFile req = Some p) /\
  (existsb is_abort evs = true ->
     (1 <= kills st)%nat /\
     (hasTempFile req = true -> (1 <= deletions st)%nat)).
Proof.
  intros st. subst st.
  assert (D : deletions (run req evs) =
              (if hasTempFile req then count is_termination evs else 0%nat) /\
              kills (run req evs) = count is_abort evs /\
              (forall p, In (Rm p) (effects (run req evs)) ->
                         tempFile req = Some p)).
  { induction evs as [|ev evs IH] using rev_ind.
    - repeat split; try (destruct (hasTempFile req); reflexivity).
      intros p [].
    - destruct IH as (IH1 & IH2 & IH3).
      rewrite run_snoc, count_step_rm, count_step_kill, IH1, IH2,
        !count_snoc.
      split; [destruct (hasTempFile req), (is_termination ev); lia|].
      split; [reflexivity|].
      intros p. rewrite step_effects, in_app_iff.
      intros [H|H]; [now apply IH3|].
      rewrite cleanup_tempFile in H.
      destruct (tempFile req) as [q|];
        destruct ev as [| |chunk| |d|code|err]; simpl in H;
        repeat match type of H with
               | context [if ?c then _ else _] => destruct c; simpl in H
               end;
        intuition (try discriminate; try congruence). }
  destruct D as (D1 & D2 & D3).
  split; [exact D1|]. split; [exact D2|]. split; [exact D3|].
  intros A. pose proof (count_existsb _ _ A) as K.
  split; [lia|]. intros T. rewrite D1, T.
  assert (count is_abort evs <= count is_termination evs)%nat; [|lia].
  clear. unfold count. induction evs as [|[] evs IH]; simpl; lia.
Qed.





Example render_failure_examples :
  let req := {| body := ∅; file := Some {| path := "uploads/3f9a" |} |} in
  effects (run req [FfStderrData "No such filter"; FfClose (Some 1)])
    = [Rm "uploads/3f9a"; Respond500 "Render failed" "No such filter"] /\
  effects (run req [FfStdoutData "RIFF"; FfStderrData "x"; FfClose (Some 1)])
    = [Write "RIFF"; Rm "uploads/3f9a"] /\
  effects (run req [FfError "Error: spawn ffmpeg ENOENT"; FfClose (Some (-2))])
    = [Rm "uploads/3f9a";
       Respond500 "FFmpeg spawn failed" "Error: spawn ffmpeg ENOENT";
       Rm "uploads/3f9a"].
Proof. vm_compute. repeat split; reflexivity. Qed.


(** ** The filter graph *)

Lemma chains_from_nonempty (acc s : string) : chains_from acc s <> [].
Proof.
  revert acc. induction s as [|c s IH]; intros acc; simpl; [discriminate|].
  destruct (Ascii.eqb c ";"); [discriminate | apply IH].
Qed.

Lemma chains_from_app (a b acc : string) :
  chains_from acc (a +:+ String ";" b) =
  removelast (chains_from acc a) ++
  [List.last (chains_from acc a) ""] ++ chains b.
Proof.
  revert acc. induction a as [|c a IH]; intros acc.
  - reflexivity.
  - rewrite append_cons. simpl chains_from at 1 2 3.
    destruct (Ascii.eqb c ";"); [|apply IH].
    rewrite IH.
    pose proof (chains_from_nonempty "" a) as N.
    destruct (chains_from "" a) as [|x l]; [congruence | reflexivity].
Qed.

(** The chains of [a;b] are those of [a] followed by those of [b]. *)
Lemma chains_app (a b : string) :
  chains (a +:+ String ";" b) = chains a ++ chains b.
Proof.
  unfold chains at 1 2. rewrite chains_from_app, app_assoc.
  f_equal. symmetry. apply app_removelast_last, chains_from_nonempty.
Qed.

Example filterComplex_example :
  chains (filterComplex true (parseInputs ∅) (lit 1800)) =
  [ "[0:a]aresample=48000:ocl=stereo,asetpts=N/SR/TB,atrim=0:1800,volume=0.35[m]";
    "[1:a]asetpts=N/SR/TB,afade=t=in:st=0:d=3,afade=t=out:st=1797:d=3[t]";
    "[m][t]amix=inputs=2:normalize=0:dropout_transition=0[mix]";
    "[mix]alimiter=limit=0.95[out]" ].
Proof. vm_compute. reflexivity. Qed.

(** C6: whatever the inputs, the last chain of the filter graph is the
    limiter at 0.95 writing [[out]]: fed by the tone stream without music,
    and with music by the mix, which is the chain before it and sums [[m]]
    and [[t]] as two inputs with [normalize=0]. *)
Theorem filterComplex_ends_with_limiter (i : inputs) (dur : number) :
  (exists before,
      chains (filterComplex false i dur) = before ++ [limiterChain "t"] /\
      filterComplex false i dur =
        "[0:a]" +:+ toneFilters i dur +:+ "[t];" +:+ limiterChain "t") /\
  (exists before,
      chains (filterComplex true i dur) =
        before ++ [mixChain; limiterChain "mix"] /\
      filterComplex true i dur =
        "[0:a]" +:+ musicFilters i dur +:+ "[m];" +:+
        "[1:a]" +:+ toneFilters i dur +:+ "[t];" +:+
        mixChain +:+ ";" +:+ limiterChain "mix").
Proof.
  split.
  - exists (chains ("[0:a]" +:+ toneFilters i dur +:+ "[t]")).
    assert (E : filterComplex false i dur =
                ("[0:a]" +:+ toneFilters i dur +:+ "[t]") +:+
                String ";" (limiterChain "t")).
    { unfold filterComplex. now rewrite !append_assoc. }
    split; [now rewrite E, chains_app|].
    rewrite E. now rewrite !append_assoc.
  - exists (chains ("[0:a]" +:+ musicFilters i dur +:+ "[m]") ++
            chains ("[1:a]" +:+ toneFilters i dur +:+ "[t]")).
    assert (E : filterComplex true i dur =
                ("[0:a]" +:+ musicFilters i dur +:+ "[m]") +:+
                String ";" (("[1:a]" +:+ toneFilters i dur +:+ "[t]") +:+
                String ";" (mixChain +:+ String ";" (limiterChain "mix")))).
    { unfold filterComplex. now rewrite !append_assoc. }
    split; [rewrite E, !chains_app, app_assoc; reflexivity|].
    rewrite E. now rewrite !append_assoc.
Qed.

(** ** Determinism of the render plan *)

Lemma resolveDuration_ext (req1 req2 : request) (p1 p2 : list child_event) :
  rawDuration (body req1) = rawDuration (body req2) ->
  file req1 = file req2 ->
  probeDurationSec p1 = probeDurationSec p2 ->
  resolveDuration req1 p1 = resolveDuration req2 p2.
Proof.
  intros Hd Hf Hp. unfold resolveDuration, probeInvoked, hasMusic.
  now rewrite Hd, Hf, Hp.
Qed.

Lemma metadata_headers (b : gmap string string) (i : inputs) (dur : number)
    (uuid : string) :
  metadata (headers b i dur uuid) =
  [ ("X-Beat-Start-Hz", toString (beatStart i));
    ("X-Beat-End-Hz", toString (beatEnd i));
    ("X-Carrier-Hz", toString (carrier i));
    ("X-Duration-Sec", toString dur);
    ("X-Sample-Rate", toString sr);
    ("X-Bit-Depth", "24");
    ("X-Session-Label", bandLabel (avgBeat i)) ].
Proof. reflexivity. Qed.

(** C10: two requests with the same resolved fields, the same uploaded
    file and the same probe outcome get the same tone generator, filter
    graph, argument list and metadata headers; with the same sanitised
    hint their file names differ at most in the identifier before
    [.wav]. *)
Theorem plan_deterministic
    (req1 req2 : request) (probe1 probe2 : list child_event)
    (uuid1 uuid2 : string) (plan1 plan2 : plan)
    (Hfields : parseInputs (body req1) = parseInputs (body req2))
    (Hduration : rawDuration (body req1) = rawDuration (body req2))
    (Hfile : file req1 = file req2)
    (Hprobe : probeDurationSec probe1 = probeDurationSec probe2)
    (Hplan1 : prepare req1 probe1 uuid1 = Some plan1)
    (Hplan2 : prepare req2 probe2 uuid2 = Some plan2) :
  exists (i : inputs) (dur : number),
    resolveDuration req1 probe1 = Some dur /\
    resolveDuration req2 probe2 = Some dur /\
    parseInputs (body req1) = i /\ parseInputs (body req2) = i /\
    plan_args plan1 = plan_args plan2 /\
    plan_args plan1 = ffmpegArgs req1 i dur /\
    In (toneGen i dur) (plan_args plan1) /\
    In (filterComplex (hasMusic req1) i dur) (plan_args plan1) /\
    metadata (plan_headers plan1) = metadata (plan_headers plan2) /\
    (hint (body req1 !! "filenameHint") (bandLabel (avgBeat i)) =
     hint (body req2 !! "filenameHint") (bandLabel (avgBeat i)) ->
     exists stem,
       In ("Content-Disposition",
           "attachment; filename=" +:+ quote +:+
           (stem +:+ uuid1 +:+ ".wav") +:+ quote) (plan_headers plan1) /\
       In ("Content-Disposition",
           "attachment; filename=" +:+ quote +:+
           (stem +:+ uuid2 +:+ ".wav") +:+ quote) (plan_headers plan2)).
Proof.
  pose proof (resolveDuration_ext _ _ _ _ Hduration Hfile Hprobe) as Hd.
  unfold prepare in Hplan1, Hplan2. rewrite <- Hd, <- Hfields in Hplan2.
  destruct (resolveDuration req1 probe1) as [dur|]; [|discriminate].
  injection Hplan1 as <-. injection Hplan2 as <-.
  exists (parseInputs (body req1)), dur. cbn [plan_args plan_headers].
  split; [reflexivity|]. split; [now rewrite <- Hd|].
  split; [reflexivity|]. split; [now rewrite Hfields|].
  assert (Ha : ffmpegArgs req1 (parseInputs (body req1)) dur =
               ffmpegArgs req2 (parseInputs (body req1)) dur).
  { unfold ffmpegArgs, hasMusic. now rewrite Hfile. }
  split; [exact Ha|]. split; [reflexivity|].
  split; [|split; [|split]].
  - unfold ffmpegArgs. rewrite !in_app_iff. right. right. left.
    right. right. right. left. reflexivity.
  - unfold ffmpegArgs. rewrite !in_app_iff. right. right. right. left.
    right. left. reflexivity.
  - now rewrite !metadata_headers.
  - intros Hh.
    exists (hint (body req1 !! "filenameHint")
                 (bandLabel (avgBeat (parseInputs (body req1)))) +:+ "_" +:+
            replaceChar "." "p"
              (prettyBeat (beatStart (parseInputs (body req1)))
                          (beatEnd (parseInputs (body req1)))) +:+ "_" +:+
            toString (Math_round (div dur (lit 60))) +:+ "min_").
    split; right; left; unfold filename; rewrite <- ?Hh, !append_assoc;
      reflexivity.
Qed.

Lemma plan_deterministic_witness :
  let req1 := {| body := {[ "carrier" := "420"; "beatStart" := "8";
                            "filenameHint" := "deep focus" ]};
                 file := Some {| path := "uploads/3f9a" |} |} in
  let req2 := {| body := {[ "carrier" := " 420.0"; "beatStart" := "0x8";
                            "filenameHint" := "deep.focus!" ]};
                 file := Some {| path := "uploads/3f9a" |} |} in
  let probe1 := [Stdout "45.2"; Close (Some 0)] in
  let probe2 := [Stdout " 45."; Stdout "20"; Stderr "warn"; Close (Some 0)] in
  let i := parseInputs (body req1) in
  let plan1 := {| plan_headers := headers (body req1) i (lit 60) "1b9d6bcd";
                  plan_args := ffmpegArgs req1 i (lit 60) |} in
  let plan2 := {| plan_headers := headers (body req2) i (lit 60) "7c9e6679";
                  plan_args := ffmpegArgs req2 i (lit 60) |} in
  prepare req1 probe1 "1b9d6bcd" = Some plan1 /\
  prepare req2 probe2 "7c9e6679" = Some plan2 /\
  plan_args plan1 = plan_args plan2 /\
  metadata (plan_headers plan1) = metadata (plan_headers plan2).
Proof.
  intros req1 req2 probe1 probe2 i plan1 plan2.
  assert (H1 : parseInputs (body req1) = parseInputs (body req2))
    by (vm_compute; reflexivity).
  assert (H2 : rawDuration (body req1) = rawDuration (body req2))
    by (vm_compute; reflexivity).
  assert (H3 : file req1 = file req2) by reflexivity.
  assert (H4 : probeDurationSec probe1 = probeDurationSec probe2)
    by (vm_compute; reflexivity).
  assert (E1 : prepare req1 probe1 "1b9d6bcd" = Some plan1)
    by (vm_compute; reflexivity).
  assert (E2 : prepare req2 probe2 "7c9e6679" = Some plan2)
    by (vm_compute; reflexivity).
  destruct (plan_deterministic req1 req2 probe1 probe2
              "1b9d6bcd" "7c9e6679" plan1 plan2 H1 H2 H3 H4 E1 E2)
    as (i' & dur & _ & _ & _ & _ & A & _ & _ & _ & M & _).
  split; [exact E1|]. split; [exact E2|]. split; [exact A | exact M].
Defined.

(** ** The tone generator *)

Lemma Math_max_not_neg_zero (v lo : number) :
  isNaN v = false -> le pos_zero lo = true -> is_neg_zero lo = false ->
  is_neg_zero (Math_max v lo) = false.
Proof.
  intros Hv Hlo Nlo. destruct (le_notNaN _ _ Hlo) as [_ Hl].
  apply le_iff in Hlo; try assumption; try reflexivity.
  destruct (Math_max_cases v lo Hv Hl) as [[E M]|[E M]]; rewrite E;
    [assumption|].
  destruct v as [[]| | |]; try reflexivity.
  destruct M as [M|[_ M]]; [|discriminate].
  exfalso. destruct lo as [[]|[]| |[]]; try discriminate; lex.
Qed.

Lemma num_not_neg_zero (value : option string) (def lo hi : number) :
  le pos_zero lo = true -> is_neg_zero lo = false ->
  is_neg_zero hi = false -> isNaN hi = false -> is_neg_zero def = false ->
  is_neg_zero (num value def lo hi) = false.
Proof.
  intros Hlo Nlo Nhi Hhi Ndef. rewrite num_clamp.
  destruct (isFinite (Number value)) eqn:F; [|assumption].
  pose proof (isFinite_notNaN _ F) as Hv.
  pose proof (Math_max_not_neg_zero _ _ Hv Hlo Nlo) as Nm.
  unfold clamp.
  assert (Hm : isNaN (Math_max (Number value) lo) = false).
  { destruct (le_notNaN _ _ Hlo) as [_ Hl].
    destruct (Math_max_cases _ _ Hv Hl) as [[E _]|[E _]]; now rewrite E. }
  destruct (Math_min_cases _ _ Hm Hhi) as [[E _]|[E _]]; now rewrite E.
Qed.

Lemma sub_diag (x : number) :
  isFinite x = true -> is_neg_zero x = false -> sub x x = pos_zero.
Proof.
  destruct x as [[]| | |s m e]; try discriminate; intros _ _;
    [reflexivity|].
  unfold sub, SFsub. now rewrite Z.sub_diag.
Qed.

Lemma eq_same (x y : number) :
  isFinite x = true -> isFinite y = true ->
  is_neg_zero x = false -> is_neg_zero y = false ->
  eq x y = true -> x = y.
Proof.
  intros Fx Fy Nx Ny H.
  apply eq_iff in H; try now apply isFinite_notNaN.
  destruct x as [[]| | |[] mx ex], y as [[]| | |[] my ey];
    try discriminate; try reflexivity; try (exfalso; lex);
    f_equal; lex.
Qed.

Lemma duration_is_positive (dur : number) :
  isFinite dur = true -> le minDuration dur = true ->
  exists m e, dur = S754_finite false m e.
Proof.
  intros F H. apply le_iff in H; try reflexivity;
    try now apply isFinite_notNaN.
  change minDuration with (S754_finite false 8444249301319680 (-47)) in H.
  destruct dur as [s| | |[] m e]; try discriminate; eauto; exfalso; lex.
Qed.

Lemma in_range_finite (r lo hi : number) :
  le lo r = true -> le r hi = true ->
  isFinite lo = true -> isFinite hi = true -> isFinite r = true.
Proof.
  intros L U Fl Fh.
  destruct (le_notNaN _ _ L) as [Hlo Hr].
  destruct (le_notNaN _ _ U) as [_ Hhi].
  apply le_iff in L; try assumption. apply le_iff in U; try assumption.
  destruct r as [|[]| |]; try reflexivity; try discriminate;
    destruct lo as [|[]| |[]], hi as [|[]| |[]]; try discriminate;
    exfalso; lex.
Qed.

Lemma inputs_finite (b : gmap string string) (f : field) :
  isFinite (resolved f (parseInputs b)) = true /\
  is_neg_zero (resolved f (parseInputs b)) = false.
Proof.
  split.
  - destruct (resolved_in_range b f) as (L & U).
    apply (in_range_finite _ _ _ L U); destruct f; reflexivity.
  - destruct f; apply num_not_neg_zero; reflexivity.
Qed.

Example tone_expressions_example :
  let i := parseInputs {[ "beatStart" := "14"; "beatEnd" := "18" ]} in
  let k := slope (beatStart i) (beatEnd i) (lit 1800) in
  leftExpr (toneGain i) (carrier i) = "0.25*sin(2*PI*420*t)" /\
  rightExpr (toneGain i) (carrier i) (beatStart i) k =
    "0.25*sin(2*PI*((420+14)*t + 0.5*0.0022222222222222222*t*t))".
Proof. vm_compute. split; reflexivity. Qed.

(** C4: the two channel expressions are the tone gain times the sine of
    the phases [2π·fc·t] and [2π·((fc + bs)·t + 0.5·k·t²)], where [k] is the
    computed slope [(be - bs) / dur]; and when [beatStart === beatEnd] the
    slope is exactly [+0], printed [0], so that the right phase is
    [2π·(fc + bs)·t]. *)
Theorem tone_expressions_encode_ramp
    (req : request) (probe : list child_event) (dur : number)
    (Hdur : resolveDuration req probe = Some dur) :
  let i := parseInputs (body req) in
  let g := toneGain i in
  let fc := carrier i in
  let bs := beatStart i in
  let be := beatEnd i in
  let k := slope bs be dur in
  k = div (sub be bs) dur /\
  leftExpr g fc = print (channel g (leftPhase fc)) /\
  rightExpr g fc bs k = print (channel g (rightPhase fc bs k)) /\
  toneGen i dur =
    "aevalsrc=exprs=" +:+ leftExpr g fc +:+ "\|" +:+ rightExpr g fc bs k +:+
    ":s=48000:d=" +:+ toString dur /\
  (forall t : R,
      eval t (channel g (leftPhase fc)) =
        (B2R g * sin (2 * PI * B2R fc * t))%R /\
      eval t (channel g (rightPhase fc bs k)) =
        (B2R g * sin (2 * PI * ((B2R fc + B2R bs) * t
                                + / 2 * B2R k * (t * t))))%R) /\
  (eq bs be = true ->
     k = pos_zero /\
     rightExpr g fc bs k =
       toString g +:+ "*sin(2*PI*((" +:+ toString fc +:+ "+" +:+
       toString bs +:+ ")*t + 0.5*0*t*t))" /\
     forall t : R,
       eval t (channel g (rightPhase fc bs k)) =
         (B2R g * sin (2 * PI * (B2R fc + B2R bs) * t))%R).
Proof.
  intros i g fc bs be k.
  split; [reflexivity|].
  split; [unfold leftExpr; cbn [print channel leftPhase];
          now rewrite !append_assoc|].
  split; [unfold rightExpr; cbn [print channel rightPhase];
          now rewrite !append_assoc|].
  split.
  { assert (S : toString sr = "48000") by (vm_compute; reflexivity).
    unfold toneGen. rewrite S. reflexivity. }
  split.
  - intros t. cbn [eval channel leftPhase rightPhase]. split; f_equal.
    f_equal. ring.
  - intros E.
    destruct (inputs_finite (body req) BeatStart) as [Fs Ns].
    destruct (inputs_finite (body req) BeatEnd) as [Fe Ne].
    cbn [resolved] in Fs, Ns, Fe, Ne. fold i bs be in Fs, Ns, Fe, Ne.
    pose proof (eq_same bs be Fs Fe Ns Ne E) as Heq.
    destruct (resolveDuration_range req probe dur Hdur) as (Fd & Ld & _).
    destruct (duration_is_positive dur Fd Ld) as (m & e & Hd).
    assert (Hk : k = pos_zero).
    { subst k. unfold slope. rewrite <- Heq, sub_diag by assumption.
      rewrite Hd. reflexivity. }
    split; [exact Hk|]. rewrite Hk.
    split; [reflexivity|].
    intros t. cbn [eval channel rightPhase B2R pos_zero]. f_equal. f_equal.
    unfold pos_zero. cbn [B2R]. ring.
Qed.

Lemma tone_expressions_witness :
  let req := {| body := {[ "beatStart" := "8"; "beatEnd" := "8.0";
                           "durationSec" := "600" ]};
                file := None |} in
  let i := parseInputs (body req) in
  resolveDuration req [] = Some (lit 600) /\
  eq (beatStart i) (beatEnd i) = true /\
  slope (beatStart i) (beatEnd i) (lit 600) = pos_zero.
Proof.
  intros req i.
  assert (H : resolveDuration req [] = Some (lit 600))
    by (vm_compute; reflexivity).
  assert (E : eq (beatStart i) (beatEnd i) = true)
    by (vm_compute; reflexivity).
  destruct (tone_expressions_encode_ramp req [] (lit 600) H)
    as (_ & _ & _ & _ & _ & Z).
  destruct (Z E) as (K & _).
  exact (conj H (conj E K)).
Defined.

(** ** Decimal digits *)

Lemma Z_digits_acc (fuel : nat) (z : Z) (acc : string) :
  Z_digits fuel z acc = Z_digits fuel z "" +:+ acc.
Proof.
  revert z acc. induction fuel as [|f IH]; intros z acc; [reflexivity|].
  simpl. destruct (z / 10 =? 0); [reflexivity|].
  rewrite (IH _ (String _ acc)), (IH _ (String _ "")).
  now rewrite append_assoc.
Qed.

Lemma Z_digits_S (f : nat) (z : Z) (acc : string) :
  Z_digits (S f) z acc =
  if z / 10 =? 0 then String (digit_char z) acc
  else Z_digits f (z / 10) (String (digit_char z) acc).
Proof. reflexivity. Qed.

(** One unit of fuel per binary digit is enough. *)
Lemma Z_digits_enough (f1 f2 : nat) (z : Z) (acc : string) :
  0 <= z < 2 ^ Z.of_nat (S f1) -> 0 <= z < 2 ^ Z.of_nat (S f2) ->
  Z_digits (S f1) z acc = Z_digits (S f2) z acc.
Proof.
  revert f2 z acc. induction f1 as [|f1 IH]; intros f2 z acc H1 H2.
  - change (2 ^ Z.of_nat 1) with 2 in H1.
    assert (E : z / 10 = 0) by (apply Z.div_small; lia).
    now rewrite !Z_digits_S, E.
  - rewrite (Z_digits_S (S f1)). destruct (z / 10 =? 0) eqn:E.
    + now rewrite Z_digits_S, E.
    + apply Z.eqb_neq in E.
      assert (T : 10 <= z).
      { destruct (Z.lt_ge_cases z 10) as [L|L]; [|assumption].
        exfalso. apply E. apply Z.div_small. lia. }
      destruct f2 as [|f2].
      { change (2 ^ Z.of_nat 1) with 2 in H2. lia. }
      rewrite (Z_digits_S (S f2)). apply Z.eqb_neq in E. rewrite E.
      assert (B : forall f : nat, 0 <= z < 2 ^ Z.of_nat (S (S f)) ->
                                  0 <= z / 10 < 2 ^ Z.of_nat (S f)).
      { intros f [B0 B1]. split; [apply Z.div_pos; lia|].
        apply Z.div_lt_upper_bound; [lia|].
        rewrite (Nat2Z.inj_succ (S f)), Z.pow_succ_r in B1 by lia. lia. }
      apply IH; apply B; assumption.
Qed.

Lemma Z_to_dec_small (z : Z) :
  0 <= z < 10 -> Z_to_dec z = String (digit_char z) "".
Proof.
  intros H. unfold Z_to_dec.
  now rewrite Z_digits_S, (Z.div_small z 10) by lia.
Qed.

Lemma Z_to_dec_step (z : Z) :
  10 <= z -> Z_to_dec z = Z_to_dec (z / 10) +:+ String (digit_char z) "".
Proof.
  intros H. unfold Z_to_dec.
  assert (L3 : 3 <= Z.log2 z) by (apply (Z.log2_le_mono 8 z); lia).
  pose proof (Z.log2_spec z ltac:(lia)) as [_ S1].
  assert (Q : 0 < z / 10) by (apply Z.div_str_pos; lia).
  pose proof (Z.log2_spec (z / 10) Q) as [_ S2].
  pose proof (Z.log2_nonneg (z / 10)) as N2.
  destruct (Z.to_nat (Z.log2 z)) as [|f] eqn:E; [lia|].
  rewrite Z_digits_S.
  destruct (z / 10 =? 0) eqn:E0; [apply Z.eqb_eq in E0; lia|].
  rewrite Z_digits_acc.
  rewrite (Z_digits_enough f (Z.to_nat (Z.log2 (z / 10)))); [reflexivity| |].
  - split; [lia|]. apply Z.div_lt_upper_bound; [lia|].
    replace (Z.of_nat (S f)) with (Z.log2 z) by lia.
    replace (Z.succ (Z.log2 z)) with (Z.log2 z + 1) in S1 by lia.
    rewrite Z.pow_add_r in S1 by lia. change (2 ^ 1) with 2 in S1. lia.
  - split; [lia|].
    replace (Z.of_nat (S (Z.to_nat (Z.log2 (z / 10)))))
      with (Z.succ (Z.log2 (z / 10))) by lia.
    exact S2.
Qed.

(** ** Well-formed numbers and the rounding of operations *)

Lemma digits2_size (p : positive) : digits2_pos p = Pos.size p.
Proof. induction p as [p IH|p IH|]; simpl; now rewrite ?IH. Qed.

Lemma Zdigits2_log2 (m : Z) : 0 < m -> Zdigits2 m = Z.log2 m + 1.
Proof.
  destruct m as [|p|p]; try lia. intros _. simpl.
  rewrite digits2_size. destruct p as [p|p|]; simpl; lia.
Qed.

Lemma Zdigits2_bounds (m : Z) :
  0 < m -> 2 ^ (Zdigits2 m - 1) <= m < 2 ^ Zdigits2 m.
Proof.
  intros H. rewrite Zdigits2_log2 by assumption.
  replace (Z.log2 m + 1 - 1) with (Z.log2 m) by lia.
  replace (Z.log2 m + 1) with (Z.succ (Z.log2 m)) by lia.
  now apply Z.log2_spec.
Qed.

Lemma Zdigits2_unique (m k : Z) :
  2 ^ (k - 1) <= m < 2 ^ k -> 0 < m -> Zdigits2 m = k.
Proof.
  intros H Hm. rewrite Zdigits2_log2 by assumption.
  assert (0 < k).
  { destruct (Z.le_gt_cases k 0) as [K|K]; [|assumption].
    assert (2 ^ k <= 2 ^ 0) by (apply Z.pow_le_mono_r; lia).
    simpl in *. lia. }
  rewrite (Z.log2_unique m (k - 1)); try lia.
  replace (Z.succ (k - 1)) with k by lia. lia.
Qed.

Lemma Zdigits2_nonneg (m : Z) : 0 <= Zdigits2 m.
Proof. destruct m; simpl; lia. Qed.

Lemma Zdigits2_pos (m : Z) : 0 < m -> 0 < Zdigits2 m.
Proof. destruct m; simpl; lia. Qed.

Lemma Zdigits2_le (m k : Z) : 0 <= k -> 0 <= m < 2 ^ k -> Zdigits2 m <= k.
Proof.
  intros Hk [H0 H].
  destruct (Z.eq_dec m 0) as [->|N]; [simpl; lia|].
  destruct (Z.le_gt_cases (Zdigits2 m) k) as [L|L]; [assumption|].
  pose proof (Zdigits2_bounds m ltac:(lia)) as [B _].
  assert (2 ^ k <= 2 ^ (Zdigits2 m - 1)) by (apply Z.pow_le_mono_r; lia).
  lia.
Qed.

Lemma Zdigits2_ge (m k : Z) : 2 ^ (k - 1) <= m -> 0 < m -> k <= Zdigits2 m.
Proof.
  intros H Hm.
  destruct (Z.le_gt_cases k (Zdigits2 m)) as [L|L]; [assumption|].
  pose proof (Zdigits2_bounds m Hm) as [_ B].
  pose proof (Zdigits2_pos m Hm).
  assert (2 ^ Zdigits2 m <= 2 ^ (k - 1)) by (apply Z.pow_le_mono_r; lia).
  lia.
Qed.

(* shr *)
Lemma shr_1_m (mrs : shr_record) :
  0 <= shr_m mrs -> shr_m (shr_1 mrs) = shr_m mrs / 2.
Proof.
  destruct mrs as [m r s]. simpl. intros H.
  destruct m as [|[p|p|]|p]; try lia; cbn [shr_m]; try reflexivity.
  - apply Z.div_unique with (r := 1); lia.
  - apply Z.div_unique with (r := 0); lia.
Qed.

Lemma iter_shr_1_m (p : positive) (mrs : shr_record) :
  0 <= shr_m mrs ->
  shr_m (SpecFloat.iter_pos shr_1 p mrs) = shr_m mrs / 2 ^ Z.pos p /\
  0 <= shr_m (SpecFloat.iter_pos shr_1 p mrs).
Proof.
  revert mrs. induction p as [p IH|p IH|]; intros mrs H.
  - simpl SpecFloat.iter_pos.
    pose proof (shr_1_nonneg mrs H) as H1.
    destruct (IH (shr_1 mrs) H1) as [E1 N1].
    destruct (IH _ N1) as [E2 N2].
    split; [|assumption].
    rewrite E2, E1, shr_1_m by assumption.
    replace (Z.pos p~1) with (1 + Z.pos p + Z.pos p) by lia.
    rewrite !Z.pow_add_r by lia. change (2 ^ 1) with 2.
    rewrite !Z.div_div by lia. f_equal. ring.
  - simpl SpecFloat.iter_pos.
    destruct (IH mrs H) as [E1 N1].
    destruct (IH _ N1) as [E2 N2].
    split; [|assumption].
    rewrite E2, E1.
    replace (Z.pos p~0) with (Z.pos p + Z.pos p) by lia.
    rewrite !Z.pow_add_r by lia.
    now rewrite !Z.div_div by lia.
  - simpl. split; [|now apply shr_1_nonneg].
    rewrite shr_1_m by assumption. reflexivity.
Qed.

Lemma fexp_eq (x : Z) : fexp prec emax x = Z.max (x - 53) (-1074).
Proof. reflexivity. Qed.

(** The shift that aligns a mantissa with its exponent. *)
Lemma shr_fexp_spec (m e : Z) (l : location) :
  0 <= m ->
  let n := Z.max (fexp prec emax (Zdigits2 m + e) - e) 0 in
  let '(mrs, e') := shr_fexp prec emax m e l in
  shr_m mrs = m / 2 ^ n /\ e' = e + n.
Proof.
  intros H n. unfold shr_fexp, shr. subst n.
  assert (M : shr_m (shr_record_of_loc m l) = m) by (destruct l as [|[]]; reflexivity).
  destruct (fexp prec emax (Zdigits2 m + e) - e) as [|p|p] eqn:E.
  - simpl. rewrite M, Z.div_1_r. lia.
  - destruct (iter_shr_1_m p (shr_record_of_loc m l)) as [A _]; [now rewrite M|].
    rewrite A, M. rewrite Z.max_l by lia. split; reflexivity.
  - rewrite Z.max_r by lia. simpl. rewrite M, Z.div_1_r. lia.
Qed.

Lemma Zdigits2_shift (m n : Z) :
  0 < m -> 0 <= n -> 2 ^ n <= m -> Zdigits2 (m / 2 ^ n) = Zdigits2 m - n.
Proof.
  intros Hm Hn H.
  pose proof (Zdigits2_bounds m Hm) as [B1 B2].
  assert (P : 0 < 2 ^ n) by (apply Z.pow_pos_nonneg; lia).
  assert (Q : 0 < m / 2 ^ n) by (apply Z.div_str_pos; lia).
  assert (n < Zdigits2 m).
  { destruct (Z.lt_ge_cases n (Zdigits2 m)) as [L|L]; [assumption|].
    assert (2 ^ Zdigits2 m <= 2 ^ n) by (apply Z.pow_le_mono_r; lia). lia. }
  apply Zdigits2_unique; [|assumption].
  split.
  - apply Z.div_le_lower_bound; [assumption|].
    rewrite <- Z.pow_add_r by lia.
    replace (n + (Zdigits2 m - n - 1)) with (Zdigits2 m - 1) by lia. assumption.
  - apply Z.div_lt_upper_bound; [assumption|].
    rewrite <- Z.pow_add_r by lia.
    replace (n + (Zdigits2 m - n)) with (Zdigits2 m) by lia. assumption.
Qed.

Ltac fexp_lia := unfold fexp, emin, prec, emax in *; lia.

Lemma Zdigits2_succ (m : Z) :
  0 < m ->
  (m + 1 < 2 ^ Zdigits2 m /\ Zdigits2 (m + 1) = Zdigits2 m) \/
  (m + 1 = 2 ^ Zdigits2 m /\ Zdigits2 (m + 1) = Zdigits2 m + 1).
Proof.
  intros H. pose proof (Zdigits2_bounds m H) as [B1 B2].
  pose proof (Zdigits2_pos m H) as P.
  destruct (Z.eq_dec (m + 1) (2 ^ Zdigits2 m)) as [E|N].
  - right. split; [assumption|].
    apply Zdigits2_unique; [|lia].
    replace (Zdigits2 m + 1 - 1) with (Zdigits2 m) by lia.
    rewrite Z.pow_add_r by lia. change (2 ^ 1) with 2. lia.
  - left. split; [lia|]. apply Zdigits2_unique; lia.
Qed.

(** After the alignment shift the mantissa is canonical, or zero at the
    least exponent. *)
Lemma aligned (mx ex : Z) :
  0 <= mx -> ex <= fexp prec emax (Zdigits2 mx + ex) ->
  let e1 := fexp prec emax (Zdigits2 mx + ex) in
  let m1 := mx / 2 ^ (e1 - ex) in
  0 <= m1 /\
  ((m1 = 0 /\ e1 = emin prec emax) \/
   (0 < m1 /\ fexp prec emax (Zdigits2 m1 + e1) = e1)).
Proof.
  intros H0 Hex e1 m1.
  assert (P : 0 < 2 ^ (e1 - ex)) by (apply Z.pow_pos_nonneg; lia).
  assert (N : 0 <= m1) by (apply Z.div_pos; lia).
  split; [assumption|].
  destruct (Z.eq_dec m1 0) as [Z|NZ].
  - left. split; [assumption|].
    assert (mx < 2 ^ (e1 - ex)).
    { apply Z.div_small_iff in Z; lia. }
    pose proof (Zdigits2_le mx (e1 - ex) ltac:(lia) ltac:(lia)).
    subst e1. fexp_lia.
  - right. split; [lia|].
    assert (2 ^ (e1 - ex) <= mx).
    { destruct (Z.le_gt_cases (2 ^ (e1 - ex)) mx) as [L|L]; [assumption|].
      exfalso. apply NZ. apply Z.div_small. lia. }
    subst m1. rewrite Zdigits2_shift by lia.
    replace (Zdigits2 mx - (e1 - ex) + e1) with (Zdigits2 mx + ex) by lia.
    reflexivity.
Qed.

Lemma no_shift (m e : Z) :
  fexp prec emax (Zdigits2 m + e) = e ->
  m / 2 ^ Z.max (fexp prec emax (Zdigits2 m + e) - e) 0 = m /\
  e + Z.max (fexp prec emax (Zdigits2 m + e) - e) 0 = e.
Proof.
  intros ->. rewrite Z.sub_diag. simpl (Z.max 0 0).
  rewrite Z.pow_0_r, Z.div_1_r. lia.
Qed.

Lemma one_shift (m e : Z) :
  0 < m -> Zdigits2 m = 54 -> emin prec emax <= e ->
  Zdigits2 (m / 2 ^ Z.max (fexp prec emax (Zdigits2 m + e) - e) 0) = 53 /\
  e + Z.max (fexp prec emax (Zdigits2 m + e) - e) 0 = e + 1.
Proof.
  intros Hm D He. rewrite D.
  assert (X : fexp prec emax (54 + e) - e = 1) by fexp_lia.
  rewrite X. change (Z.max 1 0) with 1. split; [|reflexivity].
  rewrite Zdigits2_shift; try lia.
  pose proof (Zdigits2_bounds m Hm) as [B _]. rewrite D in B.
  change (2 ^ 1) with 2. change (2 ^ (54 - 1)) with 9007199254740992 in B.
  lia.
Qed.

(** *** Exactness *)

Lemma iter_pos_nat (A : Type) (f : A -> A) (p : positive) (x : A) :
  SpecFloat.iter_pos f p x = Nat.iter (Pos.to_nat p) f x.
Proof.
  revert x. induction p as [p IH|p IH|]; intros x; simpl SpecFloat.iter_pos.
  - rewrite !IH, Pos2Nat.inj_xI.
    replace (S (2 * Pos.to_nat p)) with (Pos.to_nat p + S (Pos.to_nat p))%nat
      by lia.
    rewrite Nat.iter_add. f_equal. now rewrite Nat.iter_succ_r.
  - rewrite !IH, Pos2Nat.inj_xO.
    replace (2 * Pos.to_nat p)%nat with (Pos.to_nat p + Pos.to_nat p)%nat
      by lia.
    now rewrite Nat.iter_add.
  - reflexivity.
Qed.

Lemma shr_1_exact (mrs : shr_record) :
  0 <= shr_m mrs -> loc_of_shr_record mrs = loc_Exact ->
  shr_m mrs mod 2 = 0 -> loc_of_shr_record (shr_1 mrs) = loc_Exact.
Proof.
  destruct mrs as [m [] []]; try discriminate. simpl. intros H _ E.
  destruct m as [|[p|p|]|p]; try reflexivity; try lia; exfalso.
  - rewrite Pos2Z.inj_xI in E.
    rewrite Z.add_comm, Z.mul_comm, Z_mod_plus_full in E. discriminate.
  - discriminate.
Qed.

Lemma iter_shr_1_exact (k : nat) (mrs : shr_record) :
  0 <= shr_m mrs -> loc_of_shr_record mrs = loc_Exact ->
  shr_m mrs mod 2 ^ Z.of_nat k = 0 ->
  loc_of_shr_record (Nat.iter k shr_1 mrs) = loc_Exact /\
  shr_m (Nat.iter k shr_1 mrs) = shr_m mrs / 2 ^ Z.of_nat k /\
  0 <= shr_m (Nat.iter k shr_1 mrs).
Proof.
  induction k as [|k IH]; intros H L E.
  - simpl. rewrite Z.div_1_r. auto.
  - rewrite Nat2Z.inj_succ, Z.pow_succ_r in * by lia.
    assert (P : 0 < 2 ^ Z.of_nat k) by (apply Z.pow_pos_nonneg; lia).
    apply Z.mod_divide in E; [|lia]. destruct E as [c E].
    assert (E' : shr_m mrs mod 2 ^ Z.of_nat k = 0).
    { apply Z.mod_divide; [lia|]. exists (c * 2). lia. }
    destruct (IH H L E') as (L1 & M1 & N1).
    simpl Nat.iter.
    assert (Ev : shr_m (Nat.iter k shr_1 mrs) mod 2 = 0).
    { rewrite M1, E.
      replace (c * (2 * 2 ^ Z.of_nat k)) with (c * 2 * 2 ^ Z.of_nat k) by ring.
      rewrite Z.div_mul by lia. now rewrite Z.mod_mul by lia. }
    split; [now apply shr_1_exact|].
    split; [|now apply shr_1_nonneg].
    rewrite shr_1_m, M1 by assumption.
    rewrite Z.div_div by lia. f_equal. ring.
Qed.

(** An exact mantissa with no bit shifted out stays exact. *)
Lemma shr_fexp_exact (m e : Z) :
  0 <= m ->
  m mod 2 ^ Z.max (fexp prec emax (Zdigits2 m + e) - e) 0 = 0 ->
  loc_of_shr_record (fst (shr_fexp prec emax m e loc_Exact)) = loc_Exact.
Proof.
  intros H E. unfold shr_fexp, shr.
  destruct (fexp prec emax (Zdigits2 m + e) - e) as [|p|p]; try reflexivity.
  simpl fst. rewrite iter_pos_nat.
  apply iter_shr_1_exact; try assumption; try reflexivity.
  rewrite positive_nat_Z. now rewrite Z.max_l in E by lia.
Qed.

(** What rounding returns: with [n] the alignment shift, the mantissa
    [mx / 2^n] or its successor (the latter only if something was lost), at
    the exponent [ex + n], renormalised. *)
Lemma binary_round_aux_spec (s : bool) (mx ex : Z) (lx : location) :
  0 <= mx -> ex <= fexp prec emax (Zdigits2 mx + ex) ->
  let n := fexp prec emax (Zdigits2 mx + ex) - ex in
  let m1 := mx / 2 ^ n in
  exists m2 mf ef,
    m1 <= m2 <= m1 + 1 /\
    (lx = loc_Exact -> mx mod 2 ^ n = 0 -> m2 = m1) /\
    (ef = ex + n \/ ef = ex + n + 1) /\
    mf * 2 ^ (ef - (ex + n)) = m2 /\ 0 <= mf /\
    (mf = 0 \/ fexp prec emax (Zdigits2 mf + ef) = ef) /\
    binary_round_aux prec emax s mx ex lx =
      match mf with
      | 0 => S754_zero s
      | Z.pos p =>
          if ef <=? emax - prec then S754_finite s p ef else S754_infinity s
      | Z.neg _ => S754_nan
      end.
Proof.
  intros H0 Hex n m1. unfold binary_round_aux.
  pose proof (shr_fexp_spec mx ex lx H0) as S1.
  pose proof (shr_fexp_exact mx ex H0) as X1.
  destruct (shr_fexp prec emax mx ex lx) as [mrs1 e1] eqn:Q1.
  destruct S1 as [M1 E1].
  rewrite Z.max_l in M1, E1, X1 by lia.
  pose proof (aligned mx ex H0 Hex) as A. cbv zeta in A.
  destruct A as [N1 C1].
  fold n in M1, E1, X1, N1, C1. fold m1 in M1, N1, C1.
  replace (fexp prec emax (Zdigits2 mx + ex)) with (ex + n) in C1
    by (subst n; lia).
  rewrite <- E1 in C1. rewrite <- E1.
  set (m2 := round_nearest_even (shr_m mrs1) (loc_of_shr_record mrs1)).
  assert (R : m2 = m1 \/ m2 = m1 + 1).
  { subst m2. rewrite M1.
    destruct (loc_of_shr_record mrs1) as [|[]]; simpl; auto.
    destruct (Z.even m1); auto. }
  assert (RX : lx = loc_Exact -> mx mod 2 ^ n = 0 -> m2 = m1).
  { intros -> Z. subst m2. rewrite Q1 in X1. simpl in X1.
    now rewrite (X1 Z), M1. }
  assert (N2 : 0 <= m2) by lia.
  pose proof (shr_fexp_spec m2 e1 loc_Exact N2) as S2.
  destruct (shr_fexp prec emax m2 e1 loc_Exact) as [mrs2 e2].
  destruct S2 as [M2 E2].
  exists m2, (shr_m mrs2), e2.
  split; [lia|]. split; [exact RX|].
  assert (F : (e2 = e1 \/ e2 = e1 + 1) /\
              shr_m mrs2 * 2 ^ (e2 - e1) = m2 /\
              (shr_m mrs2 = 0 \/
               fexp prec emax (Zdigits2 (shr_m mrs2) + e2) = e2)).
  { rewrite M2, E2. clear M2 E2 RX M1 Q1 X1.
    generalize dependent m2. intros m2 R N2.
    destruct C1 as [[Z1 Em]|[P1 K1]].
    - destruct R as [-> | ->]; rewrite Z1.
      + rewrite Z.div_0_l by (apply Z.pow_nonzero; lia).
        simpl Zdigits2. split; [fexp_lia|]. split; [lia|]. now left.
      + change (0 + 1) with 1.
        assert (K : fexp prec emax (Zdigits2 1 + e1) = e1)
          by (change (Zdigits2 1) with 1; fexp_lia).
        destruct (no_shift 1 e1 K) as [-> ->].
        rewrite Z.sub_diag. split; [lia|]. split; [reflexivity|]. now right.
    - destruct R as [-> | ->].
      + destruct (no_shift m1 e1 K1) as [-> ->].
        rewrite Z.sub_diag, Z.pow_0_r. split; [lia|]. split; [lia|].
        now right.
      + pose proof (Zdigits2_pos m1 P1) as PD.
        destruct (Zdigits2_succ m1 P1) as [[_ D]|[T D]].
        * assert (K : fexp prec emax (Zdigits2 (m1 + 1) + e1) = e1)
            by (rewrite D; exact K1).
          destruct (no_shift (m1 + 1) e1 K) as [-> ->].
          rewrite Z.sub_diag, Z.pow_0_r. split; [lia|]. split; [lia|].
          now right.
        * destruct (Z.eq_dec (Zdigits2 m1) 53) as [E53|N53].
          -- destruct (one_shift (m1 + 1) e1) as [D3 E3];
               [lia | lia | fexp_lia |].
             rewrite E3 in *.
             assert (X : fexp prec emax (Zdigits2 (m1 + 1) + e1) - e1 = 1)
               by (rewrite D; fexp_lia).
             rewrite X in *. change (Z.max 1 0) with 1 in *.
             replace (e1 + 1 - e1) with 1 by lia.
             split; [lia|]. split.
             ++ rewrite T, E53. reflexivity.
             ++ right. rewrite D3. fexp_lia.
          -- assert (K : fexp prec emax (Zdigits2 (m1 + 1) + e1) = e1)
               by (rewrite D; fexp_lia).
             destruct (no_shift (m1 + 1) e1 K) as [-> ->].
             rewrite Z.sub_diag, Z.pow_0_r. split; [lia|]. split; [lia|].
             now right. }
  destruct F as (F1 & F2 & F3).
  split; [exact F1|]. split; [exact F2|].
  split; [|split; [exact F3 | reflexivity]].
  rewrite M2. apply Z.div_pos; [lia|]. apply Z.pow_pos_nonneg; lia.
Qed.

Lemma binary_round_aux_valid (s : bool) (mx ex : Z) (lx : location) :
  0 <= mx -> ex <= fexp prec emax (Zdigits2 mx + ex) ->
  valid (binary_round_aux prec emax s mx ex lx).
Proof.
  intros H0 Hex.
  destruct (binary_round_aux_spec s mx ex lx H0 Hex)
    as (m2 & mf & ef & _ & _ & _ & _ & _ & C & ->).
  destruct mf as [|p|p]; try reflexivity.
  unfold valid. destruct (ef <=? emax - prec) eqn:L; [|reflexivity].
  change (SpecFloat.bounded prec emax p ef = true). unfold SpecFloat.bounded, canonical_mantissa.
  destruct C as [C|C]; [discriminate|].
  change (Zdigits2 (Z.pos p)) with (Z.pos (digits2_pos p)) in C.
  rewrite C, Z.eqb_refl. exact L.
Qed.

Lemma digits2_iter_xO (m d : positive) :
  Z.pos (digits2_pos (Pos.iter xO m d)) = Z.pos (digits2_pos m) + Z.pos d.
Proof.
  induction d as [|d IH] using Pos.peano_ind.
  - simpl. lia.
  - rewrite Pos.iter_succ. simpl digits2_pos. lia.
Qed.

Lemma binary_round_valid (s : bool) (m : positive) (e : Z) :
  valid (binary_round prec emax s m e).
Proof.
  unfold binary_round, shl_align.
  destruct (fexp prec emax (Z.pos (digits2_pos m) + e) - e) as [|d|d] eqn:E;
    apply binary_round_aux_valid; try lia; simpl Zdigits2.
  - lia.
  - lia.
  - rewrite digits2_iter_xO.
    assert (X : Z.pos (digits2_pos m) + Z.pos d +
                fexp prec emax (Z.pos (digits2_pos m) + e) =
                Z.pos (digits2_pos m) + e) by lia.
    rewrite X. lia.
Qed.

Lemma of_Z_valid (z : Z) : valid (of_Z z).
Proof.
  destruct z as [|p|p]; [reflexivity| |]; apply binary_round_valid.
Qed.

(** The quotient computed for a division is aligned low enough. *)
Lemma div_core_aligned (m1 m2 : Z) :
  0 < m1 -> 0 < m2 ->
  let '(q, e', l) := SFdiv_core_binary prec emax m1 0 m2 0 in
  0 <= q /\ e' <= fexp prec emax (Zdigits2 q + e').
Proof.
  intros H1 H2. unfold SFdiv_core_binary.
  remember (Zdigits2 m1) as d1 eqn:Hd1.
  remember (Zdigits2 m2) as d2 eqn:Hd2.
  remember (Z.min (fexp prec emax (d1 + 0 - (d2 + 0))) (0 - 0)) as e' eqn:He'.
  remember (0 - 0 - e') as s eqn:Hs'.
  assert (Hs : 0 <= s) by lia.
  remember (match s with
            | 0 => m1
            | Z.pos _ => Z.shiftl m1 s
            | Z.neg _ => 0
            end) as m' eqn:Hm.
  assert (Hm' : m' = m1 * 2 ^ s).
  { rewrite Hm. clear Hm Hs'. destruct s as [|p|p]; try lia.
    now rewrite Z.shiftl_mul_pow2 by lia. }
  clear Hm.
  assert (P : 0 < 2 ^ s) by (apply Z.pow_pos_nonneg; lia).
  destruct (Z.div_eucl m' m2) as [q r] eqn:Q.
  assert (Hq : q = m' / m2) by (unfold Z.div; now rewrite Q).
  assert (0 <= q) by (rewrite Hq; apply Z.div_pos; nia).
  split; [assumption|].
  pose proof (Zdigits2_bounds m1 H1) as [B1 B1'].
  pose proof (Zdigits2_bounds m2 H2) as [B2 B2'].
  rewrite <- Hd1 in B1, B1'. rewrite <- Hd2 in B2, B2'.
  pose proof (Zdigits2_pos m1 H1) as P1. rewrite <- Hd1 in P1.
  pose proof (Zdigits2_pos m2 H2) as P2. rewrite <- Hd2 in P2.
  destruct (Z.eq_dec q 0) as [Z|NZ].
  - (* the quotient vanishes: the exponent is the least one *)
    rewrite Z. simpl Zdigits2.
    assert (Small : m1 * 2 ^ s < m2).
    { rewrite Z, Hm' in Hq. symmetry in Hq.
      apply Z.div_small_iff in Hq; nia. }
    assert (d1 - 1 + s < d2).
    { destruct (Z.lt_ge_cases (d1 - 1 + s) d2) as [L|L]; [assumption|].
      assert (T : 2 ^ d2 <= 2 ^ (d1 - 1 + s))
        by (apply Z.pow_le_mono_r; lia).
      rewrite Z.pow_add_r in T by lia. nia. }
    fexp_lia.
  - assert (d1 + s - d2 <= Zdigits2 q).
    { destruct (Z.le_gt_cases (d1 + s - d2) 1) as [L|L].
      - pose proof (Zdigits2_pos q ltac:(lia)). lia.
      - apply Zdigits2_ge; [|lia].
        rewrite Hq. apply Z.div_le_lower_bound; [lia|].
        replace (d1 + s - d2 - 1) with ((d1 - 1 + s) - d2) by lia.
        assert (T : m2 * 2 ^ (d1 - 1 + s - d2)
                    <= 2 ^ d2 * 2 ^ (d1 - 1 + s - d2)).
        { apply Z.mul_le_mono_nonneg_r; [|lia].
          apply Z.pow_nonneg; lia. }
        rewrite <- Z.pow_add_r in T by lia.
        replace (d2 + (d1 - 1 + s - d2)) with ((d1 - 1) + s) in T by lia.
        rewrite Z.pow_add_r in T by lia. nia. }
    fexp_lia.
Qed.

Lemma dec_valid (m e10 : Z) : valid (dec m e10).
Proof.
  unfold dec. destruct m as [|p|p]; try reflexivity.
  destruct (0 <=? e10) eqn:E.
  - apply of_Z_valid.
  - apply Z.leb_gt in E.
    assert (T : 0 < 10 ^ (- e10)) by (apply Z.pow_pos_nonneg; lia).
    pose proof (div_core_aligned (Z.pos p) (10 ^ (- e10)) ltac:(lia) T) as A.
    destruct (SFdiv_core_binary prec emax (Z.pos p) 0 (10 ^ (- e10)) 0)
      as [[q e'] l].
    destruct A as [A1 A2]. now apply binary_round_aux_valid.
Qed.

Lemma SFopp_valid (x : number) : valid x -> valid (SFopp x).
Proof. destruct x; exact (fun H => H). Qed.

Lemma scan_unsigned_valid (s : string) v rest :
  scan_unsigned s = Some (v, rest) -> valid v.
Proof.
  unfold scan_unsigned.
  destruct (strip_prefix "Infinity" s); [intros [= <- _]; reflexivity|].
  destruct (scan_digits s 0 0) as [[ip ni] r1].
  destruct (match r1 with
            | String "." r => scan_digits r ip 0
            | _ => (ip, 0, r1)
            end) as [[m nf] r2].
  destruct ((ni =? 0) && (nf =? 0)); [discriminate|].
  destruct (scan_exponent r2) as [ex r3].
  intros [= <- _]. apply dec_valid.
Qed.

Lemma scan_decimal_valid (s : string) v rest :
  scan_decimal s = Some (v, rest) -> valid v.
Proof.
  unfold scan_decimal.
  assert (P : forall r, match scan_unsigned r with
                        | Some (v0, rest0) => Some (SFopp v0, rest0)
                        | None => None
                        end = Some (v, rest) -> valid v).
  { intros r. destruct (scan_unsigned r) as [[v0 rest0]|] eqn:E;
      [|discriminate].
    intros [= <- _]. apply SFopp_valid. eapply scan_unsigned_valid, E. }
  destruct s as [|c r]; [apply scan_unsigned_valid|].
  destruct c as [[] [] [] [] [] [] [] []];
    try apply scan_unsigned_valid; apply P.
Qed.

Lemma scan_nondecimal_valid (s : string) v :
  scan_nondecimal s = Some v -> valid v.
Proof.
  unfold scan_nondecimal.
  repeat match goal with
         | |- context [match ?x with _ => _ end] => destruct x
         end; try discriminate; intros [= <-]; apply of_Z_valid.
Qed.

Lemma StringToNumber_valid (s : string) : valid (StringToNumber s).
Proof.
  unfold StringToNumber. destruct (trim s) as [|c t]; [reflexivity|].
  destruct (scan_nondecimal (String c t)) as [v|] eqn:N.
  - eapply scan_nondecimal_valid, N.
  - destruct (scan_decimal (String c t)) as [[v [|]]|] eqn:E;
      try reflexivity. eapply scan_decimal_valid, E.
Qed.

Lemma Number_valid (value : option string) : valid (Number value).
Proof. destruct value; [apply StringToNumber_valid | reflexivity]. Qed.

Lemma parseFloat_valid (s : string) : valid (parseFloat s).
Proof.
  unfold parseFloat.
  destruct (scan_decimal (trimStart s)) as [[v r]|] eqn:E; [|reflexivity].
  eapply scan_decimal_valid, E.
Qed.

Lemma Math_round_valid (x : number) : valid x -> valid (Math_round x).
Proof.
  destruct x as [s|s| |s m e]; simpl; auto.
  intros H. destruct (0 <=? e); [exact H|].
  destruct (_ =? 0); [reflexivity | apply of_Z_valid].
Qed.

Lemma lit_60 : lit 60 = S754_finite false 8444249301319680 (-47).
Proof. reflexivity. Qed.

Lemma Math_round_int (p : positive) (ef K : Z) :
  ef < 0 -> K = 2 ^ (- ef) -> K <= Z.pos p <= 120 * K ->
  exists z, 1 <= z <= 120 /\ Math_round (S754_finite false p ef) = of_Z z.
Proof.
  intros He HK [L U].
  assert (PK : 0 < K) by (subst K; apply Z.pow_pos_nonneg; lia).
  unfold Math_round.
  destruct (0 <=? ef) eqn:E; [apply Z.leb_le in E; lia|].
  replace (2 ^ (- ef + 1)) with (2 * K)
    by (rewrite Z.pow_add_r by lia; subst K; change (2 ^ 1) with 2; ring).
  rewrite <- HK.
  set (z := (2 * Z.pos p + K) / (2 * K)).
  assert (B : 1 <= z <= 120).
  { subst z. split.
    - apply Z.div_le_lower_bound; lia.
    - assert (T : (2 * Z.pos p + K) / (2 * K) < 121); [|lia].
      apply Z.div_lt_upper_bound; lia. }
  exists z. split; [exact B|].
  destruct (z =? 0) eqn:Z0; [apply Z.eqb_eq in Z0; lia | reflexivity].
Qed.

Lemma div_core_60 (m : positive) (e : Z) :
  Zdigits2 (Z.pos m) = 53 -> -47 <= e <= -40 ->
  SFdiv_core_binary prec emax (Z.pos m) e m60 (-47) =
  (Z.pos m * 2 ^ 53 / m60, e - 6,
   new_location m60 ((Z.pos m * 2 ^ 53) mod m60)).
Proof.
  intros D He. unfold SFdiv_core_binary. rewrite D.
  change (Zdigits2 m60) with 53.
  assert (X : Z.min (fexp prec emax (53 + e - (53 + -47))) (e - -47) = e - 6)
    by fexp_lia.
  rewrite X.
  replace (e - -47 - (e - 6)) with 53 by lia.
  rewrite Z.shiftl_mul_pow2 by lia.
  unfold Z.div, Z.modulo.
  now destruct (Z.div_eucl (Z.pos m * 2 ^ 53) m60).
Qed.

Lemma minutes_in_range (dur : number) :
  valid dur -> isFinite dur = true ->
  le minDuration dur = true -> le dur maxDuration = true ->
  exists z, 1 <= z <= 120 /\ Math_round (div dur (lit 60)) = of_Z z.
Proof.
  intros V F L U.
  destruct (duration_is_positive dur F L) as (m & e & ->).
  unfold valid in V. change (SpecFloat.bounded prec emax m e = true) in V.
  unfold SpecFloat.bounded, canonical_mantissa in V.
  apply andb_true_iff in V as [C _]. apply Z.eqb_eq in C.
  change (Z.pos (digits2_pos m)) with (Zdigits2 (Z.pos m)) in C.
  apply le_iff in L; try reflexivity.
  apply le_iff in U; try reflexivity.
  change minDuration with (S754_finite false 8444249301319680 (-47)) in L.
  change maxDuration with (S754_finite false 7916483719987200 (-40)) in U.
  unfold lexlt, lexeq in L, U. cbn [r1 r2 r3] in L, U.
  assert (He : -47 <= e <= -40) by lia.
  assert (D : Zdigits2 (Z.pos m) = 53) by fexp_lia.
  pose proof (Zdigits2_bounds (Z.pos m) ltac:(lia)) as [B1 B2].
  rewrite D in B1, B2.
  change (2 ^ (53 - 1)) with 4503599627370496 in B1.
  change (2 ^ 53) with 9007199254740992 in B2.
  rewrite lit_60.
  change (div (S754_finite false m e)
              (S754_finite false 8444249301319680 (-47)))
    with (let '(mz, ez, lz) :=
            SFdiv_core_binary prec emax (Z.pos m) e m60 (-47) in
          binary_round_aux prec emax false mz ez lz).
  rewrite (div_core_60 m e D He).
  change (2 ^ 53) with 9007199254740992. unfold m60.
  pose proof (Z.div_mod (Z.pos m * 9007199254740992) 8444249301319680
                ltac:(lia)) as DM.
  pose proof (Z.mod_pos_bound (Z.pos m * 9007199254740992) 8444249301319680
                ltac:(lia)) as MB.
  remember (Z.pos m * 9007199254740992 / 8444249301319680) as q eqn:Hq.
  remember ((Z.pos m * 9007199254740992) mod 8444249301319680) as r eqn:Hr.
  clear Hq Hr.
  assert (Bq : 4503599627370496 <= q < 18014398509481984) by lia.
  assert (Dq : (q < 9007199254740992 /\ Zdigits2 q = 53) \/
               (9007199254740992 <= q /\ Zdigits2 q = 54)).
  { destruct (Z.lt_ge_cases q 9007199254740992) as [T|T]; [left|right];
      (split; [assumption|]); apply Zdigits2_unique; try lia;
      (split; [change (2 ^ (53 - 1)) with 4503599627370496 ||
               change (2 ^ (54 - 1)) with 9007199254740992 |
               change (2 ^ 53) with 9007199254740992 ||
               change (2 ^ 54) with 18014398509481984]); lia. }
  assert (Hex : e - 6 <= fexp prec emax (Zdigits2 q + (e - 6)))
    by (destruct Dq as [[_ ->]|[_ ->]]; fexp_lia).
  destruct (binary_round_aux_spec false q (e - 6)
              (new_location 8444249301319680 r) ltac:(lia) Hex)
    as (m2 & mf & ef & R1 & RX & Ef & Em & Nf & Cf & ->).
  assert (X0 : r = 0 -> new_location 8444249301319680 r = loc_Exact)
    by (intros ->; reflexivity).
  assert (Ecases : e = -47 \/ e = -46 \/ e = -45 \/ e = -44 \/
                   e = -43 \/ e = -42 \/ e = -41 \/ e = -40) by lia.
  cbv zeta in R1, RX, Ef, Em.
  pose proof (Z.div_mod q 2 ltac:(lia)) as DM2.
  pose proof (Z.mod_pos_bound q 2 ltac:(lia)) as MB2.
  assert (RX' : r = 0 ->
                q mod 2 ^ (fexp prec emax (Zdigits2 q + (e - 6)) - (e - 6)) = 0
                -> m2 = q / 2 ^ (fexp prec emax (Zdigits2 q + (e - 6))
                                 - (e - 6)))
    by (intros Z; apply RX, X0, Z).
  clear RX X0.
  assert (Hn : (Zdigits2 q = 53 /\
                fexp prec emax (Zdigits2 q + (e - 6)) - (e - 6) = 0) \/
               (Zdigits2 q = 54 /\
                fexp prec emax (Zdigits2 q + (e - 6)) - (e - 6) = 1)).
  { destruct Dq as [[_ Dq]|[_ Dq]]; [left|right]; (split; [exact Dq|]);
      rewrite Dq; fexp_lia. }
  assert (Hq53 : Zdigits2 q = 53 -> q < 9007199254740992)
    by (destruct Dq as [[? ?]|[? ?]]; lia).
  assert (Hq54 : Zdigits2 q = 54 -> 9007199254740992 <= q)
    by (destruct Dq as [[? ?]|[? ?]]; lia).
  clear Dq Hex C D Cf.
  destruct Hn as [[Dq Hn]|[Dq Hn]]; rewrite Hn in *;
    [specialize (Hq53 Dq); clear Hq54 | specialize (Hq54 Dq); clear Hq53];
    clear Dq Hn;
    [change (2 ^ 0) with 1 in * | change (2 ^ 1) with 2 in *];
    rewrite ?Z.div_1_r, ?Z.mod_1_r in *;
    (destruct Ef as [Ef|Ef];
     match type of Em with
     | context [2 ^ ?x] =>
         first [ replace x with 0 in Em by lia; change (2 ^ 0) with 1 in Em
               | replace x with 1 in Em by lia; change (2 ^ 1) with 2 in Em ]
     end);
    (destruct mf as [|p|p]; [exfalso; lia | | exfalso; lia]);
    (destruct (ef <=? emax - prec) eqn:Ov;
     [|apply Z.leb_gt in Ov; unfold emax, prec in Ov; exfalso; lia]);
    clear Ov;
    destruct Ecases as [->|[->|[->|[->|[->|[->|[->| ->]]]]]]]; subst ef.
  all: match goal with
       | |- context [S754_finite false ?p ?ef] =>
           let K := eval vm_compute in (2 ^ (- ef)) in
           apply (Math_round_int p ef K);
           [ lia | vm_compute; reflexivity | ]
       end.
  all: destruct (Z.eq_dec r 0) as [Zr|Zr];
    [specialize (RX' Zr) | clear RX']; try lia.
Qed.

(** *** Every number the handler works with is well formed *)

Lemma Math_max_valid (x y : number) : valid x -> valid y -> valid (Math_max x y).
Proof.
  intros Hx Hy. unfold Math_max.
  destruct (SFcompare x y) as [[]|]; try assumption; try reflexivity.
  destruct (is_neg_zero x); assumption.
Qed.

Lemma Math_min_valid (x y : number) : valid x -> valid y -> valid (Math_min x y).
Proof.
  intros Hx Hy. unfold Math_min.
  destruct (SFcompare x y) as [[]|]; try assumption; try reflexivity.
  destruct (is_pos_zero x); assumption.
Qed.

Lemma clamp_valid (v lo hi : number) :
  valid v -> valid lo -> valid hi -> valid (clamp v lo hi).
Proof. intros. now apply Math_min_valid; [apply Math_max_valid|]. Qed.

Lemma num_valid (value : option string) (def lo hi : number) :
  valid def -> valid lo -> valid hi -> valid (num value def lo hi).
Proof.
  intros. rewrite num_clamp.
  destruct (isFinite _); [apply clamp_valid|]; auto using Number_valid.
Qed.

Lemma inputs_valid (b : gmap string string) (f : field) :
  valid (resolved f (parseInputs b)).
Proof. destruct f; apply num_valid; reflexivity. Qed.

Lemma probe_resolved_valid (evs : list child_event) (sec : number) :
  probeDurationSec evs = Some (Resolved sec) -> valid sec.
Proof. apply (probe_resolved valid). intros s _. apply parseFloat_valid. Qed.

Lemma resolveDuration_valid (req : request) (probe : list child_event)
    (dur : number) :
  resolveDuration req probe = Some dur -> valid dur.
Proof.
  rewrite resolveDuration_eq. cbv zeta.
  destruct (isFinite _).
  - intros [= <-]. apply clamp_valid; try reflexivity. apply Number_valid.
  - destruct (hasMusic req); [|intros [= <-]; reflexivity].
    destruct (probeDurationSec probe) as [[sec|r]|] eqn:E; try discriminate;
      intros [= <-]; [|reflexivity].
    apply clamp_valid; try reflexivity.
    apply Math_round_valid. now apply (probe_resolved_valid probe).
Qed.

(** The minutes in the file name are a whole number between 1 and 120. *)
Lemma minutes_of_duration (req : request) (probe : list child_event)
    (dur : number) :
  resolveDuration req probe = Some dur ->
  exists z, 1 <= z <= 120 /\ Math_round (div dur (lit 60)) = of_Z z.
Proof.
  intros H. destruct (resolveDuration_range req probe dur H) as (F & L & U).
  apply minutes_in_range; try assumption.
  now apply (resolveDuration_valid req probe).
Qed.

(** ** The beat descriptor and the file name *)

Lemma length_append (s t : string) :
  String.length (s +:+ t) = (String.length s + String.length t)%nat.
Proof.
  induction s as [|c s IH]; [reflexivity|].
  rewrite append_cons. simpl. now rewrite IH.
Qed.

Lemma take_append (s t : string) : take (String.length s) (s +:+ t) = s.
Proof.
  induction s as [|c s IH]; [now destruct t|].
  rewrite append_cons. simpl. now rewrite IH.
Qed.

Lemma drop_append (s t : string) : drop (String.length s) (s +:+ t) = t.
Proof.
  induction s as [|c s IH]; [now destruct t|].
  rewrite append_cons. simpl. exact IH.
Qed.

Lemma Z_to_dec_length (z : Z) : (1 <= String.length (Z_to_dec z))%nat.
Proof.
  unfold Z_to_dec. rewrite Z_digits_S.
  destruct (z / 10 =? 0); [simpl; lia|].
  rewrite Z_digits_acc, length_append. simpl. lia.
Qed.

Lemma digit_char_mod (z : Z) : digit_char (z mod 10) = digit_char z.
Proof. unfold digit_char. now rewrite Z.mod_mod by lia. Qed.

(** Splitting the digits of [n] two places from the right gives the
    whole part and the two decimals. *)
Lemma fixed_layout (n : Z) :
  0 <= n ->
  let ds := Z_to_dec n in
  let ds := zeros (2 + 1 - String.length ds) +:+ ds in
  let k := String.length ds in
  take (k - 2) ds +:+ "." +:+ drop (k - 2) ds =
  Z_to_dec (n / 100) +:+ "." +:+
  String (digit_char (n / 10)) (String (digit_char n) "").
Proof.
  intros H. cbv zeta.
  destruct (Z.lt_ge_cases n 10) as [L1|L1].
  { rewrite (Z_to_dec_small n) by lia.
    rewrite (Z.div_small n 100), (Z.div_small n 10) by lia. reflexivity. }
  rewrite (Z_to_dec_step n L1).
  assert (Q : 0 <= n / 10) by (apply Z.div_pos; lia).
  destruct (Z.lt_ge_cases n 100) as [L2|L2].
  { assert (n / 10 < 10) by (apply Z.div_lt_upper_bound; lia).
    rewrite (Z_to_dec_small (n / 10)) by lia.
    rewrite (Z.div_small n 100) by lia. reflexivity. }
  assert (L3 : 10 <= n / 10) by (apply Z.div_le_lower_bound; lia).
  rewrite (Z_to_dec_step (n / 10) L3).
  rewrite Z.div_div by lia. change (10 * 10) with 100.
  pose proof (Z_to_dec_length (n / 100)) as N.
  set (X := Z_to_dec (n / 100)) in *.
  set (a := String (digit_char (n / 10)) "").
  set (b := String (digit_char n) "").
  assert (E : String.length ((X +:+ a) +:+ b) = (String.length X + 2)%nat).
  { rewrite !length_append. simpl. lia. }
  rewrite E.
  replace (2 + 1 - (String.length X + 2))%nat with 0%nat by lia.
  simpl zeros. rewrite append_nil_l, E.
  replace (String.length X + 2 - 2)%nat with (String.length X) by lia.
  rewrite !append_assoc, take_append, drop_append. reflexivity.
Qed.

(** Below 10^21, [toFixed(2)] of a number that is not negative is its
    nearest hundredth written with two decimals. *)
Lemma toFixed_twoDecimals (x : number) :
  valid x -> isFinite x = true ->
  le pos_zero x = true -> le x (of_Z 40) = true ->
  toFixed x 2 = twoDecimals x.
Proof.
  intros V F L U.
  apply le_iff in L; try reflexivity; try now apply isFinite_notNaN.
  apply le_iff in U; try reflexivity; try now apply isFinite_notNaN.
  change (of_Z 40) with (S754_finite false 5629499534213120 (-47)) in U.
  destruct x as [s| | |[] m e]; try discriminate; try (exfalso; lex).
  - reflexivity.
  - unfold valid in V. change (SpecFloat.bounded prec emax m e = true) in V.
    unfold SpecFloat.bounded, canonical_mantissa in V.
    apply andb_true_iff in V as [C _]. apply Z.eqb_eq in C.
    change (Z.pos (digits2_pos m)) with (Zdigits2 (Z.pos m)) in C.
    assert (He : e <= -47) by lex.
    assert (D : Zdigits2 (Z.pos m) <= 53) by fexp_lia.
    pose proof (Zdigits2_bounds (Z.pos m) ltac:(lia)) as [_ B].
    assert (B' : Z.pos m < 2 ^ 53).
    { eapply Z.lt_le_trans; [exact B|]. apply Z.pow_le_mono_r; lia. }
    change (2 ^ 53) with 9007199254740992 in B'.
    unfold toFixed, twoDecimals, hundredths, exact.
    destruct (0 <=? e) eqn:E; [apply Z.leb_le in E; lia|].
    assert (P : 1 <= 2 ^ (- e)) by (apply (Z.pow_le_mono_r 2 0); lia).
    destruct (10 ^ 21 * 2 ^ (- e) <=? Z.pos m) eqn:Big.
    { apply Z.leb_le in Big. change (10 ^ 21) with 1000000000000000000000
        in Big. nia. }
    change (10 ^ Z.of_nat 2) with 100.
    replace (2 * Z.pos m * 100) with (200 * Z.pos m) by ring.
    rewrite append_nil_l. apply fixed_layout.
    apply Z.div_pos; lia.
Qed.

Lemma hint_hintOrLabel (filenameHint : option string) (avg : number) :
  hint filenameHint (bandLabel avg) = hintOrLabel filenameHint (bandLabel avg).
Proof.
  assert (L : take 40 (keep is_word_or_dash (bandLabel avg)) = bandLabel avg).
  { unfold bandLabel.
    repeat match goal with
           | |- context [if ?c then _ else _] => destruct c
           end; reflexivity. }
  assert (N : bandLabel avg <> "").
  { unfold bandLabel.
    repeat match goal with
           | |- context [if ?c then _ else _] => destruct c
           end; discriminate. }
  unfold hint, hintOrLabel.
  destruct filenameHint as [[|c s]|]; simpl orElse at 2; rewrite ?L;
    try (destruct (bandLabel avg); [congruence | reflexivity]).
  destruct (take 40 (keep is_word_or_dash (String c s))); reflexivity.
Qed.


Lemma toString_minutes (z : Z) :
  1 <= z <= 120 -> toString (of_Z z) = Z_to_dec z.
Proof.
  intros H.
  assert (T : forallb (fun n => String.eqb (toString (of_Z (Z.of_nat n)))
                                           (Z_to_dec (Z.of_nat n)))
                      (seq 1 120) = true) by (vm_compute; reflexivity).
  rewrite forallb_forall in T.
  specialize (T (Z.to_nat z)). rewrite Z2Nat.id in T by lia.
  apply String.eqb_eq, T, in_seq. lia.
Qed.

Example descriptor_examples :
  prettyBeat (of_Z 14) (of_Z 14) = "14.00Hz" /\
  prettyBeat (of_Z 14) (of_Z 18) = "14.00-18.00Hz" /\
  replaceChar "." "p" (prettyBeat (of_Z 14) (of_Z 18)) = "14p00-18p00Hz" /\
  prettyBeat (of_Z 8) (of_Z 8) = "8.00Hz" /\
  replaceChar "." "p" (prettyBeat (of_Z 8) (of_Z 8)) = "8p00Hz" /\
  prettyBeat (dec 75 (-1)) (dec 10125 (-3)) = "7.50-10.13Hz".
Proof. vm_compute. repeat split; reflexivity. Qed.

Example filename_examples :
  let name (b : gmap string string) :=
    filename b (parseInputs b) (lit 1800) "1b9d6bcd-bbfd-4b2d-9b5d-ab8dfbbd4bed" in
  name {[ "beatStart" := "14"; "beatEnd" := "18" ]}
    = "Beta_14p00-18p00Hz_30min_1b9d6bcd-bbfd-4b2d-9b5d-ab8dfbbd4bed.wav" /\
  name {[ "beatStart" := "8"; "beatEnd" := "8"; "filenameHint" := "Alpha Fixed!" ]}
    = "AlphaFixed_8p00Hz_30min_1b9d6bcd-bbfd-4b2d-9b5d-ab8dfbbd4bed.wav" /\
  name {[ "filenameHint" := "../.." ]}
    = "Beta_12p00-14p00Hz_30min_1b9d6bcd-bbfd-4b2d-9b5d-ab8dfbbd4bed.wav".
Proof. vm_compute. repeat split; reflexivity. Qed.

(** The descriptor of clamped beats, in terms of the nearest hundredth. *)
Lemma prettyBeat_twoDecimals (b : gmap string string) :
  let i := parseInputs b in
  let bs := beatStart i in
  let be := beatEnd i in
  prettyBeat bs be =
    (if eq bs be then twoDecimals be +:+ "Hz"
     else twoDecimals bs +:+ "-" +:+ twoDecimals be +:+ "Hz").
Proof.
  intros i bs be.
  assert (T : forall f, f = BeatStart \/ f = BeatEnd ->
                        toFixed (resolved f (parseInputs b)) 2 =
                        twoDecimals (resolved f (parseInputs b))).
  { intros f Hf.
    destruct (inputs_finite b f) as [F _].
    destruct (resolved_in_range b f) as (L & U).
    apply toFixed_twoDecimals; try assumption.
    - apply inputs_valid.
    - destruct Hf as [-> | ->]; exact L.
    - destruct Hf as [-> | ->]; exact U. }
  unfold prettyBeat.
  change bs with (resolved BeatStart (parseInputs b)).
  change be with (resolved BeatEnd (parseInputs b)).
  rewrite (T BeatStart), (T BeatEnd) by auto. reflexivity.
Qed.

(** The file name, with the hint's sanitising chain folded. *)
Lemma filename_eq (b : gmap string string) (dur : number) (uuid : string) :
  let i := parseInputs b in
  filename b i dur uuid =
    hintOrLabel (b !! "filenameHint") (bandLabel (avgBeat i)) +:+ "_" +:+
    replaceChar "." "p" (prettyBeat (beatStart i) (beatEnd i)) +:+ "_" +:+
    toString (Math_round (div dur (lit 60))) +:+ "min_" +:+ uuid +:+ ".wav".
Proof. intros i. unfold filename. rewrite hint_hintOrLabel. reflexivity. Qed.

(** The minutes of a resolved duration print as plain digits. *)
Lemma minutes_printed (req : request) (probe : list child_event)
    (dur : number) :
  resolveDuration req probe = Some dur ->
  exists minutes, 1 <= minutes <= 120 /\
    Math_round (div dur (lit 60)) = of_Z minutes /\
    toString (Math_round (div dur (lit 60))) = Z_to_dec minutes.
Proof.
  intros H.
  destruct (minutes_of_duration req probe dur H) as (z & Hz & E).
  exists z. split; [exact Hz|]. split; [exact E|].
  rewrite E. now apply toString_minutes.
Qed.


(** ** The characters of the file name *)

Lemma allChars_append (f : ascii -> bool) (s t : string) :
  allChars f (s +:+ t) = allChars f s && allChars f t.
Proof.
  induction s as [|c s IH]; [reflexivity|].
  rewrite append_cons. simpl. now rewrite IH, andb_assoc.
Qed.

Lemma allChars_keep (f : ascii -> bool) (s : string) :
  allChars f (keep f s) = true.
Proof.
  induction s as [|c s IH]; [reflexivity|]. simpl.
  destruct (f c) eqn:E; [simpl; now rewrite E|exact IH].
Qed.

Lemma allChars_take (f : ascii -> bool) (n : nat) (s : string) :
  allChars f s = true -> allChars f (take n s) = true.
Proof.
  revert s. induction n as [|n IH]; intros [|c s]; try reflexivity.
  simpl. intros H. apply andb_true_iff in H as [H1 H2].
  now rewrite H1, IH.
Qed.

Lemma allChars_impl (f g : ascii -> bool) (s : string) :
  (forall c, f c = true -> g c = true) ->
  allChars f s = true -> allChars g s = true.
Proof.
  intros I. induction s as [|c s IH]; [reflexivity|]. simpl.
  intros H. apply andb_true_iff in H as [H1 H2].
  now rewrite (I c H1), IH.
Qed.

Lemma countChar_append (a : ascii) (s t : string) :
  countChar a (s +:+ t) = (countChar a s + countChar a t)%nat.
Proof.
  induction s as [|c s IH]; [reflexivity|].
  rewrite append_cons. simpl. rewrite IH. lia.
Qed.

Lemma countChar_none (f : ascii -> bool) (a : ascii) (s : string) :
  f a = false -> allChars f s = true -> countChar a s = 0%nat.
Proof.
  intros Fa. induction s as [|c s IH]; [reflexivity|]. simpl.
  intros H. apply andb_true_iff in H as [H1 H2].
  destruct (Ascii.eqb c a) eqn:E; [|now rewrite IH].
  apply Ascii.eqb_eq in E. congruence.
Qed.

Lemma is_digit_digit_char (z : Z) : is_digit (digit_char z) = true.
Proof.
  unfold digit_char.
  pose proof (Z.mod_pos_bound z 10 ltac:(lia)) as B.
  assert (D : z mod 10 = 0 \/ z mod 10 = 1 \/ z mod 10 = 2 \/ z mod 10 = 3 \/
              z mod 10 = 4 \/ z mod 10 = 5 \/ z mod 10 = 6 \/ z mod 10 = 7 \/
              z mod 10 = 8 \/ z mod 10 = 9) by lia.
  repeat destruct D as [D|D]; rewrite D; reflexivity.
Qed.

Lemma allChars_Z_digits (fuel : nat) (z : Z) (acc : string) :
  allChars is_digit acc = true ->
  allChars is_digit (Z_digits fuel z acc) = true.
Proof.
  revert z acc. induction fuel as [|f IH]; intros z acc H; [exact H|].
  rewrite Z_digits_S.
  assert (H' : allChars is_digit (String (digit_char z) acc) = true)
    by (simpl; now rewrite is_digit_digit_char).
  destruct (z / 10 =? 0); [exact H' | now apply IH].
Qed.

Lemma allChars_Z_to_dec (z : Z) : allChars is_digit (Z_to_dec z) = true.
Proof. now apply allChars_Z_digits. Qed.

(** The classes: word characters are neither dots nor unsafe, and digits
    and UUID characters are word characters or hyphens. *)
Lemma word_or_dash_safe (c : ascii) :
  is_word_or_dash c = true ->
  is_unsafe c = false /\ Ascii.eqb c "." = false.
Proof.
  destruct c as [[] [] [] [] [] [] [] []]; vm_compute; intros H;
    try discriminate; split; reflexivity.
Qed.

Lemma digit_is_word (c : ascii) : is_digit c = true -> is_word_or_dash c = true.
Proof.
  destruct c as [[] [] [] [] [] [] [] []]; vm_compute; intros H;
    try discriminate; reflexivity.
Qed.

Lemma uuid_char_is_word (c : ascii) :
  is_uuid_char c = true -> is_word_or_dash c = true.
Proof.
  destruct c as [[] [] [] [] [] [] [] []]; vm_compute; intros H;
    try discriminate; reflexivity.
Qed.

Lemma allChars_replace_dots (s : string) :
  allChars (fun c => is_word_or_dash c || Ascii.eqb c ".") s = true ->
  allChars is_word_or_dash (replaceChar "." "p" s) = true.
Proof.
  induction s as [|c s IH]; [reflexivity|]. simpl.
  intros H. apply andb_true_iff in H as [H1 H2]. rewrite (IH H2).
  destruct (Ascii.eqb c ".") eqn:E; [reflexivity|].
  rewrite orb_false_r in H1. now rewrite H1.
Qed.

Lemma allChars_twoDecimals (x : number) :
  allChars (fun c => is_word_or_dash c || Ascii.eqb c ".") (twoDecimals x)
  = true.
Proof.
  unfold twoDecimals. rewrite !allChars_append.
  rewrite (allChars_impl is_digit _ (Z_to_dec _)).
  - simpl. rewrite !(digit_is_word _ (is_digit_digit_char _)). reflexivity.
  - intros c H. now rewrite (digit_is_word c H).
  - apply allChars_Z_to_dec.
Qed.

Lemma allChars_hintOrLabel (filenameHint : option string) (avg : number) :
  allChars is_word_or_dash (hintOrLabel filenameHint (bandLabel avg)) = true.
Proof.
  assert (L : allChars is_word_or_dash (bandLabel avg) = true).
  { unfold bandLabel.
    repeat match goal with
           | |- context [if ?c then _ else _] => destruct c
           end; reflexivity. }
  unfold hintOrLabel. destruct filenameHint as [s|]; [|exact L].
  pose proof (allChars_take _ 40 _ (allChars_keep is_word_or_dash s)) as T.
  destruct (take 40 (keep is_word_or_dash s)); [exact L | exact T].
Qed.

Lemma allChars_prettyBeat (b : gmap string string) :
  let i := parseInputs b in
  allChars is_word_or_dash
    (replaceChar "." "p" (prettyBeat (beatStart i) (beatEnd i))) = true.
Proof.
  intros i. apply allChars_replace_dots.
  pose proof (prettyBeat_twoDecimals b) as E. cbv zeta in E. fold i in E.
  rewrite E.
  destruct (eq (beatStart i) (beatEnd i));
    rewrite !allChars_append, !allChars_twoDecimals; reflexivity.
Qed.

(** C9: whatever the hint, the download name is a stem of characters from
    [[A-Za-z0-9_-]] followed by [.wav], given that the identifier is made
    of lower-case hexadecimal digits and hyphens: it has exactly one dot
    and no quote, white space or path separator, and the
    Content-Disposition value has just its two enclosing quotes. *)
Theorem download_name_is_safe
    (req : request) (probe : list child_event) (dur : number) (uuid : string)
    (Hdur : resolveDuration req probe = Some dur)
    (Huuid : allChars is_uuid_char uuid = true) :
  let name := filename (body req) (parseInputs (body req)) dur uuid in
  let disposition := "attachment; filename=" +:+ quote +:+ name +:+ quote in
  (exists stem,
      name = stem +:+ ".wav" /\ allChars is_word_or_dash stem = true) /\
  countChar "." name = 1%nat /\
  allChars (fun c => negb (is_unsafe c)) name = true /\
  countChar (ascii_of_N 34) disposition = 2%nat /\
  In ("Content-Disposition", disposition)
     (headers (body req) (parseInputs (body req)) dur uuid).
Proof.
  intros name disposition.
  pose proof (filename_eq (body req) dur uuid) as E. cbv zeta in E.
  destruct (minutes_printed req probe dur Hdur) as (z & Hz & _ & Ez).
  set (stem := hintOrLabel (body req !! "filenameHint")
                 (bandLabel (avgBeat (parseInputs (body req)))) +:+ "_" +:+
               replaceChar "." "p"
                 (prettyBeat (beatStart (parseInputs (body req)))
                             (beatEnd (parseInputs (body req)))) +:+ "_" +:+
               toString (Math_round (div dur (lit 60))) +:+ "min_" +:+ uuid).
  assert (En : name = stem +:+ ".wav").
  { subst name stem. rewrite E, !append_assoc. reflexivity. }
  assert (W : allChars is_word_or_dash stem = true).
  { subst stem. rewrite !allChars_append.
    rewrite allChars_hintOrLabel, allChars_prettyBeat, Ez.
    rewrite (allChars_impl is_digit is_word_or_dash (Z_to_dec z)
               digit_is_word (allChars_Z_to_dec z)).
    rewrite (allChars_impl is_uuid_char is_word_or_dash uuid
               uuid_char_is_word Huuid).
    reflexivity. }
  assert (S : allChars (fun c => negb (is_unsafe c)) stem = true).
  { apply (allChars_impl is_word_or_dash); [|exact W].
    intros c Hc. now destruct (word_or_dash_safe c Hc) as [-> _]. }
  split; [exists stem; split; [exact En | exact W]|].
  split.
  { rewrite En, countChar_append.
    now rewrite (countChar_none is_word_or_dash "." stem). }
  split.
  { rewrite En, allChars_append, S. reflexivity. }
  split.
  { subst disposition. rewrite !countChar_append.
    rewrite (countChar_none (fun c => negb (is_unsafe c)) (ascii_of_N 34) name);
      [reflexivity | reflexivity |].
    rewrite En, allChars_append, S. reflexivity. }
  right. left. reflexivity.
Qed.

Lemma download_name_witness :
  let hostile := "../..\evil" +:+ quote +:+ "; x=" +:+ quote +:+ " .wav" in
  let req := {| body := {[ "filenameHint" := hostile;
                           "beatStart" := "6"; "beatEnd" := "10" ]};
                file := Some {| path := "uploads/3f9a" |} |} in
  let probe := [Stdout "212.4"; Close (Some 0)] in
  let uuid := "1b9d6bcd-bbfd-4b2d-9b5d-ab8dfbbd4bed" in
  resolveDuration req probe = Some (lit 212) /\
  allChars is_uuid_char uuid = true /\
  filename (body req) (parseInputs (body req)) (lit 212) uuid =
    "evilxwav_6p00-10p00Hz_4min_1b9d6bcd-bbfd-4b2d-9b5d-ab8dfbbd4bed.wav" /\
  countChar "." (filename (body req) (parseInputs (body req)) (lit 212) uuid)
  = 1%nat.
Proof.
  intros hostile req probe uuid.
  assert (H : resolveDuration req probe = Some (lit 212))
    by (vm_compute; reflexivity).
  assert (U : allChars is_uuid_char uuid = true) by (vm_compute; reflexivity).
  destruct (download_name_is_safe req probe (lit 212) uuid H U)
    as (_ & D & _).
  split; [exact H|]. split; [exact U|].
  split; [vm_compute; reflexivity | exact D].
Defined.

(* ================================================================== *)
(** ** Further properties of the render session *)
(* ================================================================== *)

Import Notions.





Lemma existsb_sends_bytes_app (a b : list event) :
  existsb sends_bytes (a ++ b) = false -> existsb sends_bytes a = false.
Proof. rewrite existsb_app. now intros [H _]%orb_false_iff. Qed.







(* ================================================================== *)
(** ** Further properties of the probe and of the file name *)
(* ================================================================== *)

Lemma keep_all (f : ascii -> bool) (s : string) :
  allChars f s = true -> keep f s = s.
Proof.
  induction s as [|c s IH]; [reflexivity|]. simpl.
  intros [-> H]%andb_true_iff. now rewrite IH.
Qed.

Lemma take_all (n : nat) (s : string) :
  (String.length s <= n)%nat -> take n s = s.
Proof.
  revert s. induction n as [|n IH]; intros [|c s]; simpl; try reflexivity; try lia.
  intros H. rewrite IH; [reflexivity | lia].
Qed.

Lemma length_take (n : nat) (s : string) : (String.length (take n s) <= n)%nat.
Proof.
  revert s. induction n as [|n IH]; intros [|c s]; simpl; try lia.
  specialize (IH s). lia.
Qed.

Lemma bandLabel_length (avg : number) :
  (4 <= String.length (bandLabel avg) <= 6)%nat.
Proof.
  unfold bandLabel.
  repeat match goal with
         | |- context [if ?c then _ else _] => destruct c
         end; simpl; lia.
Qed.

(** X3: the leading part of the file name is never empty, has at most 40
    characters, all from [[A-Za-z0-9_-]]; a hint that already is such a
    name is taken as it is, and sanitising is idempotent. *)
Theorem hint_is_a_short_name (filenameHint : option string) (avg : number) :
  let label := bandLabel avg in
  let h := hint filenameHint label in
  (1 <= String.length h <= 40)%nat /\
  allChars is_word_or_dash h = true /\
  hint (Some h) label = h /\
  (forall s, filenameHint = Some s -> s <> "" ->
             allChars is_word_or_dash s = true ->
             (String.length s <= 40)%nat -> h = s).
Proof.
  intros label h.
  assert (W : allChars is_word_or_dash h = true).
  { subst h label. rewrite hint_hintOrLabel. apply allChars_hintOrLabel. }
  assert (L : (1 <= String.length h <= 40)%nat).
  { subst h. unfold hint.
    pose proof (length_take 40 (keep is_word_or_dash (orElse filenameHint label))) as T.
    pose proof (bandLabel_length avg) as B. fold label in B.
    destruct (take 40 _) as [|c t]; simpl in *; lia. }
  assert (Fix : forall s, s <> "" -> allChars is_word_or_dash s = true ->
                          (String.length s <= 40)%nat ->
                          hint (Some s) label = s).
  { intros s N A Len. unfold hint.
    assert (O : orElse (Some s) label = s) by (destruct s; [now destruct N | reflexivity]).
    rewrite O, keep_all, take_all by assumption.
    destruct s; [now destruct N | reflexivity]. }
  split; [exact L|]. split; [exact W|]. split.
  - apply Fix; try assumption; try lia.
    intros E. rewrite E in L. simpl in L. lia.
  - intros s -> N A Len. now apply Fix.
Qed.

(** X4: the outcome of the probe is fixed by the first close or error event
    and by the text of the two output streams before it: how the output is
    cut into chunks, and whatever happens afterwards, makes no difference.
    Until then the promise is pending. *)
Theorem probe_outcome_by_text
    (pre1 pre2 post1 post2 : list child_event) (ev : child_event)
    (Hpre1 : forallb is_data pre1 = true)
    (Hpre2 : forallb is_data pre2 = true)
    (Hev : is_data ev = false)
    (Hout : stdout_text pre1 = stdout_text pre2)
    (Herr : probe_stderr_text pre1 = probe_stderr_text pre2) :
  probeDurationSec pre1 = None /\
  probeDurationSec (pre1 ++ ev :: post1) <> None /\
  probeDurationSec (pre1 ++ ev :: post1) = probeDurationSec (pre2 ++ ev :: post2) /\
  probeDurationSec (pre1 ++ ev :: post1) = probeDurationSec (pre1 ++ [ev]).
Proof.
  destruct (probe_first_settle pre1 post1 ev Hpre1) as [P1 S1].
  destruct (probe_first_settle pre2 post2 ev Hpre2) as [_ S2].
  destruct (probe_first_settle pre1 [] ev Hpre1) as [_ S3].
  split; [exact P1|].
  destruct ev as [d|d|code|e]; try discriminate;
    rewrite S1, S2, S3, ?Hout, ?Herr; (split; [|split; reflexivity]).
  - destruct (exited_zero code); [|discriminate]. cbv zeta.
    destruct (isFinite _); discriminate.
  - discriminate.
Qed.

Lemma probe_outcome_witness :
  let pre1 := [Stdout "21"; Stderr "warn"; Stdout "2.4"; Stdout (String (ascii_of_N 10) "")] in
  let pre2 := [Stderr "wa"; Stdout "212.4"; Stderr "rn"; Stdout (String (ascii_of_N 10) "")] in
  probeDurationSec (pre1 ++ Close (Some 0) :: [Error "late"; Close (Some 1)]) =
  probeDurationSec (pre2 ++ Close (Some 0) :: []).
Proof.
  intros pre1 pre2.
  exact (proj1 (proj2 (proj2
    (probe_outcome_by_text pre1 pre2 [Error "late"; Close (Some 1)] []
       (Close (Some 0)) eq_refl eq_refl eq_refl eq_refl eq_refl)))).
Defined.

(* ================================================================== *)
(** ** The arithmetic of the render plan *)
(* ================================================================== *)

(** ** Order and value *)

Lemma pow2_pos (x : Z) : 0 <= x -> 0 < 2 ^ x.
Proof. intros. apply Z.pow_pos_nonneg; lia. Qed.

Lemma pow2_add (a b : Z) : 0 <= a -> 0 <= b -> 2 ^ (a + b) = 2 ^ a * 2 ^ b.
Proof. intros. apply Z.pow_add_r; assumption. Qed.

Lemma pow2_lt (a b : Z) : 0 <= a -> 2 ^ a < 2 ^ b -> a < b.
Proof.
  intros Ha H. destruct (Z.lt_ge_cases a b) as [L|L]; [assumption|].
  destruct (Z.lt_ge_cases b 0) as [N|N].
  - rewrite (Z.pow_neg_r 2 b N) in H. pose proof (pow2_pos a Ha). lia.
  - assert (2 ^ b <= 2 ^ a) by (apply Z.pow_le_mono_r; lia). lia.
Qed.

Lemma valid_finite (s : bool) (m : positive) (e : Z) :
  valid (S754_finite s m e) <->
  fexp prec emax (Zdigits2 (Z.pos m) + e) = e /\ e <= 971.
Proof.
  unfold valid. cbn [valid_binary]. unfold SpecFloat.bounded, canonical_mantissa.
  rewrite andb_true_iff, Z.eqb_eq, Z.leb_le. reflexivity.
Qed.

Lemma canonical_facts (m e : Z) :
  0 < m -> fexp prec emax (Zdigits2 m + e) = e ->
  -1074 <= e /\ m < 2 ^ 53 /\ (-1074 < e -> 2 ^ 52 <= m).
Proof.
  intros Hm C. pose proof (Zdigits2_bounds m Hm) as [B1 B2].
  pose proof (Zdigits2_pos m Hm) as P.
  split; [fexp_lia|]. split.
  - assert (Zdigits2 m <= 53) by fexp_lia.
    assert (2 ^ Zdigits2 m <= 2 ^ 53) by (apply Z.pow_le_mono_r; lia). lia.
  - intros H. assert (Zdigits2 m = 53) as D by fexp_lia.
    rewrite D in B1. exact B1.
Qed.

(** Canonical positive numbers are ordered by exponent, then mantissa. *)
Lemma canonical_order (m1 e1 m2 e2 : Z) :
  0 < m1 -> 0 < m2 ->
  fexp prec emax (Zdigits2 m1 + e1) = e1 ->
  fexp prec emax (Zdigits2 m2 + e2) = e2 ->
  (m1 * 2 ^ (e1 + 1074) <= m2 * 2 ^ (e2 + 1074) <->
   e1 < e2 \/ (e1 = e2 /\ m1 <= m2)).
Proof.
  intros H1 H2 C1 C2.
  destruct (canonical_facts m1 e1 H1 C1) as (L1 & U1 & N1).
  destruct (canonical_facts m2 e2 H2 C2) as (L2 & U2 & N2).
  assert (G : forall ma ea mb eb, 0 < ma -> ma < 2 ^ 53 -> 2 ^ 52 <= mb ->
              -1074 <= ea -> ea < eb ->
              ma * 2 ^ (ea + 1074) < mb * 2 ^ (eb + 1074)).
  { intros ma ea mb eb Pa Ua Nb La Lab.
    replace (eb + 1074) with ((eb - ea - 1) + 1 + (ea + 1074)) by lia.
    rewrite (pow2_add (eb - ea - 1 + 1) (ea + 1074)) by lia.
    rewrite (pow2_add (eb - ea - 1) 1) by lia. change (2 ^ 1) with 2.
    pose proof (pow2_pos (ea + 1074) ltac:(lia)).
    pose proof (pow2_pos (eb - ea - 1) ltac:(lia)).
    change (2 ^ 53) with (2 * 2 ^ 52) in Ua.
    assert (ma * 2 ^ (ea + 1074) < 2 * 2 ^ 52 * 2 ^ (ea + 1074)) by nia.
    assert (2 ^ 52 * 2 ^ (ea + 1074) <= mb * 2 ^ (ea + 1074)) by nia.
    assert (mb * 2 ^ (ea + 1074) * 2 <= mb * (2 ^ (eb - ea - 1) * 2 * 2 ^ (ea + 1074))) by nia.
    lia. }
  destruct (Z.lt_trichotomy e1 e2) as [L|[E|L]].
  - pose proof (G m1 e1 m2 e2 H1 U1 (N2 ltac:(lia)) L1 L). lia.
  - subst e2. pose proof (pow2_pos (e1 + 1074) ltac:(lia)). split.
    + intros Hv. right. split; [reflexivity|]. nia.
    + intros [?|[_ ?]]; [lia|nia].
  - pose proof (G m2 e2 m1 e1 H2 U2 (N1 ltac:(lia)) L2 L). lia.
Qed.

Lemma ival_sign (x : number) :
  match x with
  | S754_finite true _ e => -1074 <= e -> ival x < 0
  | S754_finite false _ e => -1074 <= e -> 0 < ival x
  | _ => ival x = 0
  end.
Proof.
  destruct x as [| | |[] m e]; try reflexivity; intros H;
    pose proof (pow2_pos (e + 1074) ltac:(lia)); simpl; nia.
Qed.

(** The order of well-formed finite numbers is the order of their values. *)
Lemma lex_ival (x y : number) :
  valid x -> valid y -> isFinite x = true -> isFinite y = true ->
  (lexlt x y <-> ival x < ival y) /\ (lexeq x y <-> ival x = ival y).
Proof.
  intros Vx Vy Fx Fy.
  assert (S : forall z, valid z ->
                match z with
                | S754_finite true _ _ => ival z < 0
                | S754_finite false _ _ => 0 < ival z
                | _ => ival z = 0
                end).
  { intros z Vz. pose proof (ival_sign z) as Sz.
    destruct z as [| | |[] m e]; try exact Sz;
      apply valid_finite in Vz as [Cz _];
      destruct (canonical_facts _ _ (Pos2Z.is_pos _) Cz) as (Lz & _); auto. }
  pose proof (S x Vx) as Sx. pose proof (S y Vy) as Sy.
  destruct x as [sx|sx| |sx mx ex]; try discriminate;
    destruct y as [sy|sy| |sy my ey]; try discriminate;
    try destruct sx; try destruct sy;
    unfold lexlt, lexeq; cbn [r1 r2 r3]; try lia.
  - (* both negative *)
    apply valid_finite in Vx as [Cx _]. apply valid_finite in Vy as [Cy _].
    pose proof (canonical_order (Z.pos mx) ex (Z.pos my) ey
                  ltac:(lia) ltac:(lia) Cx Cy) as O1.
    pose proof (canonical_order (Z.pos my) ey (Z.pos mx) ex
                  ltac:(lia) ltac:(lia) Cy Cx) as O2.
    cbn [ival].
    replace (Z.neg mx) with (- Z.pos mx) by reflexivity.
    replace (Z.neg my) with (- Z.pos my) by reflexivity.
    lia.
  - (* both positive *)
    apply valid_finite in Vx as [Cx _]. apply valid_finite in Vy as [Cy _].
    pose proof (canonical_order (Z.pos mx) ex (Z.pos my) ey
                  ltac:(lia) ltac:(lia) Cx Cy) as O1.
    pose proof (canonical_order (Z.pos my) ey (Z.pos mx) ex
                  ltac:(lia) ltac:(lia) Cy Cx) as O2.
    cbn [ival]. lia.
Qed.

Lemma le_ival (x y : number) :
  valid x -> valid y -> isFinite x = true -> isFinite y = true ->
  (le x y = true <-> ival x <= ival y).
Proof.
  intros Vx Vy Fx Fy. destruct (lex_ival x y Vx Vy Fx Fy) as [A B].
  rewrite le_iff, A, B by now apply isFinite_notNaN. lia.
Qed.

Lemma lt_ival (x y : number) :
  valid x -> valid y -> isFinite x = true -> isFinite y = true ->
  (lt x y = true <-> ival x < ival y).
Proof.
  intros Vx Vy Fx Fy. destruct (lex_ival x y Vx Vy Fx Fy) as [A B].
  rewrite lt_iff, A by now apply isFinite_notNaN. reflexivity.
Qed.

Lemma eq_ival (x y : number) :
  valid x -> valid y -> isFinite x = true -> isFinite y = true ->
  (eq x y = true <-> ival x = ival y).
Proof.
  intros Vx Vy Fx Fy. destruct (lex_ival x y Vx Vy Fx Fy) as [A B].
  rewrite eq_iff, B by now apply isFinite_notNaN. reflexivity.
Qed.

(** ** Rounding is monotone *)

Lemma fexp_mono (a b : Z) : a <= b -> fexp prec emax a <= fexp prec emax b.
Proof. intros. fexp_lia. Qed.

Lemma fexp_ge (a : Z) : -1074 <= fexp prec emax a.
Proof. fexp_lia. Qed.

(** The number a computation rounds: [A/B] units of [2^ex], of which the
    rounding sees the whole part [mx] and whether anything is left. *)
Lemma round_aux_le (s : bool) (A B mx ex : Z) (lx : location)
    (pc : positive) (ec k : Z) :
  0 <= A -> 0 < B -> mx = A / B -> (A mod B = 0 -> lx = loc_Exact) ->
  ex <= fexp prec emax (Zdigits2 mx + ex) ->
  valid (S754_finite false pc ec) ->
  0 <= k + ex -> 0 <= k + ec ->
  A * 2 ^ (k + ex) <= B * Z.pos pc * 2 ^ (k + ec) ->
  match binary_round_aux prec emax s mx ex lx with
  | S754_zero s' => s' = s
  | S754_finite s' m e =>
      s' = s /\ valid (S754_finite s' m e) /\
      Z.pos m * 2 ^ (e + 1074) <= Z.pos pc * 2 ^ (ec + 1074)
  | _ => False
  end.
Proof.
  intros HA HB Emx Hloc Hex Vc Hk1 Hk2 Hle.
  assert (Hmx : 0 <= mx) by (subst mx; apply Z.div_pos; lia).
  apply valid_finite in Vc as [Cc Bc].
  destruct (canonical_facts _ _ (Pos2Z.is_pos pc) Cc) as (Lc & Uc & _).
  destruct (binary_round_aux_spec s mx ex lx Hmx Hex)
    as (m2 & mf & ef & Hm2 & Hexact & Hef & Hmf & Hmf0 & Hcan & ->).
  remember (fexp prec emax (Zdigits2 mx + ex)) as e1 eqn:He1.
  remember (e1 - ex) as n eqn:Hn.
  assert (Hn0 : 0 <= n) by lia.
  assert (Le1 : -1074 <= e1) by (subst e1; apply fexp_ge).
  pose proof (pow2_pos (k + ex) Hk1) as PP.
  pose proof (pow2_pos n Hn0) as PN.
  assert (MB : B * mx <= A) by (subst mx; apply Z.mul_div_le; lia).
  (* the exponent of the result is at most that of the bound *)
  assert (StepA : e1 <= ec).
  { destruct (Z.eq_dec mx 0) as [Z0|NZ].
    - subst e1. rewrite Z0 in *. simpl Zdigits2 in *. fexp_lia.
    - assert (P0 : 0 < mx) by lia.
      pose proof (Zdigits2_bounds mx P0) as [D1 _].
      pose proof (Zdigits2_pos mx P0) as Dp.
      pose proof (Zdigits2_bounds (Z.pos pc) (Pos2Z.is_pos pc)) as [_ D2].
      pose proof (Zdigits2_pos (Z.pos pc) (Pos2Z.is_pos pc)) as Dc.
      assert (Zdigits2 mx + ex <= Zdigits2 (Z.pos pc) + ec).
      { destruct (Z.le_gt_cases (Zdigits2 mx + ex) (Zdigits2 (Z.pos pc) + ec))
          as [L|L]; [assumption|exfalso].
        assert (X : 2 ^ Zdigits2 (Z.pos pc) * 2 ^ (k + ec)
                    <= 2 ^ (Zdigits2 mx - 1) * 2 ^ (k + ex)).
        { rewrite <- !pow2_add by lia. apply Z.pow_le_mono_r; lia. }
        pose proof (pow2_pos (k + ec) Hk2) as PR.
        assert (T1 : B * 2 ^ (Zdigits2 mx - 1) * 2 ^ (k + ex)
                     <= A * 2 ^ (k + ex)) by nia.
        assert (T2 : B * Z.pos pc * 2 ^ (k + ec)
                     < B * (2 ^ Zdigits2 (Z.pos pc) * 2 ^ (k + ec))) by nia.
        nia. }
      rewrite He1, <- Cc. now apply fexp_mono. }
  pose proof (pow2_pos (ec - e1) ltac:(lia)) as PQ.
  set (K := Z.pos pc * 2 ^ (ec - e1)).
  assert (Split : 2 ^ (k + ec) = 2 ^ (ec - e1) * 2 ^ n * 2 ^ (k + ex)).
  { rewrite <- !pow2_add by lia. f_equal. lia. }
  assert (HA' : A <= B * 2 ^ n * K).
  { rewrite Split in Hle. subst K.
    apply (Z.mul_le_mono_pos_r _ _ (2 ^ (k + ex))); [assumption|]. lia. }
  assert (M1 : mx / 2 ^ n = A / (B * 2 ^ n)).
  { subst mx. rewrite Z.div_div by lia. reflexivity. }
  assert (StepB : mx / 2 ^ n <= K).
  { rewrite M1. apply Z.div_le_upper_bound; lia. }
  assert (StepC : m2 <= K).
  { destruct (Z.eq_dec (mx / 2 ^ n) K) as [E|NE]; [|lia].
    assert (EA : A = K * 2 ^ n * B).
    { pose proof (Z.mul_div_le A (B * 2 ^ n) ltac:(lia)) as T.
      rewrite <- M1, E in T. lia. }
    assert (Emx' : mx = K * 2 ^ n).
    { subst mx. rewrite EA. apply Z.div_mul. lia. }
    rewrite Hexact; [lia | |].
    - apply Hloc. rewrite EA. apply Z.mod_mul. lia.
    - rewrite Emx'. apply Z.mod_mul. lia. }
  destruct mf as [|p|p]; [reflexivity| |lia].
  destruct Hcan as [Hcan|Hcan]; [discriminate|].
  assert (Val : Z.pos p * 2 ^ (ef + 1074) <= Z.pos pc * 2 ^ (ec + 1074)).
  { replace (ef + 1074) with ((ef - (ex + n)) + (e1 + 1074)) by lia.
    replace (ec + 1074) with ((ec - e1) + (e1 + 1074)) by lia.
    rewrite (pow2_add (ef - (ex + n)) (e1 + 1074)) by lia.
    rewrite (pow2_add (ec - e1) (e1 + 1074)) by lia.
    rewrite !Z.mul_assoc, Hmf.
    pose proof (pow2_pos (e1 + 1074) ltac:(lia)). fold K. nia. }
  pose proof (proj1 (canonical_order (Z.pos p) ef (Z.pos pc) ec
                       (Pos2Z.is_pos p) (Pos2Z.is_pos pc) Hcan Cc) Val) as O.
  assert (Bf : ef <= 971) by lia.
  replace (ef <=? emax - prec) with true
    by (symmetry; apply Z.leb_le; unfold emax, prec; lia).
  split; [reflexivity|]. split; [|exact Val].
  apply valid_finite. split; [exact Hcan | exact Bf].
Qed.

Lemma round_aux_ge (s : bool) (A B mx ex : Z) (lx : location)
    (pc : positive) (ec k : Z) :
  0 <= A -> 0 < B -> mx = A / B ->
  ex <= fexp prec emax (Zdigits2 mx + ex) ->
  valid (S754_finite false pc ec) ->
  0 <= k + ex -> 0 <= k + ec ->
  B * Z.pos pc * 2 ^ (k + ec) <= A * 2 ^ (k + ex) ->
  match binary_round_aux prec emax s mx ex lx with
  | S754_infinity s' => s' = s
  | S754_finite s' m e =>
      s' = s /\ valid (S754_finite s' m e) /\
      Z.pos pc * 2 ^ (ec + 1074) <= Z.pos m * 2 ^ (e + 1074)
  | _ => False
  end.
Proof.
  intros HA HB Emx Hex Vc Hk1 Hk2 Hle.
  assert (Hmx : 0 <= mx) by (subst mx; apply Z.div_pos; lia).
  apply valid_finite in Vc as [Cc Bc].
  destruct (canonical_facts _ _ (Pos2Z.is_pos pc) Cc) as (Lc & Uc & _).
  destruct (binary_round_aux_spec s mx ex lx Hmx Hex)
    as (m2 & mf & ef & Hm2 & Hexact & Hef & Hmf & Hmf0 & Hcan & ->).
  pose proof (aligned mx ex Hmx Hex) as Al. cbv zeta in Al.
  remember (fexp prec emax (Zdigits2 mx + ex)) as e1 eqn:He1.
  remember (e1 - ex) as n eqn:Hn.
  assert (Hn0 : 0 <= n) by lia.
  assert (Le1 : -1074 <= e1) by (subst e1; apply fexp_ge).
  pose proof (pow2_pos (k + ex) Hk1) as PP.
  pose proof (pow2_pos n Hn0) as PN.
  pose proof (pow2_pos (e1 + 1074) ltac:(lia)) as PU.
  assert (Big : Z.pos pc * 2 ^ (ec + 1074) <= m2 * 2 ^ (e1 + 1074)).
  { destruct (Z.le_gt_cases e1 ec) as [L|L].
    - pose proof (pow2_pos (ec - e1) ltac:(lia)) as PQ.
      set (K := Z.pos pc * 2 ^ (ec - e1)).
      assert (Split : 2 ^ (k + ec) = 2 ^ (ec - e1) * 2 ^ n * 2 ^ (k + ex)).
      { rewrite <- !pow2_add by lia. f_equal. lia. }
      assert (HA' : B * 2 ^ n * K <= A).
      { rewrite Split in Hle. subst K.
        apply (Z.mul_le_mono_pos_r _ _ (2 ^ (k + ex))); [assumption|]. lia. }
      assert (M1 : mx / 2 ^ n = A / (B * 2 ^ n)).
      { subst mx. rewrite Z.div_div by lia. reflexivity. }
      assert (K <= mx / 2 ^ n).
      { rewrite M1. apply Z.div_le_lower_bound; lia. }
      replace (ec + 1074) with ((ec - e1) + (e1 + 1074)) by lia.
      rewrite (pow2_add (ec - e1) (e1 + 1074)) by lia.
      rewrite Z.mul_assoc. fold K. nia.
    - destruct Al as [_ [[_ Em]|[Pm Cm]]]; [unfold emin, prec, emax in Em; lia|].
      destruct (canonical_facts _ _ Pm Cm) as (_ & _ & N1).
      specialize (N1 ltac:(lia)).
      replace (e1 + 1074) with ((e1 - ec - 1) + 1 + (ec + 1074)) by lia.
      rewrite (pow2_add (e1 - ec - 1 + 1)), (pow2_add (e1 - ec - 1) 1) by lia.
      change (2 ^ 1) with 2.
      pose proof (pow2_pos (e1 - ec - 1) ltac:(lia)).
      pose proof (pow2_pos (ec + 1074) ltac:(lia)).
      change (2 ^ 53) with (2 * 2 ^ 52) in Uc.
      assert (Z.pos pc * 2 ^ (ec + 1074) <= 2 * 2 ^ 52 * 2 ^ (ec + 1074)) by nia.
      assert (2 ^ 52 * 2 ^ (ec + 1074) <= m2 * 2 ^ (ec + 1074)) by nia.
      assert (m2 * 2 ^ (ec + 1074) * 2
              <= m2 * (2 ^ (e1 - ec - 1) * 2 * 2 ^ (ec + 1074))) by nia.
      lia. }
  pose proof (pow2_pos (ec + 1074) ltac:(lia)) as PC.
  assert (P2 : 0 < m2) by nia.
  destruct mf as [|p|p]; [lia| |lia].
  destruct Hcan as [Hcan|Hcan]; [discriminate|].
  destruct (ef <=? emax - prec) eqn:Bf; [|reflexivity].
  apply Z.leb_le in Bf. unfold emax, prec in Bf.
  split; [reflexivity|]. split.
  - apply valid_finite. split; [exact Hcan | lia].
  - replace (ef + 1074) with ((ef - (ex + n)) + (e1 + 1074)) by lia.
    rewrite (pow2_add (ef - (ex + n)) (e1 + 1074)) by lia.
    rewrite Z.mul_assoc, Hmf. exact Big.
Qed.

(** ** Sums, differences and quotients *)

Lemma iter_xO_pow2 (m d : positive) :
  Z.pos (Pos.iter xO m d) = Z.pos m * 2 ^ Z.pos d.
Proof.
  induction d as [|d IH] using Pos.peano_ind.
  - simpl. lia.
  - rewrite Pos.iter_succ, Pos2Z.inj_xO, IH, Pos2Z.inj_succ, Z.pow_succ_r by lia.
    ring.
Qed.

Lemma shl_align_spec (m : positive) (e e' : Z) :
  (shl_align m e e').2 = Z.min e e' /\
  Z.pos (shl_align m e e').1 = Z.pos m * 2 ^ (e - Z.min e e').
Proof.
  unfold shl_align. destruct (e' - e) as [|d|d] eqn:E; simpl.
  - rewrite Z.min_l by lia. rewrite Z.sub_diag. lia.
  - rewrite Z.min_l by lia. rewrite Z.sub_diag. lia.
  - rewrite Z.min_r by lia. split; [reflexivity|].
    rewrite iter_xO_pow2. f_equal. f_equal. lia.
Qed.

Lemma Zdigits2_mul_pow2 (m j : Z) :
  0 < m -> 0 <= j -> Zdigits2 (m * 2 ^ j) = Zdigits2 m + j.
Proof.
  intros Hm Hj. pose proof (Zdigits2_bounds m Hm) as [B1 B2].
  pose proof (Zdigits2_pos m Hm) as P. pose proof (pow2_pos j Hj) as PJ.
  apply Zdigits2_unique; [|nia].
  replace (Zdigits2 m + j - 1) with ((Zdigits2 m - 1) + j) by lia.
  rewrite !pow2_add by lia. nia.
Qed.

(** What [binary_round] hands to the rounding proper. *)
Lemma binary_round_eq (s : bool) (m : positive) (e : Z) :
  -1074 <= e ->
  exists mz ez,
    binary_round prec emax s m e =
      binary_round_aux prec emax s (Z.pos mz) ez loc_Exact /\
    -1074 <= ez /\ ez <= fexp prec emax (Zdigits2 (Z.pos mz) + ez) /\
    Z.pos mz * 2 ^ (ez + 1074) = Z.pos m * 2 ^ (e + 1074).
Proof.
  intros He. unfold binary_round.
  pose proof (shl_align_spec m e (fexp prec emax (Z.pos (digits2_pos m) + e)))
    as [E2 E1].
  destruct (shl_align m e (fexp prec emax (Z.pos (digits2_pos m) + e)))
    as [mz ez]. simpl in E1, E2.
  exists mz, ez. split; [reflexivity|].
  pose proof (fexp_ge (Z.pos (digits2_pos m) + e)) as G.
  assert (L : -1074 <= ez) by lia.
  split; [exact L|]. split.
  - rewrite E1, Zdigits2_mul_pow2 by lia.
    change (Zdigits2 (Z.pos m)) with (Z.pos (digits2_pos m)).
    replace (Z.pos (digits2_pos m) + (e - Z.min e (fexp prec emax (Z.pos (digits2_pos m) + e))) + ez)
      with (Z.pos (digits2_pos m) + e) by lia.
    lia.
  - rewrite E1, <- Z.mul_assoc, <- pow2_add by lia. f_equal. f_equal. lia.
Qed.

Lemma binary_round_le (s : bool) (m : positive) (e : Z) (pc : positive) (ec : Z) :
  -1074 <= e -> valid (S754_finite false pc ec) ->
  Z.pos m * 2 ^ (e + 1074) <= Z.pos pc * 2 ^ (ec + 1074) ->
  match binary_round prec emax s m e with
  | S754_zero s' => s' = s
  | S754_finite s' m' e' =>
      s' = s /\ valid (S754_finite s' m' e') /\
      Z.pos m' * 2 ^ (e' + 1074) <= Z.pos pc * 2 ^ (ec + 1074)
  | _ => False
  end.
Proof.
  intros He Vc H.
  destruct (binary_round_eq s m e He) as (mz & ez & -> & Lz & Al & Ez).
  pose proof Vc as Vc'. apply valid_finite in Vc' as [Cc _].
  destruct (canonical_facts _ _ (Pos2Z.is_pos pc) Cc) as (Lc & _).
  apply (round_aux_le s (Z.pos mz) 1 (Z.pos mz) ez loc_Exact pc ec 1074);
    try lia; try assumption.
  - now rewrite Z.div_1_r.
  - reflexivity.
  - replace (1074 + ez) with (ez + 1074) by lia.
    replace (1074 + ec) with (ec + 1074) by lia. lia.
Qed.

Lemma binary_round_ge (s : bool) (m : positive) (e : Z) (pc : positive) (ec : Z) :
  -1074 <= e -> valid (S754_finite false pc ec) ->
  Z.pos pc * 2 ^ (ec + 1074) <= Z.pos m * 2 ^ (e + 1074) ->
  match binary_round prec emax s m e with
  | S754_infinity s' => s' = s
  | S754_finite s' m' e' =>
      s' = s /\ valid (S754_finite s' m' e') /\
      Z.pos pc * 2 ^ (ec + 1074) <= Z.pos m' * 2 ^ (e' + 1074)
  | _ => False
  end.
Proof.
  intros He Vc H.
  destruct (binary_round_eq s m e He) as (mz & ez & -> & Lz & Al & Ez).
  pose proof Vc as Vc'. apply valid_finite in Vc' as [Cc _].
  destruct (canonical_facts _ _ (Pos2Z.is_pos pc) Cc) as (Lc & _).
  apply (round_aux_ge s (Z.pos mz) 1 (Z.pos mz) ez loc_Exact pc ec 1074);
    try lia; try assumption.
  - now rewrite Z.div_1_r.
  - replace (1074 + ez) with (ez + 1074) by lia.
    replace (1074 + ec) with (ec + 1074) by lia. lia.
Qed.

(** [binary_round] of a positive mantissa never gives a zero of the wrong
    sign, a NaN, or a number of the other sign. *)
Lemma binary_round_shape (s : bool) (m : positive) (e : Z) :
  -1074 <= e ->
  match binary_round prec emax s m e with
  | S754_zero s' | S754_infinity s' => s' = s
  | S754_finite s' m' e' => s' = s /\ valid (S754_finite s' m' e')
  | S754_nan => False
  end.
Proof.
  intros He.
  destruct (binary_round_eq s m e He) as (mz & ez & -> & Lz & Al & Ez).
  pose proof (binary_round_aux_valid s (Z.pos mz) ez loc_Exact ltac:(lia) Al) as V.
  destruct (binary_round_aux_spec s (Z.pos mz) ez loc_Exact ltac:(lia) Al)
    as (m2 & mf & ef & _ & _ & _ & _ & Hmf0 & _ & E).
  rewrite E in *. destruct mf as [|p|p]; [reflexivity| |lia].
  destruct (ef <=? emax - prec); [|reflexivity]. split; [reflexivity|exact V].
Qed.

(** Rounding keeps a value between any two numbers it lies between. *)
Lemma normalize_sandwich (M e : Z) (lo hi : number) :
  -1074 <= e -> valid lo -> valid hi ->
  isFinite lo = true -> isFinite hi = true ->
  ival lo <= M * 2 ^ (e + 1074) <= ival hi ->
  let r := binary_normalize prec emax M e false in
  valid r /\ isFinite r = true /\ ival lo <= ival r <= ival hi.
Proof.
  intros He Vlo Vhi Flo Fhi [L U] r. subst r.
  pose proof (pow2_pos (e + 1074) ltac:(lia)) as PE.
  assert (S : forall z, valid z ->
                match z with
                | S754_finite true _ _ => ival z < 0
                | S754_finite false _ _ => 0 < ival z
                | _ => ival z = 0
                end).
  { intros z Vz. pose proof (ival_sign z) as Sz.
    destruct z as [| | |[] m' e']; try exact Sz;
      apply valid_finite in Vz as [Cz _];
      destruct (canonical_facts _ _ (Pos2Z.is_pos _) Cz) as (Lz & _); auto. }
  pose proof (S lo Vlo) as Slo. pose proof (S hi Vhi) as Shi.
  destruct M as [|m|m]; cbn [binary_normalize].
  - split; [reflexivity|]. split; [reflexivity|]. simpl. lia.
  - (* a positive value *)
    pose proof (binary_round_shape false m e He) as Sh.
    assert (Hhi : exists pc ec, hi = S754_finite false pc ec).
    { destruct hi as [| | |[] pc ec]; try discriminate; try lia; eauto. }
    destruct Hhi as (pc & ec & ->).
    pose proof (binary_round_le false m e pc ec He Vhi U) as Le.
    destruct lo as [sl|sl| |[] pl el]; try discriminate.
    + destruct (binary_round prec emax false m e) as [s'|s'| |s' m' e'];
        try contradiction.
      * split; [reflexivity|]. split; [reflexivity|]. simpl in *. lia.
      * destruct Le as (-> & V & B). split; [exact V|]. split; [reflexivity|].
        pose proof (S _ V). cbn [ival] in *. lia.
    + destruct (binary_round prec emax false m e) as [s'|s'| |s' m' e'];
        try contradiction.
      * split; [reflexivity|]. split; [reflexivity|]. simpl in *. lia.
      * destruct Le as (-> & V & B). split; [exact V|]. split; [reflexivity|].
        pose proof (S _ V). cbn [ival] in *. lia.
    + pose proof (binary_round_ge false m e pl el He Vlo L) as Ge.
      destruct (binary_round prec emax false m e) as [s'|s'| |s' m' e'];
        try contradiction.
      destruct Le as (-> & V & B). destruct Ge as (_ & _ & B').
      split; [exact V|]. split; [reflexivity|]. cbn [ival] in *. lia.
  - (* a negative value *)
    pose proof (binary_round_shape true m e He) as Sh.
    assert (Hlo : exists pc ec, lo = S754_finite true pc ec).
    { destruct lo as [| | |[] pc ec]; try discriminate; try lia; eauto. }
    destruct Hlo as (pc & ec & ->).
    assert (Vlo' : valid (S754_finite false pc ec)) by exact Vlo.
    assert (L' : Z.pos m * 2 ^ (e + 1074) <= Z.pos pc * 2 ^ (ec + 1074)).
    { cbn [ival] in L. lia. }
    pose proof (binary_round_le true m e pc ec He Vlo' L') as Le.
    destruct hi as [sh|sh| |[] ph eh]; try discriminate.
    + destruct (binary_round prec emax true m e) as [s'|s'| |s' m' e'];
        try contradiction.
      * split; [reflexivity|]. split; [reflexivity|]. simpl in *. lia.
      * destruct Le as (-> & V & B). split; [exact V|]. split; [reflexivity|].
        pose proof (S _ V). cbn [ival] in *. lia.
    + assert (Vhi' : valid (S754_finite false ph eh)) by exact Vhi.
      assert (U' : Z.pos ph * 2 ^ (eh + 1074) <= Z.pos m * 2 ^ (e + 1074)).
      { cbn [ival] in U. lia. }
      pose proof (binary_round_ge true m e ph eh He Vhi' U') as Ge.
      destruct (binary_round prec emax true m e) as [s'|s'| |s' m' e'];
        try contradiction.
      destruct Le as (-> & V & B). destruct Ge as (_ & _ & B').
      split; [exact V|]. split; [reflexivity|]. cbn [ival] in *. lia.
    + destruct (binary_round prec emax true m e) as [s'|s'| |s' m' e'];
        try contradiction.
      * split; [reflexivity|]. split; [reflexivity|]. simpl in *. lia.
      * destruct Le as (-> & V & B). split; [exact V|]. split; [reflexivity|].
        pose proof (S _ V). cbn [ival] in *. lia.
Qed.

Lemma valid_exponent (s : bool) (m : positive) (e : Z) :
  valid (S754_finite s m e) -> -1074 <= e <= 971.
Proof.
  intros [C B]%valid_finite.
  destruct (canonical_facts _ _ (Pos2Z.is_pos m) C) as (L & _). lia.
Qed.

Lemma aligned_value (s : bool) (m : positive) (e ez : Z) :
  -1074 <= ez -> ez <= e ->
  cond_Zopp s (Z.pos (shl_align m e ez).1) * 2 ^ (ez + 1074) =
  ival (S754_finite s m e).
Proof.
  intros L H. destruct (shl_align_spec m e ez) as [_ E]. rewrite E.
  rewrite Z.min_r by lia. cbn [ival].
  replace (e + 1074) with ((e - ez) + (ez + 1074)) by lia.
  rewrite (pow2_add (e - ez) (ez + 1074)) by lia.
  destruct s; simpl cond_Zopp; [|ring].
  replace (Z.neg m) with (- Z.pos m) by reflexivity. ring.
Qed.

Lemma ival_opp (x : number) : ival (SFopp x) = - ival x.
Proof.
  destruct x as [| | |[] m e]; try reflexivity; cbn [SFopp ival negb].
  - replace (Z.neg m) with (- Z.pos m) by reflexivity. ring.
  - replace (Z.neg m) with (- Z.pos m) by reflexivity. ring.
Qed.

(** A sum of two finite numbers lies between any two numbers its exact
    value lies between. *)
Lemma add_sandwich (x y lo hi : number) :
  valid x -> valid y -> isFinite x = true -> isFinite y = true ->
  valid lo -> valid hi -> isFinite lo = true -> isFinite hi = true ->
  ival lo <= ival x + ival y <= ival hi ->
  valid (add x y) /\ isFinite (add x y) = true /\
  ival lo <= ival (add x y) <= ival hi.
Proof.
  intros Vx Vy Fx Fy Vlo Vhi Flo Fhi H. unfold add.
  destruct x as [sx|sx| |sx mx ex]; try discriminate;
    destruct y as [sy|sy| |sy my ey]; try discriminate.
  - destruct sx, sy; simpl in *; auto.
  - cbn [SFadd]. cbn [ival] in H |- *. split; [exact Vy|]. split; [reflexivity|]. lia.
  - cbn [SFadd]. cbn [ival] in H |- *. split; [exact Vx|]. split; [reflexivity|]. lia.
  - cbn [SFadd].
    destruct (valid_exponent _ _ _ Vx) as [Lx _].
    destruct (valid_exponent _ _ _ Vy) as [Ly _].
    apply normalize_sandwich; try assumption; [lia|].
    rewrite Z.mul_add_distr_r, !aligned_value by lia. exact H.
Qed.

Lemma sub_sandwich (x y lo hi : number) :
  valid x -> valid y -> isFinite x = true -> isFinite y = true ->
  valid lo -> valid hi -> isFinite lo = true -> isFinite hi = true ->
  ival lo <= ival x - ival y <= ival hi ->
  valid (sub x y) /\ isFinite (sub x y) = true /\
  ival lo <= ival (sub x y) <= ival hi.
Proof.
  intros Vx Vy Fx Fy Vlo Vhi Flo Fhi H. unfold sub.
  destruct x as [sx|sx| |sx mx ex]; try discriminate;
    destruct y as [sy|sy| |sy my ey]; try discriminate.
  - destruct sx, sy; simpl in *; auto.
  - cbn [SFsub].
    change (S754_finite (negb sy) my ey) with (SFopp (S754_finite sy my ey)).
    rewrite ival_opp. split; [now apply SFopp_valid|]. split; [reflexivity|].
    cbn [ival] in H |- *. lia.
  - cbn [SFsub]. cbn [ival] in H |- *. split; [exact Vx|]. split; [reflexivity|]. lia.
  - cbn [SFsub].
    destruct (valid_exponent _ _ _ Vx) as [Lx _].
    destruct (valid_exponent _ _ _ Vy) as [Ly _].
    apply normalize_sandwich; try assumption; [lia|].
    rewrite Z.mul_sub_distr_r, !aligned_value by lia. exact H.
Qed.

Lemma new_location_exact (n : Z) : new_location n 0 = loc_Exact.
Proof.
  unfold new_location, new_location_even, new_location_odd.
  destruct (Z.even n); reflexivity.
Qed.

(** The quotient a division hands to the rounding: [m1 * 2^s / m2] at the
    exponent [e1 - e2 - s], aligned low enough for 53 digits. *)
Lemma div_core_spec (m1 e1 m2 e2 : Z) :
  0 < m1 -> 0 < m2 ->
  let '(q, e', l) := SFdiv_core_binary prec emax m1 e1 m2 e2 in
  exists s,
    0 <= s /\ e' = e1 - e2 - s /\ q = (m1 * 2 ^ s) / m2 /\
    ((m1 * 2 ^ s) mod m2 = 0 -> l = loc_Exact) /\
    e' <= fexp prec emax (Zdigits2 q + e') /\
    Z.min (-1074) (e1 - e2) <= e'.
Proof.
  intros H1 H2. unfold SFdiv_core_binary.
  remember (Zdigits2 m1) as d1 eqn:Hd1.
  remember (Zdigits2 m2) as d2 eqn:Hd2.
  remember (Z.min (fexp prec emax (d1 + e1 - (d2 + e2))) (e1 - e2)) as e' eqn:He'.
  remember (e1 - e2 - e') as s eqn:Hs'.
  assert (Hs : 0 <= s) by lia.
  remember (match s with
            | 0 => m1
            | Z.pos _ => Z.shiftl m1 s
            | Z.neg _ => 0
            end) as m' eqn:Hm.
  assert (Hm' : m' = m1 * 2 ^ s).
  { rewrite Hm. clear Hm Hs'. destruct s as [|p|p]; try lia.
    now rewrite Z.shiftl_mul_pow2 by lia. }
  clear Hm.
  assert (P : 0 < 2 ^ s) by (apply Z.pow_pos_nonneg; lia).
  destruct (Z.div_eucl m' m2) as [q r] eqn:Q.
  assert (Hq : q = m' / m2) by (unfold Z.div; now rewrite Q).
  assert (Hr : r = m' mod m2) by (unfold Z.modulo; now rewrite Q).
  assert (0 <= q) by (rewrite Hq; apply Z.div_pos; nia).
  exists s. split; [exact Hs|]. split; [lia|]. split; [now rewrite <- Hm'|].
  split; [rewrite <- Hm', <- Hr; intros ->; apply new_location_exact|].
  split; [|pose proof (fexp_ge (d1 + e1 - (d2 + e2))); lia].
  pose proof (Zdigits2_bounds m1 H1) as [B1 B1'].
  pose proof (Zdigits2_bounds m2 H2) as [B2 B2'].
  rewrite <- Hd1 in B1, B1'. rewrite <- Hd2 in B2, B2'.
  pose proof (Zdigits2_pos m1 H1) as P1. rewrite <- Hd1 in P1.
  pose proof (Zdigits2_pos m2 H2) as P2. rewrite <- Hd2 in P2.
  destruct (Z.eq_dec q 0) as [Z|NZ].
  - rewrite Z. simpl Zdigits2.
    assert (Small : m1 * 2 ^ s < m2).
    { rewrite Z, Hm' in Hq. symmetry in Hq.
      apply Z.div_small_iff in Hq; nia. }
    assert (d1 - 1 + s < d2).
    { destruct (Z.lt_ge_cases (d1 - 1 + s) d2) as [L|L]; [assumption|].
      assert (T : 2 ^ d2 <= 2 ^ (d1 - 1 + s))
        by (apply Z.pow_le_mono_r; lia).
      rewrite Z.pow_add_r in T by lia. nia. }
    fexp_lia.
  - assert (d1 + s - d2 <= Zdigits2 q).
    { destruct (Z.le_gt_cases (d1 + s - d2) 1) as [L|L].
      - pose proof (Zdigits2_pos q ltac:(lia)). lia.
      - apply Zdigits2_ge; [|lia].
        rewrite Hq. apply Z.div_le_lower_bound; [lia|].
        replace (d1 + s - d2 - 1) with ((d1 - 1 + s) - d2) by lia.
        assert (T : m2 * 2 ^ (d1 - 1 + s - d2)
                    <= 2 ^ d2 * 2 ^ (d1 - 1 + s - d2)).
        { apply Z.mul_le_mono_nonneg_r; [|lia].
          apply Z.pow_nonneg; lia. }
        rewrite <- Z.pow_add_r in T by lia.
        replace (d2 + (d1 - 1 + s - d2)) with ((d1 - 1) + s) in T by lia.
        rewrite Z.pow_add_r in T by lia. nia. }
    fexp_lia.
Qed.

(** A quotient by a positive number lies between any two numbers its exact
    value lies between. *)
Lemma div_sandwich (x y lo hi : number) :
  valid x -> valid y -> isFinite x = true -> isFinite y = true ->
  valid lo -> valid hi -> isFinite lo = true -> isFinite hi = true ->
  0 < ival y ->
  ival lo * ival y <= ival x * 2 ^ 1074 <= ival hi * ival y ->
  valid (div x y) /\ isFinite (div x y) = true /\
  ival lo <= ival (div x y) <= ival hi.
Proof.
  intros Vx Vy Fx Fy Vlo Vhi Flo Fhi Py [L U]. unfold div.
  assert (S : forall z, valid z ->
                match z with
                | S754_finite true _ _ => ival z < 0
                | S754_finite false _ _ => 0 < ival z
                | _ => ival z = 0
                end).
  { intros z Vz. pose proof (ival_sign z) as Sz.
    destruct z as [| | |[] m' e']; try exact Sz;
      apply valid_finite in Vz as [Cz _];
      destruct (canonical_facts _ _ (Pos2Z.is_pos _) Cz) as (Lz & _); auto. }
  pose proof (S y Vy) as Sy.
  destruct y as [sy|sy| |[] my ey]; try discriminate; try lia.
  destruct (valid_exponent _ _ _ Vy) as [Ly Uy].
  pose proof (pow2_pos 1074 ltac:(lia)) as PU.
  pose proof (S lo Vlo) as Slo. pose proof (S hi Vhi) as Shi.
  destruct x as [sx|sx| |sx mx ex]; try discriminate.
  - (* a zero *)
    cbn [SFdiv]. split; [reflexivity|]. split; [reflexivity|].
    cbn [ival] in L, U |- *. nia.
  - cbn [SFdiv xorb]. rewrite xorb_false_r.
    destruct (valid_exponent _ _ _ Vx) as [Lx Ux].
    pose proof (div_core_spec (Z.pos mx) ex (Z.pos my) ey
                  (Pos2Z.is_pos _) (Pos2Z.is_pos _)) as D.
    destruct (SFdiv_core_binary prec emax (Z.pos mx) ex (Z.pos my) ey)
      as [[q e'] l].
    destruct D as (s & Hs & He' & Hq & Hl & Al & Lo).
    assert (Hq0 : 0 <= q) by (subst q; apply Z.div_pos; [|lia];
                              pose proof (pow2_pos s Hs); nia).
    pose proof (binary_round_aux_valid sx q e' l Hq0 Al) as V.
    pose proof (binary_round_aux_spec sx q e' l Hq0 Al) as Sp.
    cbv zeta in Sp. destruct Sp as (m2 & mf & ef & _ & _ & _ & _ & Hmf0 & Hcan & E).
    (* the magnitudes, scaled by 2^4000 *)
    set (k := 4000).
    assert (Hk1 : 0 <= k + e') by (subst k; lia).
    pose proof (pow2_pos s Hs) as PS.
    assert (HA : 0 <= Z.pos mx * 2 ^ s) by nia.
    assert (Scale : forall pc ec, -1074 <= ec ->
              (Z.pos mx * 2 ^ (ex + 1074) * 2 ^ 1074
               <= Z.pos pc * 2 ^ (ec + 1074) * (Z.pos my * 2 ^ (ey + 1074)) ->
               Z.pos mx * 2 ^ s * 2 ^ (k + e')
               <= Z.pos my * Z.pos pc * 2 ^ (k + ec)) /\
              (Z.pos pc * 2 ^ (ec + 1074) * (Z.pos my * 2 ^ (ey + 1074))
               <= Z.pos mx * 2 ^ (ex + 1074) * 2 ^ 1074 ->
               Z.pos my * Z.pos pc * 2 ^ (k + ec)
               <= Z.pos mx * 2 ^ s * 2 ^ (k + e'))).
    { intros pc ec Lc.
      assert (E1 : 2 ^ s * 2 ^ (k + e') * 2 ^ (ey + 1074) * 2 ^ 1074
                   = 2 ^ (ex + 1074) * 2 ^ 1074 * 2 ^ k).
      { rewrite <- !pow2_add by (subst k; lia). f_equal. subst k. lia. }
      assert (E2 : 2 ^ (k + ec) * 2 ^ (ey + 1074) * 2 ^ 1074
                   = 2 ^ (ec + 1074) * 2 ^ (ey + 1074) * 2 ^ k).
      { rewrite <- !pow2_add by (subst k; lia). f_equal. subst k. lia. }
      pose proof (pow2_pos (ey + 1074) ltac:(lia)) as P1.
      pose proof (pow2_pos k ltac:(subst k; lia)) as P2.
      pose proof (pow2_pos (k + e') Hk1) as P3.
      pose proof (pow2_pos (k + ec) ltac:(subst k; lia)) as P4.
      pose proof (pow2_pos (ex + 1074) ltac:(lia)) as P5.
      pose proof (pow2_pos (ec + 1074) ltac:(lia)) as P6.
      set (T := 2 ^ (ey + 1074) * 2 ^ 1074) in *.
      assert (PT : 0 < T) by (subst T; nia).
      split; intros Hv.
      - apply (Z.mul_le_mono_pos_r _ _ T PT).
        replace (Z.pos mx * 2 ^ s * 2 ^ (k + e') * T)
          with (Z.pos mx * (2 ^ s * 2 ^ (k + e') * 2 ^ (ey + 1074) * 2 ^ 1074))
          by (subst T; ring).
        replace (Z.pos my * Z.pos pc * 2 ^ (k + ec) * T)
          with (Z.pos my * Z.pos pc * (2 ^ (k + ec) * 2 ^ (ey + 1074) * 2 ^ 1074))
          by (subst T; ring).
        rewrite E1, E2. nia.
      - apply (Z.mul_le_mono_pos_r _ _ T PT).
        replace (Z.pos mx * 2 ^ s * 2 ^ (k + e') * T)
          with (Z.pos mx * (2 ^ s * 2 ^ (k + e') * 2 ^ (ey + 1074) * 2 ^ 1074))
          by (subst T; ring).
        replace (Z.pos my * Z.pos pc * 2 ^ (k + ec) * T)
          with (Z.pos my * Z.pos pc * (2 ^ (k + ec) * 2 ^ (ey + 1074) * 2 ^ 1074))
          by (subst T; ring).
        rewrite E1, E2. nia. }
    assert (LeB : forall pc ec, valid (S754_finite false pc ec) ->
              Z.pos mx * 2 ^ (ex + 1074) * 2 ^ 1074
              <= Z.pos pc * 2 ^ (ec + 1074) * (Z.pos my * 2 ^ (ey + 1074)) ->
              match binary_round_aux prec emax sx q e' l with
              | S754_zero s' => s' = sx
              | S754_finite s' m e =>
                  s' = sx /\ valid (S754_finite s' m e) /\
                  Z.pos m * 2 ^ (e + 1074) <= Z.pos pc * 2 ^ (ec + 1074)
              | _ => False
              end).
    { intros pc ec Vc Hv. destruct (valid_exponent _ _ _ Vc) as [Lc _].
      apply (round_aux_le sx (Z.pos mx * 2 ^ s) (Z.pos my) q e' l pc ec k);
        try assumption; try lia; try (subst k; lia).
      now apply (Scale pc ec Lc). }
    assert (GeB : forall pc ec, valid (S754_finite false pc ec) ->
              Z.pos pc * 2 ^ (ec + 1074) * (Z.pos my * 2 ^ (ey + 1074))
              <= Z.pos mx * 2 ^ (ex + 1074) * 2 ^ 1074 ->
              match binary_round_aux prec emax sx q e' l with
              | S754_infinity s' => s' = sx
              | S754_finite s' m e =>
                  s' = sx /\ valid (S754_finite s' m e) /\
                  Z.pos pc * 2 ^ (ec + 1074) <= Z.pos m * 2 ^ (e + 1074)
              | _ => False
              end).
    { intros pc ec Vc Hv. destruct (valid_exponent _ _ _ Vc) as [Lc _].
      apply (round_aux_ge sx (Z.pos mx * 2 ^ s) (Z.pos my) q e' l pc ec k);
        try assumption; try lia; try (subst k; lia).
      now apply (Scale pc ec Lc). }
    clear Scale.
    pose proof (pow2_pos (ex + 1074) ltac:(lia)) as PX.
    pose proof (pow2_pos (ey + 1074) ltac:(lia)) as PY.
    cbn [ival] in L, U, Py.
    destruct sx.
    + (* a negative numerator *)
      replace (Z.neg mx) with (- Z.pos mx) in L, U by reflexivity.
      assert (Hlo : exists pc ec, lo = S754_finite true pc ec).
      { destruct lo as [| | |[] pc ec]; try discriminate; eauto; exfalso; nia. }
      destruct Hlo as (pc & ec & ->).
      assert (Vlo' : valid (S754_finite false pc ec)) by exact Vlo.
      cbn [ival] in L. replace (Z.neg pc) with (- Z.pos pc) in L by reflexivity.
      pose proof (LeB pc ec Vlo' ltac:(nia)) as Le.
      destruct hi as [sh|sh| |[] ph eh]; try discriminate.
      * destruct (binary_round_aux prec emax true q e' l) as [s'|s'| |s' m' e0];
          try contradiction.
        -- split; [reflexivity|]. split; [reflexivity|]. cbn [ival]. lia.
        -- destruct Le as (-> & V' & B). split; [exact V'|]. split; [reflexivity|].
           pose proof (S _ V'). cbn [ival] in *.
           replace (Z.neg m') with (- Z.pos m') by reflexivity.
           replace (Z.neg pc) with (- Z.pos pc) by reflexivity. lia.
      * assert (Vhi' : valid (S754_finite false ph eh)) by exact Vhi.
        cbn [ival] in U. replace (Z.neg ph) with (- Z.pos ph) in U by reflexivity.
        pose proof (GeB ph eh Vhi' ltac:(nia)) as Ge.
        destruct (binary_round_aux prec emax true q e' l) as [s'|s'| |s' m' e0];
          try contradiction.
        destruct Le as (-> & V' & B). destruct Ge as (_ & _ & B').
        split; [exact V'|]. split; [reflexivity|]. cbn [ival].
        replace (Z.neg m') with (- Z.pos m') by reflexivity.
        replace (Z.neg pc) with (- Z.pos pc) by reflexivity.
        replace (Z.neg ph) with (- Z.pos ph) by reflexivity. lia.
      * destruct (binary_round_aux prec emax true q e' l) as [s'|s'| |s' m' e0];
          try contradiction.
        -- split; [reflexivity|]. split; [reflexivity|].
           pose proof (S _ Vhi). cbn [ival] in *. lia.
        -- destruct Le as (-> & V' & B). split; [exact V'|]. split; [reflexivity|].
           pose proof (S _ V'). pose proof (S _ Vhi). cbn [ival] in *.
           replace (Z.neg m') with (- Z.pos m') by reflexivity.
           replace (Z.neg pc) with (- Z.pos pc) by reflexivity. lia.
    + (* a positive numerator *)
      assert (Hhi : exists pc ec, hi = S754_finite false pc ec).
      { destruct hi as [| | |[] pc ec]; try discriminate; eauto; exfalso;
          cbn [ival] in *; nia. }
      destruct Hhi as (pc & ec & ->).
      cbn [ival] in U.
      pose proof (LeB pc ec Vhi ltac:(nia)) as Le.
      destruct lo as [sl|sl| |[] pl el]; try discriminate.
      * destruct (binary_round_aux prec emax false q e' l) as [s'|s'| |s' m' e0];
          try contradiction.
        -- split; [reflexivity|]. split; [reflexivity|]. cbn [ival]. lia.
        -- destruct Le as (-> & V' & B). split; [exact V'|]. split; [reflexivity|].
           pose proof (S _ V'). cbn [ival] in *. lia.
      * destruct (binary_round_aux prec emax false q e' l) as [s'|s'| |s' m' e0];
          try contradiction.
        -- split; [reflexivity|]. split; [reflexivity|].
           pose proof (S _ Vlo). cbn [ival] in *. lia.
        -- destruct Le as (-> & V' & B). split; [exact V'|]. split; [reflexivity|].
           pose proof (S _ V'). pose proof (S _ Vlo). cbn [ival] in *. lia.
      * cbn [ival] in L.
        pose proof (GeB pl el Vlo ltac:(nia)) as Ge.
        destruct (binary_round_aux prec emax false q e' l) as [s'|s'| |s' m' e0];
          try contradiction.
        destruct Le as (-> & V' & B). destruct Ge as (_ & _ & B').
        split; [exact V'|]. split; [reflexivity|]. cbn [ival]. lia.
Qed.

(** ** Exact results *)

Lemma binary_round_exact (s : bool) (m : positive) (e : Z) :
  -1074 <= e -> Zdigits2 (Z.pos m) <= 53 -> Zdigits2 (Z.pos m) + e <= 1024 ->
  exists m' e',
    binary_round prec emax s m e = S754_finite s m' e' /\
    valid (S754_finite s m' e') /\
    Z.pos m' * 2 ^ (e' + 1074) = Z.pos m * 2 ^ (e + 1074).
Proof.
  intros He Hd Hmax. unfold binary_round.
  pose proof (shl_align_spec m e (fexp prec emax (Z.pos (digits2_pos m) + e)))
    as [E2 E1].
  destruct (shl_align m e (fexp prec emax (Z.pos (digits2_pos m) + e)))
    as [mz ez]. simpl in E1, E2.
  change (Z.pos (digits2_pos m)) with (Zdigits2 (Z.pos m)) in *.
  pose proof (Zdigits2_pos (Z.pos m) (Pos2Z.is_pos m)) as Dp.
  assert (Ez : ez = fexp prec emax (Zdigits2 (Z.pos m) + e)) by fexp_lia.
  assert (Dz : Zdigits2 (Z.pos mz) + ez = Zdigits2 (Z.pos m) + e).
  { rewrite E1, Zdigits2_mul_pow2 by lia. lia. }
  assert (Cz : fexp prec emax (Zdigits2 (Z.pos mz) + ez) = ez)
    by (rewrite Dz; now symmetry).
  assert (Lz : -1074 <= ez) by (rewrite Ez; apply fexp_ge).
  destruct (binary_round_aux_spec s (Z.pos mz) ez loc_Exact ltac:(lia) ltac:(lia))
    as (m2 & mf & ef & Hm2 & Hexact & Hef & Hmf & Hmf0 & Hcan & ->).
  rewrite Cz, Z.sub_diag, Z.pow_0_r, Z.div_1_r, Z.add_0_r in *.
  assert (M2 : m2 = Z.pos mz) by (apply Hexact; [reflexivity | apply Z.mod_1_r]).
  assert (P : 0 < mf).
  { destruct (Z.eq_dec mf 0) as [Z0|]; [|lia]. rewrite Z0 in Hmf. lia. }
  destruct Hcan as [Hcan|Hcan]; [lia|].
  assert (V : mf * 2 ^ (ef + 1074) = Z.pos mz * 2 ^ (ez + 1074)).
  { replace (ef + 1074) with ((ef - ez) + (ez + 1074)) by lia.
    rewrite (pow2_add (ef - ez) (ez + 1074)) by lia.
    rewrite Z.mul_assoc, Hmf, M2. reflexivity. }
  pose proof (proj1 (canonical_order mf ef (Z.pos mz) ez P (Pos2Z.is_pos _)
                       Hcan Cz) ltac:(lia)) as O1.
  pose proof (proj1 (canonical_order (Z.pos mz) ez mf ef (Pos2Z.is_pos _) P
                       Cz Hcan) ltac:(lia)) as O2.
  assert (ef = ez /\ mf = Z.pos mz) as [-> ->] by lia.
  assert (B : ez <= 971) by fexp_lia.
  replace (ez <=? emax - prec) with true
    by (symmetry; apply Z.leb_le; unfold emax, prec; lia).
  exists mz, ez. split; [reflexivity|]. split.
  - apply valid_finite. split; assumption.
  - rewrite E1, <- Z.mul_assoc, <- pow2_add by lia. f_equal. f_equal. lia.
Qed.

(** Every integer of at most 53 bits, scaled by a power of two within
    range, is the value of a well-formed number. *)
Lemma representable (z e : Z) :
  -1074 <= e -> Z.abs z < 2 ^ 53 -> Zdigits2 (Z.abs z) + e <= 1024 ->
  let c := binary_normalize prec emax z e false in
  valid c /\ isFinite c = true /\ ival c = z * 2 ^ (e + 1074).
Proof.
  intros He Hz Hd c. subst c.
  destruct z as [|m|m]; cbn [binary_normalize].
  - repeat split.
  - simpl Z.abs in *.
    assert (D : Zdigits2 (Z.pos m) <= 53) by (apply Zdigits2_le; lia).
    destruct (binary_round_exact false m e He D Hd) as (m' & e' & -> & V & E).
    split; [exact V|]. split; [reflexivity|]. exact E.
  - simpl Z.abs in *.
    assert (D : Zdigits2 (Z.pos m) <= 53) by (apply Zdigits2_le; lia).
    destruct (binary_round_exact true m e He D Hd) as (m' & e' & -> & V & E).
    split; [exact V|]. split; [reflexivity|]. cbn [ival].
    replace (Z.neg m') with (- Z.pos m') by reflexivity.
    replace (Z.neg m) with (- Z.pos m) by reflexivity. lia.
Qed.

Lemma of_Z_exact (z : Z) :
  Z.abs z < 2 ^ 53 ->
  valid (of_Z z) /\ isFinite (of_Z z) = true /\ ival (of_Z z) = z * 2 ^ 1074.
Proof.
  intros Hz. apply (representable z 0); try lia.
  assert (Zdigits2 (Z.abs z) <= 53) by (apply Zdigits2_le; lia). lia.
Qed.

(** Two well-formed finite numbers of the same value are the same number,
    up to the sign of zero. *)
Lemma ival_inj (x y : number) :
  valid x -> valid y -> isFinite x = true -> isFinite y = true ->
  ival x = ival y -> ival x <> 0 -> x = y.
Proof.
  intros Vx Vy Fx Fy E N.
  pose proof (proj2 (proj2 (lex_ival x y Vx Vy Fx Fy)) E) as (A & B & C).
  destruct x as [| | |sx mx ex], y as [| | |sy my ey]; try discriminate;
    try (now destruct N); cbn [r1 r2 r3] in *;
    destruct sx, sy; try lia; f_equal; lia.
Qed.

(** The double of a number that is not huge. *)
Lemma double_representable (x : number) :
  valid x -> isFinite x = true -> Z.abs (ival x) < 2 ^ 1023 * 2 ^ 1074 ->
  exists c, valid c /\ isFinite c = true /\ ival c = 2 * ival x.
Proof.
  intros V F B. destruct x as [sx| | |sx m e]; try discriminate.
  - exists (S754_zero sx). repeat split.
  - pose proof V as V'. apply valid_finite in V' as [C Bd].
    destruct (canonical_facts _ _ (Pos2Z.is_pos m) C) as (L & U & _).
    pose proof (Zdigits2_bounds (Z.pos m) (Pos2Z.is_pos m)) as [D1 D2].
    pose proof (Zdigits2_pos (Z.pos m) (Pos2Z.is_pos m)) as Dp.
    assert (Dd : Zdigits2 (Z.pos m) + e <= 1023).
    { destruct (Z.le_gt_cases (Zdigits2 (Z.pos m) + e) 1023) as [?|G]; [assumption|].
      exfalso.
      assert (T : 2 ^ 1023 * 2 ^ 1074 <= Z.pos m * 2 ^ (e + 1074)).
      { assert (X : 2 ^ (1023 + 1074 + 1) <= 2 ^ (Zdigits2 (Z.pos m) + (e + 1074)))
          by (apply Z.pow_le_mono_r; lia).
        rewrite (pow2_add (Zdigits2 (Z.pos m)) (e + 1074)) in X by lia.
        rewrite <- (pow2_add 1023 1074) by lia.
        rewrite (pow2_add (1023 + 1074) 1) in X by lia. change (2 ^ 1) with 2 in X.
        pose proof (pow2_pos (e + 1074) ltac:(lia)).
        replace (2 ^ Zdigits2 (Z.pos m))
          with (2 * 2 ^ (Zdigits2 (Z.pos m) - 1)) in X.
        2:{ rewrite <- (Z.pow_succ_r 2) by lia. f_equal. lia. }
        nia. }
      cbn [ival] in B. destruct sx.
      - replace (Z.neg m) with (- Z.pos m) in B by reflexivity.
        pose proof (pow2_pos (e + 1074) ltac:(lia)). nia.
      - pose proof (pow2_pos (e + 1074) ltac:(lia)). nia. }
    destruct (representable (if sx then Z.neg m else Z.pos m) (e + 1))
      as (Vc & Fc & Ec).
    + lia.
    + destruct sx; simpl; lia.
    + destruct sx;
        [change (Z.abs (Z.neg m)) with (Z.pos m)
        |change (Z.abs (Z.pos m)) with (Z.pos m)]; lia.
    + eexists. split; [exact Vc|]. split; [exact Fc|]. rewrite Ec. cbn [ival].
      replace (e + 1 + 1074) with (1 + (e + 1074)) by lia.
      rewrite (pow2_add 1 (e + 1074)) by lia. change (2 ^ 1) with 2. ring.
Qed.

(** ** The numbers of the render plan *)

Lemma lit_exact (z : Z) :
  Z.abs z < 2 ^ 53 ->
  valid (lit z) /\ isFinite (lit z) = true /\ ival (lit z) = z * 2 ^ 1074.
Proof. apply of_Z_exact. Qed.

(** Comparisons of well-formed finite numbers, as comparisons of values. *)
Lemma le_ival_false (x y : number) :
  valid x -> valid y -> isFinite x = true -> isFinite y = true ->
  (le x y = false <-> ival y < ival x).
Proof.
  intros Vx Vy Fx Fy. pose proof (le_ival x y Vx Vy Fx Fy) as [H1 H2].
  destruct (le x y).
  - specialize (H1 eq_refl). split; [discriminate | lia].
  - split; [intros _ | reflexivity].
    destruct (Z.le_gt_cases (ival x) (ival y)) as [L|L]; [|assumption].
    now specialize (H2 L).
Qed.

Lemma lt_ival_false (x y : number) :
  valid x -> valid y -> isFinite x = true -> isFinite y = true ->
  (lt x y = false <-> ival y <= ival x).
Proof.
  intros Vx Vy Fx Fy. pose proof (lt_ival x y Vx Vy Fx Fy) as [H1 H2].
  destruct (lt x y).
  - specialize (H1 eq_refl). split; [discriminate | lia].
  - split; [intros _ | reflexivity].
    destruct (Z.lt_ge_cases (ival x) (ival y)) as [L|L]; [|assumption].
    now specialize (H2 L).
Qed.

(** A resolved duration and the resolved fields, as values. *)
Lemma duration_value (req : request) (probe : list child_event) (dur : number) :
  resolveDuration req probe = Some dur ->
  valid dur /\ isFinite dur = true /\
  60 * 2 ^ 1074 <= ival dur <= 7200 * 2 ^ 1074.
Proof.
  intros H. pose proof (resolveDuration_valid req probe dur H) as V.
  destruct (resolveDuration_range req probe dur H) as (F & L & U).
  destruct (of_Z_exact 60 ltac:(lia)) as (V1 & F1 & E1).
  destruct (of_Z_exact 7200 ltac:(lia)) as (V2 & F2 & E2).
  apply (le_ival minDuration dur V1 V F1 F) in L.
  apply (le_ival dur maxDuration V V2 F F2) in U.
  split; [exact V|]. split; [exact F|].
  unfold minDuration, maxDuration in *. lia.
Qed.

Lemma input_value (b : gmap string string) (f : field) :
  let r := resolved f (parseInputs b) in
  valid r /\ isFinite r = true /\
  (if f is Carrier then 100 else 0) * 2 ^ 1074 <= ival r <=
  (match f with
   | Carrier => 1000
   | BeatStart | BeatEnd => 40
   | ToneGain | MusicGain => 1
   | FadeSec => 10
   end) * 2 ^ 1074.
Proof.
  intros r. subst r.
  pose proof (inputs_valid b f) as V.
  destruct (inputs_finite b f) as [F _].
  destruct (resolved_in_range b f) as [L U].
  assert (G : forall lo hi, Z.abs lo < 2 ^ 53 -> Z.abs hi < 2 ^ 53 ->
              minOf f = of_Z lo -> maxOf f = of_Z hi ->
              lo * 2 ^ 1074 <= ival (resolved f (parseInputs b)) <= hi * 2 ^ 1074).
  { intros lo hi Hlo Hhi E1 E2. rewrite E1 in L. rewrite E2 in U.
    destruct (of_Z_exact lo Hlo) as (V1 & F1 & <-).
    destruct (of_Z_exact hi Hhi) as (V2 & F2 & <-).
    apply (le_ival _ _ V1 V F1 F) in L. apply (le_ival _ _ V V2 F F2) in U.
    lia. }
  split; [exact V|]. split; [exact F|].
  destruct f; apply G; try reflexivity; lia.
Qed.

(** X5: the fade-out of the tone starts at [dur - fadeSec] exactly, at least
    50 seconds in and after the fade-in has ended: the guard
    [Math.max(0, ...)] never applies to a resolved duration. *)
Theorem fades_do_not_overlap
    (req : request) (probe : list child_event) (dur : number)
    (Hdur : resolveDuration req probe = Some dur) :
  let fade := fadeSec (parseInputs (body req)) in
  let start := Math_max (lit 0) (sub dur fade) in
  start = sub dur fade /\ isFinite start = true /\
  le (lit 50) start = true /\ le start dur = true /\ lt fade start = true.
Proof.
  intros fade start.
  destruct (duration_value req probe dur Hdur) as (Vd & Fd & Ld & Ud).
  destruct (input_value (body req) FadeSec) as (Vf & Ff & Lf & Uf).
  cbv zeta in Vf, Ff, Lf, Uf. cbn [resolved] in Vf, Ff, Lf, Uf.
  fold fade in Vf, Ff, Lf, Uf.
  destruct (lit_exact 50 ltac:(lia)) as (V50 & F50 & E50).
  destruct (lit_exact 0 ltac:(lia)) as (V0 & F0 & E0).
  pose proof (pow2_pos 1074 ltac:(lia)) as PU.
  destruct (sub_sandwich dur fade (lit 50) dur Vd Vf Fd Ff V50 Vd F50 Fd
              ltac:(lia)) as (Vs & Fs & Ls & Us).
  assert (E : start = sub dur fade).
  { subst start.
    destruct (Math_max_cases (lit 0) (sub dur fade)
                (isFinite_notNaN _ F0) (isFinite_notNaN _ Fs)) as [[E _]|[_ M]];
      [exact E|exfalso].
    destruct (lex_ival (sub dur fade) (lit 0) Vs V0 Fs F0) as [A _].
    destruct (lex_ival (lit 0) (sub dur fade) V0 Vs F0 Fs) as [_ B].
    destruct M as [M|[M _]]; [apply A in M | apply B in M]; lia. }
  rewrite E. split; [reflexivity|]. split; [exact Fs|].
  split; [apply le_ival; try assumption; lia|].
  split; [apply le_ival; try assumption; lia|].
  apply lt_ival; try assumption; lia.
Qed.

Lemma fades_witness :
  let req := {| body := {[ "fadeSec" := "10"; "durationSec" := "1" ]};
                file := None |} in
  resolveDuration req [] = Some (lit 60) /\
  Math_max (lit 0) (sub (lit 60) (fadeSec (parseInputs (body req)))) = lit 50.
Proof.
  intros req.
  assert (H : resolveDuration req [] = Some (lit 60)) by (vm_compute; reflexivity).
  destruct (fades_do_not_overlap req [] (lit 60) H) as (E & _).
  split; [exact H|]. rewrite E. vm_compute. reflexivity.
Defined.

(** X6: the slope of the beat ramp is a finite number between -1 and 1 Hz
    per second whose sign is the direction of the ramp, so the tone
    expression never contains [NaN] or [Infinity]. *)
Theorem slope_is_finite
    (req : request) (probe : list child_event) (dur : number)
    (Hdur : resolveDuration req probe = Some dur) :
  let i := parseInputs (body req) in
  let k := slope (beatStart i) (beatEnd i) dur in
  isFinite k = true /\ le (lit (-1)) k = true /\ le k (lit 1) = true /\
  (le (beatStart i) (beatEnd i) = true -> le (lit 0) k = true) /\
  (le (beatEnd i) (beatStart i) = true -> le k (lit 0) = true).
Proof.
  intros i k.
  destruct (duration_value req probe dur Hdur) as (Vd & Fd & Ld & Ud).
  destruct (input_value (body req) BeatStart) as (Vs & Fs & Ls & Us).
  destruct (input_value (body req) BeatEnd) as (Ve & Fe & Le & Ue).
  cbv zeta in Vs, Fs, Ls, Us, Ve, Fe, Le, Ue.
  cbn [resolved] in Vs, Fs, Ls, Us, Ve, Fe, Le, Ue.
  fold i in Vs, Fs, Ls, Us, Ve, Fe, Le, Ue.
  destruct (lit_exact 40 ltac:(lia)) as (V40 & F40 & E40).
  destruct (lit_exact (-40) ltac:(lia)) as (Vm40 & Fm40 & Em40).
  destruct (lit_exact 1 ltac:(lia)) as (V1 & F1 & E1).
  destruct (lit_exact (-1) ltac:(lia)) as (Vm1 & Fm1 & Em1).
  destruct (lit_exact 0 ltac:(lia)) as (V0 & F0 & E0).
  pose proof (pow2_pos 1074 ltac:(lia)) as PU.
  set (U := 2 ^ 1074) in *.
  destruct (sub_sandwich (beatEnd i) (beatStart i) (lit (-40)) (lit 40)
              Ve Vs Fe Fs Vm40 V40 Fm40 F40 ltac:(lia)) as (Vx & Fx & Lx & Ux).
  assert (Pd : 0 < ival dur) by lia.
  destruct (div_sandwich (sub (beatEnd i) (beatStart i)) dur (lit (-1)) (lit 1)
              Vx Vd Fx Fd Vm1 V1 Fm1 F1 Pd ltac:(fold U; nia))
    as (Vk & Fk & Lk & Uk).
  fold (slope (beatStart i) (beatEnd i) dur) in Vk, Fk, Lk, Uk. fold k in Vk, Fk, Lk, Uk.
  split; [exact Fk|].
  split; [apply le_ival; try assumption; lia|].
  split; [apply le_ival; try assumption; lia|].
  split.
  - intros H. apply (le_ival _ _ Vs Ve Fs Fe) in H.
    destruct (sub_sandwich (beatEnd i) (beatStart i) (lit 0) (lit 40)
                Ve Vs Fe Fs V0 V40 F0 F40 ltac:(lia)) as (_ & _ & Lx' & _).
    destruct (div_sandwich (sub (beatEnd i) (beatStart i)) dur (lit 0) (lit 1)
                Vx Vd Fx Fd V0 V1 F0 F1 Pd ltac:(fold U; nia))
      as (_ & _ & Lk' & _).
    apply le_ival; try assumption.
  - intros H. apply (le_ival _ _ Ve Vs Fe Fs) in H.
    destruct (sub_sandwich (beatEnd i) (beatStart i) (lit (-40)) (lit 0)
                Ve Vs Fe Fs Vm40 V0 Fm40 F0 ltac:(lia)) as (_ & _ & _ & Ux').
    destruct (div_sandwich (sub (beatEnd i) (beatStart i)) dur (lit (-1)) (lit 0)
                Vx Vd Fx Fd Vm1 V0 Fm1 F0 Pd ltac:(fold U; nia))
      as (_ & _ & _ & Uk').
    apply le_ival; try assumption.
Qed.

Lemma slope_witness :
  let req := {| body := {[ "beatStart" := "0"; "beatEnd" := "40";
                           "durationSec" := "60" ]};
                file := None |} in
  let i := parseInputs (body req) in
  resolveDuration req [] = Some (lit 60) /\
  isFinite (slope (beatStart i) (beatEnd i) (lit 60)) = true.
Proof.
  intros req i.
  assert (H : resolveDuration req [] = Some (lit 60)) by (vm_compute; reflexivity).
  split; [exact H|].
  exact (proj1 (slope_is_finite req [] (lit 60) H)).
Defined.

Ltac ivalify H :=
  first [ apply le_ival in H; [|assumption..]
        | apply le_ival_false in H; [|assumption..]
        | apply lt_ival in H; [|assumption..]
        | apply lt_ival_false in H; [|assumption..] ].

(** X7: the average beat is a finite number in [0,40] that lies between the
    two beats, so the band label is never computed from NaN, and it is
    [Custom] exactly when the average exceeds 20. *)
Theorem avgBeat_between (b : gmap string string) :
  let i := parseInputs b in
  let a := avgBeat i in
  isFinite a = true /\ le (lit 0) a = true /\ le a (lit 40) = true /\
  (le (beatStart i) (beatEnd i) = true ->
     le (beatStart i) a = true /\ le a (beatEnd i) = true) /\
  (le (beatEnd i) (beatStart i) = true ->
     le (beatEnd i) a = true /\ le a (beatStart i) = true) /\
  (bandLabel a = "Custom" <-> lt (lit 20) a = true).
Proof.
  intros i a.
  destruct (input_value b BeatStart) as (Vs & Fs & Ls & Us).
  destruct (input_value b BeatEnd) as (Ve & Fe & Le & Ue).
  cbv zeta in Vs, Fs, Ls, Us, Ve, Fe, Le, Ue.
  cbn [resolved] in Vs, Fs, Ls, Us, Ve, Fe, Le, Ue.
  fold i in Vs, Fs, Ls, Us, Ve, Fe, Le, Ue.
  destruct (lit_exact 0 ltac:(lia)) as (V0 & F0 & E0).
  destruct (lit_exact 2 ltac:(lia)) as (V2 & F2 & E2).
  destruct (lit_exact 40 ltac:(lia)) as (V40 & F40 & E40).
  destruct (lit_exact 80 ltac:(lia)) as (V80 & F80 & E80).
  pose proof (pow2_pos 1074 ltac:(lia)) as PU.
  set (U := 2 ^ 1074) in *.
  destruct (add_sandwich (beatStart i) (beatEnd i) (lit 0) (lit 80)
              Vs Ve Fs Fe V0 V80 F0 F80 ltac:(lia)) as (Vx & Fx & Lx & Ux).
  assert (P2 : 0 < ival (lit 2)) by lia.
  destruct (div_sandwich (add (beatStart i) (beatEnd i)) (lit 2) (lit 0) (lit 40)
              Vx V2 Fx F2 V0 V40 F0 F40 P2 ltac:(fold U; nia))
    as (Va & Fa & La & Ua).
  fold (avgBeat i) in Va, Fa, La, Ua. fold a in Va, Fa, La, Ua.
  assert (Small : forall x, valid x -> isFinite x = true ->
                            0 <= ival x <= 40 * U ->
                            Z.abs (ival x) < 2 ^ 1023 * 2 ^ 1074).
  { intros x _ _ Hx. fold U.
    assert (40 < 2 ^ 1023) by (apply (Z.lt_le_trans _ (2 ^ 6)); [reflexivity|];
                               apply Z.pow_le_mono_r; lia).
    rewrite Z.abs_eq by lia. nia. }
  assert (Between : forall lo hi,
            valid lo -> isFinite lo = true -> 0 <= ival lo <= 40 * U ->
            valid hi -> isFinite hi = true -> 0 <= ival hi <= 40 * U ->
            2 * ival lo <= ival (beatStart i) + ival (beatEnd i) <= 2 * ival hi ->
            le lo a = true /\ le a hi = true).
  { intros lo hi Vl Fl Bl Vh Fh Bh H.
    destruct (double_representable lo Vl Fl (Small lo Vl Fl Bl)) as (c1 & Vc1 & Fc1 & Ec1).
    destruct (double_representable hi Vh Fh (Small hi Vh Fh Bh)) as (c2 & Vc2 & Fc2 & Ec2).
    destruct (add_sandwich (beatStart i) (beatEnd i) c1 c2
                Vs Ve Fs Fe Vc1 Vc2 Fc1 Fc2 ltac:(lia)) as (_ & _ & Lx' & Ux').
    destruct (div_sandwich (add (beatStart i) (beatEnd i)) (lit 2) lo hi
                Vx V2 Fx F2 Vl Vh Fl Fh P2 ltac:(fold U; nia))
      as (_ & _ & La' & Ua').
    fold (avgBeat i) in La', Ua'. fold a in La', Ua'.
    split; apply le_ival; assumption. }
  split; [exact Fa|].
  split; [apply le_ival; try assumption; lia|].
  split; [apply le_ival; try assumption; lia|].
  split; [|split].
  - intros H. ivalify H. apply Between; try assumption; lia.
  - intros H. ivalify H. apply Between; try assumption; lia.
  - destruct (lit_exact 4 ltac:(lia)) as (V4 & F4 & E4).
    destruct (lit_exact 8 ltac:(lia)) as (V8 & F8 & E8).
    destruct (lit_exact 12 ltac:(lia)) as (V12 & F12 & E12).
    destruct (lit_exact 20 ltac:(lia)) as (V20 & F20 & E20).
    unfold bandLabel.
    change (ge a (lit 12)) with (le (lit 12) a).
    change (ge a (lit 8)) with (le (lit 8) a).
    change (ge a (lit 4)) with (le (lit 4) a).
    destruct (lt (lit 20) a) eqn:T; ivalify T;
      destruct (le (lit 12) a) eqn:C1; ivalify C1;
      destruct (le a (lit 20)) eqn:C2; ivalify C2;
      destruct (le (lit 8) a) eqn:C3; ivalify C3;
      destruct (lt a (lit 12)) eqn:C4; ivalify C4;
      destruct (le (lit 4) a) eqn:C5; ivalify C5;
      destruct (lt a (lit 8)) eqn:C6; ivalify C6;
      destruct (lt a (lit 4)) eqn:C7; ivalify C7;
      cbn [andb]; try lia; split; intros; try reflexivity; try discriminate.
Qed.

(* ================================================================== *)
(** ** verify_beats.js: the command line *)
(* ================================================================== *)

Import VerifyBeats.

Example parseArgs_examples :
  parseArgs ["-f"; "a.wav"; "--seconds=5"; "--bandMin"; "200"] !! "seconds" = Some (VNum (of_Z 5)) /\
  parseArgs ["-f"; "a.wav"; "--seconds=5"; "--bandMin"; "200"] !! "bandMin" = Some (VNum (of_Z 200)) /\
  parseArgs ["-f"; "a.wav"; "--seconds=5"; "--bandMin"; "200"] !! "file" = Some (VStr "a.wav") /\
  parseArgs ["a.wav"; "b.wav"] !! "file" = Some (VStr "a.wav") /\
  parseArgs ["--verbose"; "-s"; "5"; "a.wav"] !! "seconds" = Some (VNum (of_Z 10)) /\
  parseArgs ["--verbose"; "-s"; "5"; "a.wav"] !! "file" = Some (VStr "5") /\
  parseArgs ["-s"; "abc"] !! "seconds" = Some (VNum NaN) /\
  main ["--help"; "a.wav"] = (true, Exit 1) /\
  fst (main ["a.wav"; "--help"]) = true.
Proof. vm_compute. repeat split; reflexivity. Qed.

Lemma before_eq_append (k r : string) :
  countChar "=" k = 0%nat -> before_eq (k +:+ String "=" r) = k.
Proof.
  induction k as [|c k IH]; intros H.
  - reflexivity.
  - rewrite append_cons. simpl in *.
    destruct (Ascii.eqb c "="); [discriminate|]. now rewrite IH.
Qed.

Lemma after_eq_append (k r : string) :
  countChar "=" k = 0%nat -> after_eq (k +:+ String "=" r) = Some r.
Proof.
  induction k as [|c k IH]; intros H.
  - reflexivity.
  - rewrite append_cons. simpl in *.
    destruct (Ascii.eqb c "="); [discriminate|]. now apply IH.
Qed.

Lemma before_eq_none (k : string) :
  countChar "=" k = 0%nat -> before_eq k = k /\ after_eq k = None.
Proof.
  induction k as [|c k IH]; intros H; [split; reflexivity|].
  simpl in *. destruct (Ascii.eqb c "="); [discriminate|].
  destruct (IH H) as [-> ->]. split; reflexivity.
Qed.

Lemma split2_long (k : string) :
  countChar "=" k = 0%nat ->
  split2 ("--" +:+ k) = ("--" +:+ k, None) /\
  (forall v r, countChar "=" v = 0%nat ->
     split2 ("--" +:+ k +:+ "=" +:+ v) = ("--" +:+ k, Some v) /\
     split2 ("--" +:+ k +:+ "=" +:+ v +:+ "=" +:+ r) = ("--" +:+ k, Some v)).
Proof.
  intros H.
  assert (H' : countChar "=" ("--" +:+ k) = 0%nat) by exact H.
  split.
  - unfold split2. now destruct (before_eq_none _ H') as [-> ->].
  - intros v r Hv. unfold split2.
    rewrite <- !(append_assoc "--" k).
    change ("=" +:+ v +:+ "=" +:+ r) with (String "=" (v +:+ String "=" r)).
    change ("=" +:+ v) with (String "=" v).
    rewrite !before_eq_append, !after_eq_append by assumption. simpl.
    rewrite before_eq_append by assumption.
    now destruct (before_eq_none _ Hv) as [-> _].
Qed.

(** X8: how a long option takes its value.  [--key=value] stores the value,
    dropping anything from a second [=] on; [--key value] stores the same;
    but when the next argument starts with a dash, or there is none, the
    option is set to ['true'] and that next argument is skipped, not read as
    an option. *)
Theorem long_option_value
    (out : gmap string value) (k v : string) (rest : list string)
    (Hk : countChar "=" k = 0%nat) :
  (countChar "=" v = 0%nat ->
     parseLoop out (("--" +:+ k +:+ "=" +:+ v) :: rest)
       = parseLoop (assign k (numeric v) out) rest /\
     forall r, parseLoop out (("--" +:+ k +:+ "=" +:+ v +:+ "=" +:+ r) :: rest)
                 = parseLoop (assign k (numeric v) out) rest) /\
  (startsWith "-" v = false ->
     parseLoop out (("--" +:+ k) :: v :: rest)
       = parseLoop (assign k (numeric v) out) rest) /\
  (startsWith "-" v = true ->
     parseLoop out (("--" +:+ k) :: v :: rest)
       = parseLoop (assign k (VStr "true") out) rest) /\
  parseLoop out ["--" +:+ k] = assign k (VStr "true") out.
Proof.
  destruct (split2_long k Hk) as [S0 S1].
  split; [|split; [|split]].
  - intros Hv. destruct (S1 v "" Hv) as [S2 _].
    split.
    + cbn [parseLoop].
      change (startsWith "--" ("--" +:+ k +:+ "=" +:+ v)) with true.
      cbv iota. rewrite S2. reflexivity.
    + intros r. destruct (S1 v r Hv) as [_ S3]. cbn [parseLoop].
      change (startsWith "--" ("--" +:+ k +:+ "=" +:+ v +:+ "=" +:+ r)) with true.
      cbv iota. rewrite S3. reflexivity.
  - intros Hv. cbn [parseLoop].
    change (startsWith "--" ("--" +:+ k)) with true. cbv iota.
    rewrite S0, Hv. reflexivity.
  - intros Hv. cbn [parseLoop].
    change (startsWith "--" ("--" +:+ k)) with true. cbv iota.
    rewrite S0, Hv. reflexivity.
  - cbn [parseLoop].
    change (startsWith "--" ("--" +:+ k)) with true. cbv iota.
    rewrite S0. reflexivity.
Qed.

Lemma long_option_witness :
  parseArgs ["--minBeat=4=x"; "--maxBeat"; "-f"; "a.wav"] =
  <["file" := VStr "a.wav"]>
    (<["maxBeat" := VStr "true"]> (<["minBeat" := VNum (of_Z 4)]> defaults)).
Proof.
  unfold parseArgs.
  destruct (long_option_value defaults "minBeat" "4" ["--maxBeat"; "-f"; "a.wav"]
              eq_refl) as (F1 & _).
  destruct (F1 eq_refl) as [_ E1].
  destruct (long_option_value (assign "minBeat" (numeric "4") defaults)
              "maxBeat" "-f" ["a.wav"] eq_refl) as (_ & _ & E2 & _).
  exact (eq_trans (E1 "x") (E2 eq_refl)).
Defined.

Lemma startsWith_dashes (a : string) :
  startsWith "-" a = false -> startsWith "--" a = false.
Proof.
  destruct a as [|c a]; [reflexivity|]. unfold startsWith.
  cbn [strip_prefix]. destruct (Ascii.eqb "-" c); [intros [=] | reflexivity].
Qed.

Lemma parseLoop_positional (out : gmap string value) (a : string)
    (rest : list string) :
  startsWith "-" a = false ->
  parseLoop out (a :: rest) =
  parseLoop (if truthy (out !! "file") then out else <["file" := VStr a]> out)
            rest.
Proof.
  intros H. cbn [parseLoop]. now rewrite (startsWith_dashes a H), H.
Qed.

(** Once a file is set, further plain arguments are ignored. *)
Lemma positionals_ignored (out : gmap string value) (args : list string) :
  Forall (fun a => startsWith "-" a = false) args ->
  truthy (out !! "file") = true -> parseLoop out args = out.
Proof.
  intros H T. induction H as [|a args Ha _ IH]; [reflexivity|].
  rewrite parseLoop_positional, T by assumption. exact IH.
Qed.

(** X9: among plain arguments only the first non-empty one counts: it
    becomes the file to analyse, the others are ignored, and the analysis
    runs without printing the help. *)
Theorem first_positional_is_the_file
    (empties : list string) (a : string) (others : list string)
    (Hempties : Forall (fun e => e = "") empties)
    (Ha : a <> "" /\ startsWith "-" a = false)
    (Hothers : Forall (fun o => startsWith "-" o = false) others) :
  parseArgs (empties ++ a :: others) = <["file" := VStr a]> defaults /\
  main (empties ++ a :: others) =
    (false, Analyze (Some (VStr a)) (<["file" := VStr a]> defaults)).
Proof.
  destruct Ha as [Na Da].
  assert (P : parseArgs (empties ++ a :: others) = <["file" := VStr a]> defaults).
  { unfold parseArgs.
    assert (G : forall out, truthy (out !! "file") = false ->
                parseLoop out (empties ++ a :: others) = <["file" := VStr a]> out).
    { induction Hempties as [|e empties -> _ IH]; intros out T.
      - simpl app. rewrite parseLoop_positional, T by assumption.
        apply positionals_ignored; [assumption|].
        rewrite lookup_insert_eq. destruct a; [now destruct Na | reflexivity].
      - simpl app. rewrite parseLoop_positional, T by reflexivity.
        rewrite IH by (now rewrite lookup_insert_eq).
        apply insert_insert_eq. }
    apply G. reflexivity. }
  split; [exact P|]. unfold main. rewrite P. cbv zeta.
  rewrite lookup_insert_eq.
  assert (T : truthy (Some (VStr a)) = true)
    by (destruct a; [now destruct Na | reflexivity]).
  rewrite T. reflexivity.
Qed.

Lemma first_positional_witness :
  main [""; "tone.wav"; "other.wav"; ""] =
  (false, Analyze (Some (VStr "tone.wav")) (<["file" := VStr "tone.wav"]> defaults)).
Proof.
  refine (proj2 (first_positional_is_the_file [""] "tone.wav" ["other.wav"; ""]
                   _ _ _)).
  - repeat constructor.
  - split; [discriminate | reflexivity].
  - repeat constructor.
Defined.

(** The invariant of the loop: the five analysis options stay defined, and
    a number stored under a key other than [seconds] is not NaN. *)
Lemma parseLoop_invariant (out : gmap string value) (argv : list string) :
  (forall key n, out !! key = Some (VNum n) -> key <> "seconds" ->
                 isNaN n = false) ->
  (forall key, is_Some (defaults !! key) -> is_Some (out !! key)) ->
  (forall key n, parseLoop out argv !! key = Some (VNum n) ->
                 key <> "seconds" -> isNaN n = false) /\
  (forall key, is_Some (defaults !! key) ->
               is_Some (parseLoop out argv !! key)).
Proof.
  assert (A : forall key v (o : gmap string value),
            (forall k n, o !! k = Some (VNum n) -> k <> "seconds" ->
                         isNaN n = false) ->
            (forall k, is_Some (defaults !! k) -> is_Some (o !! k)) ->
            (forall k n, assign key (numeric v) o !! k = Some (VNum n) ->
                         k <> "seconds" -> isNaN n = false) /\
            (forall k, is_Some (defaults !! k) ->
                       is_Some (assign key (numeric v) o !! k))).
  { intros key v o I1 I2. unfold assign.
    destruct (String.eqb key "__proto__"); [split; assumption|]. split.
    - intros k n. destruct (decide (key = k)) as [->|N].
      + rewrite lookup_insert_eq. unfold numeric.
        destruct (isNaN (Number (Some v))) eqn:E; [discriminate|].
        intros [= <-] _. exact E.
      + rewrite lookup_insert_ne by assumption. apply I1.
    - intros k Hk. destruct (decide (key = k)) as [->|N].
      + rewrite lookup_insert_eq. eauto.
      + rewrite lookup_insert_ne by assumption. now apply I2. }
  assert (B : forall key v (o : gmap string value),
            (forall k n, o !! k = Some (VNum n) -> k <> "seconds" ->
                         isNaN n = false) ->
            (forall k, is_Some (defaults !! k) -> is_Some (o !! k)) ->
            (forall k n, store key v o !! k = Some (VNum n) ->
                         k <> "seconds" -> isNaN n = false) /\
            (forall k, is_Some (defaults !! k) ->
                       is_Some (store key v o !! k))).
  { intros key v o I1 I2. unfold store.
    destruct (String.eqb key "f"); [|destruct (String.eqb key "s")];
      [| |now apply A]; split.
    - intros k n. destruct (decide ("file" = k)) as [<-|N].
      + rewrite lookup_insert_eq. discriminate.
      + rewrite lookup_insert_ne by assumption. apply I1.
    - intros k Hk. destruct (decide ("file" = k)) as [<-|N].
      + rewrite lookup_insert_eq. eauto.
      + rewrite lookup_insert_ne by assumption. now apply I2.
    - intros k n. destruct (decide ("seconds" = k)) as [<-|N].
      + intros _ C. now destruct C.
      + rewrite lookup_insert_ne by assumption. apply I1.
    - intros k Hk. destruct (decide ("seconds" = k)) as [<-|N].
      + rewrite lookup_insert_eq. eauto.
      + rewrite lookup_insert_ne by assumption. now apply I2. }
  remember (length argv) as len eqn:Hlen.
  revert out argv Hlen.
  induction len as [len IH] using lt_wf_ind. intros out argv Hlen I1 I2.
  destruct argv as [|a rest]; [split; assumption|].
  cbn [parseLoop].
  destruct (startsWith "--" a).
  - destruct (split2 a) as [k [v|]].
    + destruct (A (strip2 k) v out I1 I2) as [J1 J2].
      apply (IH (length rest)); simpl in *; try lia; auto.
    + destruct rest as [|n rest'].
      * apply (A (strip2 k) "true" out I1 I2).
      * destruct (A (strip2 k) (if startsWith "-" n then "true" else n) out I1 I2)
          as [J1 J2].
        apply (IH (length rest')); simpl in *; try lia; auto.
  - destruct (startsWith "-" a).
    + destruct rest as [|n rest'].
      * apply (B _ "true" out I1 I2).
      * destruct (B (strip_dashes a) n out I1 I2) as [J1 J2].
        apply (IH (length rest')); simpl in *; try lia; auto.
    + apply (IH (length rest)); simpl in *; try lia; auto.
      * destruct (truthy (out !! "file")); [assumption|].
        intros k n. destruct (decide ("file" = k)) as [<-|N].
        -- rewrite lookup_insert_eq. discriminate.
        -- rewrite lookup_insert_ne by assumption. apply I1.
      * destruct (truthy (out !! "file")); [assumption|].
        intros k Hk. destruct (decide ("file" = k)) as [<-|N].
        -- rewrite lookup_insert_eq. eauto.
        -- rewrite lookup_insert_ne by assumption. now apply I2.
Qed.

(** X10: whatever the arguments, the parsed options still define the five
    analysis settings, and no option but [seconds] (through [-s]) ever
    holds NaN: a value that is not numeric is kept as its text. *)
Theorem parsed_options_are_usable (argv : list string) :
  (forall key, In key ["seconds"; "bandMin"; "bandMax"; "minBeat"; "maxBeat"] ->
               is_Some (parseArgs argv !! key)) /\
  (forall key n, parseArgs argv !! key = Some (VNum n) ->
                 isNaN n = true -> key = "seconds") /\
  parseArgs ["-s"; "ten"] !! "seconds" = Some (VNum NaN) /\
  parseArgs ["--seconds"; "ten"] !! "seconds" = Some (VStr "ten").
Proof.
  destruct (parseLoop_invariant defaults argv) as [I1 I2].
  - intros key n H N.
    assert (D : forall k, In k ["seconds"; "bandMin"; "bandMax"; "minBeat"; "maxBeat"]
                \/ defaults !! k = None).
    { intros k. unfold defaults.
      destruct (decide (k = "seconds")) as [->|N1]; [left; simpl; auto 10|].
      destruct (decide (k = "bandMin")) as [->|N2]; [left; simpl; auto 10|].
      destruct (decide (k = "bandMax")) as [->|N3]; [left; simpl; auto 10|].
      destruct (decide (k = "minBeat")) as [->|N4]; [left; simpl; auto 10|].
      destruct (decide (k = "maxBeat")) as [->|N5]; [left; simpl; auto 10|].
      right. now rewrite !lookup_insert_ne, lookup_singleton_ne by congruence. }
    destruct (D key) as [I|E]; [|rewrite E in H; discriminate].
    simpl in I.
    destruct I as [<-|[<-|[<-|[<-|[<-|[]]]]]]; try (now destruct N);
      vm_compute in H; injection H as <-; reflexivity.
  - auto.
  - split; [|split; [|split; vm_compute; reflexivity]].
    + intros key I. apply I2. simpl in I.
      destruct I as [<-|[<-|[<-|[<-|[<-|[]]]]]]; vm_compute; eauto.
    + intros key n H N. destruct (decide (key = "seconds")) as [E|NE]; [exact E|].
      rewrite (I1 key n H NE) in N. discriminate.
Qed.

(* ================================================================== *)
(** ** verify_beats.js: collecting the audio to analyse *)
(* ================================================================== *)

Example targetBytes_examples :
  targetBytesOf wav48 (of_Z 10) = of_Z 2880000 /\
  targetBytesOf wav48 (dec 15 (-1)) = of_Z 432000 /\
  targetBytesOf wav48 (dec 1 (-5)) = of_Z 6 /\
  targetBytesOf wav48 NaN = NaN /\
  targetBytesOf wav48 (of_Z 0) = of_Z 0 /\
  targetBytesOf {| sampleRate := 44100; channels := 2; bitDepth := 32; audioFormat := 3 |} (of_Z 10) = of_Z 3528000 /\
  targetBytesOf {| sampleRate := 44100; channels := 2; bitDepth := 0; audioFormat := 3 |} (of_Z 10) = of_Z 3528000 /\
  targetBytesOf {| sampleRate := 8000; channels := 1; bitDepth := 12; audioFormat := 1 |} (of_Z 1) = of_Z 12000.
Proof. vm_compute. repeat split; reflexivity. Qed.

Example read_examples :
  let small := {| sampleRate := 2; channels := 2; bitDepth := 16; audioFormat := 1 |} in
  targetBytesOf small (of_Z 1) = of_Z 8 /\
  map (fun a => length (fst a)) (analyses (read (of_Z 1) [Format small; Data (bytes 5); Data (bytes 5); Data (bytes 5); End])) = [8%nat] /\
  map (fun a => length (fst a)) (analyses (read (of_Z 1) [Format small; Data (bytes 5); End])) = [5%nat] /\
  map (fun a => length (fst a)) (analyses (read (of_Z 1) [Format small; Data (bytes 8); Data (bytes 1)])) = [8%nat] /\
  map (fun a => length (fst a)) (analyses (read (of_Z 0) [Format small; Data (bytes 5); Data (bytes 5)])) = [5%nat] /\
  map (fun a => length (fst a)) (analyses (read NaN [Format small; Data (bytes 5); Data (bytes 5); End])) = [10%nat] /\
  map (fun a => length (fst a)) (analyses (read (of_Z 1) [Data (bytes 5); End])) = [].
Proof. vm_compute. repeat split; reflexivity. Qed.

(** ** Whole numbers *)

Lemma of_Z_unique (x : number) (n : Z) :
  valid x -> isFinite x = true -> Z.abs n < 2 ^ 53 -> n <> 0 ->
  ival x = n * 2 ^ 1074 -> x = of_Z n.
Proof.
  intros V F Hn N E. destruct (of_Z_exact n Hn) as (V' & F' & E').
  pose proof (pow2_pos 1074 ltac:(lia)).
  apply ival_inj; try assumption; [lia | nia].
Qed.

Lemma of_Z_0 : of_Z 0 = pos_zero.
Proof. reflexivity. Qed.

Lemma sub_of_Z (a b : Z) :
  Z.abs a < 2 ^ 53 -> Z.abs b < 2 ^ 53 -> Z.abs (a - b) < 2 ^ 53 -> a <> b ->
  sub (of_Z a) (of_Z b) = of_Z (a - b).
Proof.
  intros Ha Hb Hc N.
  destruct (of_Z_exact a Ha) as (Va & Fa & Ea).
  destruct (of_Z_exact b Hb) as (Vb & Fb & Eb).
  destruct (of_Z_exact (a - b) Hc) as (Vc & Fc & Ec).
  destruct (sub_sandwich (of_Z a) (of_Z b) (of_Z (a - b)) (of_Z (a - b))
              Va Vb Fa Fb Vc Vc Fc Fc ltac:(lia)) as (V & F & L & U).
  apply of_Z_unique; try assumption; lia.
Qed.

Lemma add_of_Z (a b : Z) :
  0 <= a -> 0 <= b -> a + b < 2 ^ 53 ->
  add (of_Z a) (of_Z b) = of_Z (a + b).
Proof.
  intros Ha Hb Hc.
  destruct (Z.eq_dec (a + b) 0) as [Z0|N].
  - assert (a = 0) by lia. assert (b = 0) by lia. subst. reflexivity.
  - destruct (of_Z_exact a ltac:(lia)) as (Va & Fa & Ea).
    destruct (of_Z_exact b ltac:(lia)) as (Vb & Fb & Eb).
    destruct (of_Z_exact (a + b) ltac:(lia)) as (Vc & Fc & Ec).
    destruct (add_sandwich (of_Z a) (of_Z b) (of_Z (a + b)) (of_Z (a + b))
                Va Vb Fa Fb Vc Vc Fc Fc ltac:(lia)) as (V & F & L & U).
    apply of_Z_unique; try assumption; lia.
Qed.

Lemma lt_of_Z (a b : Z) :
  Z.abs a < 2 ^ 53 -> Z.abs b < 2 ^ 53 ->
  lt (of_Z a) (of_Z b) = (a <? b).
Proof.
  intros Ha Hb.
  destruct (of_Z_exact a Ha) as (Va & Fa & Ea).
  destruct (of_Z_exact b Hb) as (Vb & Fb & Eb).
  pose proof (pow2_pos 1074 ltac:(lia)).
  destruct (a <? b) eqn:C.
  - apply Z.ltb_lt in C. apply lt_ival; try assumption. nia.
  - apply Z.ltb_ge in C. apply lt_ival_false; try assumption. nia.
Qed.

Lemma le_of_Z (a b : Z) :
  Z.abs a < 2 ^ 53 -> Z.abs b < 2 ^ 53 ->
  le (of_Z a) (of_Z b) = (a <=? b).
Proof.
  intros Ha Hb.
  destruct (of_Z_exact a Ha) as (Va & Fa & Ea).
  destruct (of_Z_exact b Hb) as (Vb & Fb & Eb).
  pose proof (pow2_pos 1074 ltac:(lia)).
  destruct (a <=? b) eqn:C.
  - apply Z.leb_le in C. apply le_ival; try assumption. nia.
  - apply Z.leb_gt in C. apply le_ival_false; try assumption. nia.
Qed.

(** A positive whole number, as the parts of a number. *)
Lemma of_Z_pos (n : Z) :
  0 < n < 2 ^ 53 ->
  exists m e, of_Z n = S754_finite false m e /\ -1074 <= e /\
              Z.pos m * 2 ^ (e + 1074) = n * 2 ^ 1074.
Proof.
  intros Hn. destruct (of_Z_exact n ltac:(lia)) as (V & F & E).
  pose proof (pow2_pos 1074 ltac:(lia)) as PU.
  pose proof (ival_sign (of_Z n)) as S.
  destruct (of_Z n) as [| | |[] m e]; try discriminate; cbn [ival] in E;
    try nia.
  destruct (valid_exponent _ _ _ V) as [L _]. eauto.
Qed.

Lemma Math_max_0_of_Z (n : Z) :
  0 < n < 2 ^ 53 -> Math_max (of_Z 0) (of_Z n) = of_Z n.
Proof.
  intros Hn. destruct (of_Z_pos n Hn) as (m & e & -> & _). reflexivity.
Qed.

Lemma truthy_of_Z (n : Z) : 0 < n < 2 ^ 53 -> truthyNumber (of_Z n) = true.
Proof.
  intros Hn. destruct (of_Z_pos n Hn) as (m & e & -> & _). reflexivity.
Qed.

Lemma subarrayEnd_of_Z (n len : Z) :
  0 < n < 2 ^ 53 -> n <= len -> subarrayEnd (of_Z n) len = n.
Proof.
  intros Hn Hl. destruct (of_Z_pos n Hn) as (m & e & -> & L & E).
  unfold subarrayEnd.
  assert (A : (if 0 <=? e then Z.pos m * 2 ^ e else Z.pos m / 2 ^ (- e)) = n).
  { destruct (0 <=? e) eqn:C.
    - apply Z.leb_le in C. rewrite (pow2_add e 1074) in E by lia.
      pose proof (pow2_pos 1074 ltac:(lia)). nia.
    - apply Z.leb_gt in C.
      replace 1074 with ((- e) + (e + 1074)) in E at 2 by lia.
      rewrite (pow2_add (- e) (e + 1074)) in E by lia.
      pose proof (pow2_pos (e + 1074) ltac:(lia)).
      pose proof (pow2_pos (- e) ltac:(lia)).
      assert (Z.pos m = n * 2 ^ (- e)) as -> by nia.
      apply Z.div_mul. lia. }
  rewrite A. lia.
Qed.

Lemma analyzed_stays (seconds : number) (evs : list reader_event) (st : reader) :
  analyzed st = true ->
  analyzed (fold_left (reader_step seconds) evs st) = true /\
  analyses (fold_left (reader_step seconds) evs st) = analyses st.
Proof.
  revert st. induction evs as [|ev evs IH]; intros st H; [auto|].
  simpl. destruct ev as [f|chunk|]; simpl.
  - exact (IH {| fmt := Some f; targetBytes := targetBytesOf f seconds;
                 chunks := chunks st; collected := collected st;
                 analyzed := analyzed st; analyses := analyses st |} H).
  - rewrite H. now apply IH.
  - rewrite H. now apply IH.
Qed.

Lemma tryAnalyze_once (st : reader) :
  (analyzed st = false -> analyses st = []) ->
  (length (analyses st) <= 1)%nat ->
  (analyzed (tryAnalyze st) = false -> analyses (tryAnalyze st) = []) /\
  (length (analyses (tryAnalyze st)) <= 1)%nat.
Proof.
  intros I1 I2. unfold tryAnalyze.
  destruct (analyzed st) eqn:A.
  - rewrite A. split; [discriminate | exact I2].
  - destruct (fmt st).
    + simpl. rewrite (I1 eq_refl). simpl. split; [discriminate | lia].
    + rewrite A. split; [exact I1 | exact I2].
Qed.

Lemma reader_step_once (seconds : number) (st : reader) (ev : reader_event) :
  (analyzed st = false -> analyses st = []) ->
  (length (analyses st) <= 1)%nat ->
  (analyzed (reader_step seconds st ev) = false ->
   analyses (reader_step seconds st ev) = []) /\
  (length (analyses (reader_step seconds st ev)) <= 1)%nat.
Proof.
  intros I1 I2. destruct ev as [f|chunk|]; cbn [reader_step].
  - split; [exact I1 | exact I2].
  - destruct (analyzed st) eqn:A;
      [split; [intros E; rewrite E in A; discriminate | exact I2]|].
    cbv zeta.
    match goal with
    | |- context [if ?c then tryAnalyze ?s else _] =>
        destruct c; [apply tryAnalyze_once|]; cbn [analyzed analyses];
        rewrite ?A; auto
    end.
  - destruct (analyzed st) eqn:A;
      [split; [intros E; rewrite E in A; discriminate | exact I2]|].
    apply tryAnalyze_once; [intros _; now apply I1 | exact I2].
Qed.

(** X11: whatever the reader reports, and in whatever order, the analysis
    runs at most once for a file. *)
Theorem analysis_runs_at_most_once
    (seconds : number) (evs : list reader_event) :
  (length (analyses (read seconds evs)) <= 1)%nat /\
  (analyzed (read seconds evs) = false -> analyses (read seconds evs) = []).
Proof.
  unfold read.
  assert (G : forall st,
             (analyzed st = false -> analyses st = []) ->
             (length (analyses st) <= 1)%nat ->
             (analyzed (fold_left (reader_step seconds) evs st) = false ->
              analyses (fold_left (reader_step seconds) evs st) = []) /\
             (length (analyses (fold_left (reader_step seconds) evs st)) <= 1)%nat).
  { induction evs as [|ev evs IH]; intros st I1 I2; [auto|].
    simpl. destruct (reader_step_once seconds st ev I1 I2) as [J1 J2].
    now apply IH. }
  destruct (G opened) as [A B]; [reflexivity | simpl; lia |].
  split; assumption.
Qed.

Lemma data_below (seconds : number) (st : reader) (f : format)
    (T c : Z) (chunk : list Byte.byte) :
  fmt st = Some f -> targetBytes st = of_Z T -> analyzed st = false ->
  collected st = of_Z c -> 0 <= c ->
  c + Z.of_nat (length chunk) < T -> T < 2 ^ 53 ->
  reader_step seconds st (Data chunk) =
  {| fmt := fmt st; targetBytes := targetBytes st;
     chunks := chunks st ++ [chunk];
     collected := of_Z (c + Z.of_nat (length chunk));
     analyzed := analyzed st; analyses := analyses st |}.
Proof.
  intros Hf Ht Ha Hc C0 Hlen HT. cbn [reader_step]. rewrite Ha. cbv zeta.
  rewrite Ht, Hc.
  rewrite sub_of_Z by lia. rewrite Math_max_0_of_Z by lia.
  rewrite truthy_of_Z by lia. rewrite lt_of_Z by lia.
  replace (T - c <? Z.of_nat (length chunk)) with false
    by (symmetry; apply Z.ltb_ge; lia).
  cbn [andb]. rewrite add_of_Z by lia.
  unfold ge. rewrite le_of_Z by lia.
  replace (T <=? c + Z.of_nat (length chunk)) with false
    by (symmetry; apply Z.leb_gt; lia).
  reflexivity.
Qed.

Lemma data_reach (seconds : number) (st : reader) (f : format)
    (T c : Z) (chunk : list Byte.byte) :
  fmt st = Some f -> targetBytes st = of_Z T -> analyzed st = false ->
  collected st = of_Z c -> 0 <= c -> c < T ->
  T <= c + Z.of_nat (length chunk) -> T < 2 ^ 53 ->
  Z.of_nat (length chunk) < 2 ^ 53 ->
  let slice := firstn (Z.to_nat (T - c)) chunk in
  reader_step seconds st (Data chunk) =
  {| fmt := fmt st; targetBytes := targetBytes st;
     chunks := chunks st ++ [slice];
     collected := of_Z T;
     analyzed := true;
     analyses := analyses st ++ [(concat (chunks st ++ [slice]), f)] |}.
Proof.
  intros Hf Ht Ha Hc C0 C1 Hlen HT HL slice. cbn [reader_step]. rewrite Ha.
  cbv zeta. rewrite Ht, Hc.
  rewrite sub_of_Z by lia. rewrite Math_max_0_of_Z by lia.
  rewrite truthy_of_Z by lia. rewrite lt_of_Z by lia. cbn [andb].
  rewrite subarrayEnd_of_Z by lia.
  assert (S : (if T - c <? Z.of_nat (length chunk)
               then firstn (Z.to_nat (T - c)) chunk else chunk) = slice).
  { subst slice. destruct (T - c <? Z.of_nat (length chunk)) eqn:C; [reflexivity|].
    apply Z.ltb_ge in C. symmetry. apply firstn_all2. lia. }
  rewrite S.
  assert (LS : Z.of_nat (length slice) = T - c).
  { subst slice. rewrite length_firstn. lia. }
  rewrite LS, add_of_Z by lia.
  replace (c + (T - c)) with T by lia.
  unfold ge. rewrite le_of_Z by lia. rewrite Z.leb_refl.
  unfold tryAnalyze. cbn [analyzed fmt analyses chunks targetBytes collected].
  rewrite Hf. reflexivity.
Qed.

Lemma concat_snoc {A : Type} (ls : list (list A)) (l : list A) :
  concat (ls ++ [l]) = concat ls ++ l.
Proof. rewrite concat_app. simpl. now rewrite app_nil_r. Qed.

(** The reader while it collects [cs], from a state that holds [c] bytes
    and aims at [T]. *)
Lemma collect (seconds : number) (f : format) (T : Z)
    (cs : list (list Byte.byte)) (st : reader) (c : Z) :
  T < 2 ^ 53 ->
  Forall (fun ch => Z.of_nat (length ch) < 2 ^ 53) cs ->
  fmt st = Some f -> targetBytes st = of_Z T -> analyzed st = false ->
  collected st = of_Z c -> 0 <= c -> c < T ->
  (c + Z.of_nat (length (concat cs)) < T ->
   fold_left (reader_step seconds) (map Data cs) st =
   {| fmt := fmt st; targetBytes := targetBytes st;
      chunks := chunks st ++ cs;
      collected := of_Z (c + Z.of_nat (length (concat cs)));
      analyzed := false; analyses := analyses st |}) /\
  (T <= c + Z.of_nat (length (concat cs)) ->
   forall more,
     analyses (fold_left (reader_step seconds) (map Data cs ++ more) st) =
     analyses st ++
       [(concat (chunks st) ++ firstn (Z.to_nat (T - c)) (concat cs), f)]).
Proof.
  intros HT Hsmall. revert st c.
  induction Hsmall as [|ch cs Hch _ IH]; intros st c Hf Ht Ha Hc C0 C1.
  - simpl. split; [|lia]. intros _. rewrite app_nil_r, Z.add_0_r.
    destruct st; simpl in *. now subst.
  - assert (Lc : length (concat (ch :: cs)) = (length ch + length (concat cs))%nat)
      by (simpl; now rewrite length_app).
    rewrite Lc, Nat2Z.inj_add.
    destruct (Z.lt_ge_cases (c + Z.of_nat (length ch)) T) as [B|R].
    + (* the chunk is taken whole and more is needed *)
      pose proof (data_below seconds st f T c ch Hf Ht Ha Hc C0 B HT) as E.
      cbn [map fold_left app]. rewrite E.
      match goal with
      | |- context [fold_left _ _ ?s] => set (st' := s)
      end.
      destruct (IH st' (c + Z.of_nat (length ch))) as [I1 I2];
        try reflexivity; try assumption; try lia.
      split.
      * intros H. rewrite I1 by lia. subst st'. cbn [fmt targetBytes chunks analyses].
        rewrite <- app_assoc. simpl. f_equal. f_equal. lia.
      * intros H more. rewrite I2 by lia. subst st'. cbn [chunks analyses].
        f_equal. f_equal. f_equal. rewrite concat_snoc, <- app_assoc. f_equal.
        simpl concat. rewrite firstn_app.
        rewrite (firstn_all2 (n := Z.to_nat (T - c)) ch) by lia.
        f_equal. f_equal. lia.
    + (* the target is reached within this chunk *)
      pose proof (data_reach seconds st f T c ch Hf Ht Ha Hc C0 C1 R HT Hch) as E.
      cbv zeta in E. split; [lia|]. intros _ more.
      cbn [map fold_left app]. rewrite E.
      match goal with
      | |- context [fold_left _ _ ?s] => set (st' := s)
      end.
      destruct (analyzed_stays seconds (map Data cs ++ more) st' eq_refl) as [_ ->].
      subst st'. cbn [analyses]. f_equal. f_equal. f_equal.
      rewrite concat_snoc. f_equal. simpl concat. rewrite firstn_app.
      replace (Z.to_nat (T - c) - length ch)%nat with 0%nat by lia.
      simpl. now rewrite app_nil_r.
Qed.

Lemma read_format (seconds : number) (f : format) (evs : list reader_event) :
  read seconds (Format f :: evs) =
  fold_left (reader_step seconds) evs
    {| fmt := Some f; targetBytes := targetBytesOf f seconds; chunks := [];
       collected := of_Z 0; analyzed := false; analyses := [] |}.
Proof. reflexivity. Qed.

(** X12: with a format whose byte target is a whole number [T] of bytes, the
    analysis is run on exactly the first [T] bytes of the audio data as soon
    as they have arrived, however the data is cut into chunks and whatever
    follows; if the data ends before, it is run on all of it at the end, and
    not before. *)
Theorem analysis_reads_a_prefix
    (seconds : number) (f : format) (T : Z) (cs : list (list Byte.byte))
    (Htarget : targetBytesOf f seconds = of_Z T)
    (HT : 0 < T < 2 ^ 53)
    (Hsmall : Forall (fun ch => Z.of_nat (length ch) < 2 ^ 53) cs) :
  let all := concat cs in
  let evs := Format f :: map Data cs in
  (Z.of_nat (length all) < T ->
     analyses (read seconds evs) = [] /\
     analyses (read seconds (evs ++ [End])) = [(all, f)]) /\
  (T <= Z.of_nat (length all) ->
     forall more,
       analyses (read seconds (evs ++ more)) = [(firstn (Z.to_nat T) all, f)]).
Proof.
  intros all evs. subst evs.
  set (st := {| fmt := Some f; targetBytes := targetBytesOf f seconds;
                chunks := []; collected := of_Z 0; analyzed := false;
                analyses := [] |}).
  destruct (collect seconds f T cs st 0 ltac:(lia) Hsmall eq_refl Htarget
              eq_refl eq_refl ltac:(lia) ltac:(lia)) as [C1 C2].
  fold all in C1, C2. rewrite Z.add_0_l, Z.sub_0_r in *.
  split.
  - intros H. specialize (C1 H). split.
    + rewrite read_format. fold st. rewrite C1. reflexivity.
    + change ((Format f :: map Data cs) ++ [End])
        with (Format f :: (map Data cs ++ [End])).
      rewrite read_format. fold st. rewrite fold_left_app, C1. reflexivity.
  - intros H more. specialize (C2 H more).
    change ((Format f :: map Data cs) ++ more)
      with (Format f :: (map Data cs ++ more)).
    rewrite read_format. fold st. rewrite C2. reflexivity.
Qed.

Lemma analysis_prefix_witness :
  let f := {| sampleRate := 2; channels := 2; bitDepth := 16; audioFormat := 1 |} in
  let a := [Byte.x01; Byte.x02; Byte.x03; Byte.x04; Byte.x05] in
  let b := [Byte.x06; Byte.x07; Byte.x08; Byte.x09; Byte.x0a] in
  analyses (read (of_Z 1) ([Format f; Data a; Data b] ++ [Data a; End])) =
  [([Byte.x01; Byte.x02; Byte.x03; Byte.x04; Byte.x05;
     Byte.x06; Byte.x07; Byte.x08], f)].
Proof.
  intros f a b.
  assert (H1 : targetBytesOf f (of_Z 1) = of_Z 8) by (vm_compute; reflexivity).
  assert (H2 : 0 < 8 < 2 ^ 53) by lia.
  assert (H3 : Forall (fun ch : list Byte.byte => Z.of_nat (length ch) < 2 ^ 53)
                 [a; b]) by (repeat constructor).
  destruct (analysis_reads_a_prefix (of_Z 1) f 8 [a; b] H1 H2 H3) as [_ P].
  exact (P ltac:(simpl; lia) [Data a; End]).
Defined.

(** Without a usable target nothing is cut. *)
Lemma collect_all (seconds : number) (cs : list (list Byte.byte)) (st : reader) :
  targetBytes st = NaN -> analyzed st = false ->
  exists c,
    fold_left (reader_step seconds) (map Data cs) st =
    {| fmt := fmt st; targetBytes := targetBytes st; chunks := chunks st ++ cs;
       collected := c; analyzed := false; analyses := analyses st |}.
Proof.
  revert st. induction cs as [|ch cs IH]; intros st Ht Ha.
  - exists (collected st). simpl. rewrite app_nil_r. destruct st; simpl in *.
    now subst.
  - cbn [map fold_left reader_step]. rewrite Ha. cbv zeta. rewrite Ht.
    assert (M : Math_max (of_Z 0) (sub NaN (collected st)) = NaN)
      by (destruct (collected st); reflexivity).
    rewrite M. cbn [truthyNumber andb].
    assert (G : forall x, ge x NaN = false) by (intros x; destruct x; reflexivity).
    rewrite G.
    match goal with
    | |- context [fold_left _ _ ?s] => set (st' := s)
    end.
    destruct (IH st' eq_refl eq_refl) as (c & ->).
    exists c. subst st'. cbn [fmt targetBytes chunks analyses].
    rewrite <- app_assoc. reflexivity.
Qed.

(** X13: the byte target only works when it is a positive number.  When the
    seconds are not a number (as after [-s abc]) the target is NaN and the
    whole file is analysed, at its end; when the target is zero the first
    chunk is analysed whole, not an empty buffer. *)
Theorem analysis_without_a_target
    (seconds : number) (f : format) (cs : list (list Byte.byte)) :
  (targetBytesOf f seconds = NaN ->
     analyses (read seconds (Format f :: map Data cs)) = [] /\
     analyses (read seconds (Format f :: map Data cs ++ [End]))
       = [(concat cs, f)]) /\
  (targetBytesOf f seconds = of_Z 0 ->
     forall ch more, Z.of_nat (length ch) < 2 ^ 53 ->
       analyses (read seconds (Format f :: Data ch :: more)) = [(ch, f)]) /\
  (isNaN seconds = true -> forall g, targetBytesOf g seconds = NaN).
Proof.
  split; [|split].
  - intros Ht.
    set (st := {| fmt := Some f; targetBytes := targetBytesOf f seconds;
                  chunks := []; collected := of_Z 0; analyzed := false;
                  analyses := [] |}).
    destruct (collect_all seconds cs st Ht eq_refl) as (c & E).
    split.
    + rewrite read_format. fold st. rewrite E. reflexivity.
    + rewrite read_format. fold st. rewrite fold_left_app, E. reflexivity.
  - intros Ht ch more Hch. rewrite read_format.
    cbn [fold_left reader_step analyzed targetBytes collected]. cbv zeta.
    rewrite Ht.
    change (Math_max (of_Z 0) (sub (of_Z 0) (of_Z 0))) with pos_zero.
    change (truthyNumber pos_zero) with false. cbn [andb].
    rewrite add_of_Z by lia. unfold ge. rewrite le_of_Z by lia.
    replace (0 <=? 0 + Z.of_nat (length ch)) with true
      by (symmetry; apply Z.leb_le; lia).
    unfold tryAnalyze. cbn [analyzed fmt chunks analyses].
    match goal with
    | |- context [fold_left _ _ ?s] => set (st' := s)
    end.
    destruct (analyzed_stays seconds more st' eq_refl) as [_ ->].
    subst st'. cbn [analyses]. simpl. now rewrite app_nil_r.
  - intros N g. unfold targetBytesOf.
    destruct seconds; try discriminate.
    assert (M : mul (of_Z (sampleRate g)) S754_nan = NaN)
      by (unfold mul; destruct (of_Z (sampleRate g)); reflexivity).
    rewrite M. reflexivity.
Qed.

(* ================================================================== *)
(** ** verify_beats.js: decoding the samples *)
(* ================================================================== *)

(** ** Whole numbers, continued *)

Lemma finite_positive_eq (m1 m2 : positive) (e1 e2 : Z) :
  valid (S754_finite false m1 e1) -> valid (S754_finite false m2 e2) ->
  Z.pos m1 * 2 ^ (e1 + 1074) = Z.pos m2 * 2 ^ (e2 + 1074) ->
  S754_finite false m1 e1 = S754_finite false m2 e2.
Proof.
  intros V1 V2 E.
  destruct (valid_exponent _ _ _ V1) as [L1 _].
  apply ival_inj; try assumption; try reflexivity.
  cbn [ival]. pose proof (pow2_pos (e1 + 1074) ltac:(lia)). nia.
Qed.

Lemma normal_mantissa (m : positive) (e : Z) :
  valid (S754_finite false m e) -> 2 ^ 52 <= Z.pos m * 2 ^ (e + 1074) ->
  2 ^ 52 <= Z.pos m < 2 ^ 53.
Proof.
  intros V H. pose proof V as V'. apply valid_finite in V' as [C _].
  destruct (canonical_facts _ _ (Pos2Z.is_pos m) C) as (L & U & N).
  destruct (Z.eq_dec e (-1074)) as [->|Ne].
  - change (2 ^ (-1074 + 1074)) with 1 in H. lia.
  - specialize (N ltac:(lia)). lia.
Qed.

(** A product of two normal positive numbers that is a number is computed
    exactly. *)
Lemma mul_exact (x y c : number) :
  valid x -> valid y -> valid c ->
  isFinite x = true -> isFinite y = true -> isFinite c = true ->
  2 ^ 52 <= ival x -> 2 ^ 52 <= ival y ->
  ival x * ival y = ival c * 2 ^ 1074 ->
  mul x y = c.
Proof.
  intros Vx Vy Vc Fx Fy Fc Nx Ny I.
  pose proof (pow2_pos 1074 ltac:(lia)) as PU.
  destruct x as [| | |sx ma ea]; try discriminate; cbn [ival] in Nx; try lia.
  destruct y as [| | |sy mc ec]; try discriminate; cbn [ival] in Ny; try lia.
  destruct (valid_exponent _ _ _ Vx) as [La _].
  destruct (valid_exponent _ _ _ Vy) as [Lc _].
  pose proof (pow2_pos (ea + 1074) ltac:(lia)) as PA.
  pose proof (pow2_pos (ec + 1074) ltac:(lia)) as PC.
  destruct sx; [exfalso; nia|]. destruct sy; [exfalso; nia|].
  cbn [ival] in I.
  destruct c as [| | |sp mp ep]; try discriminate; cbn [ival] in I; try nia.
  destruct (valid_exponent _ _ _ Vc) as [Lp _].
  pose proof (pow2_pos (ep + 1074) ltac:(lia)) as PP.
  destruct sp; [exfalso; nia|].
  destruct (normal_mantissa _ _ Vx Nx) as [Na' Ua].
  destruct (normal_mantissa _ _ Vy Ny) as [Nc' Uc].
  unfold mul. cbn [SFmul xorb].
  assert (Dg : 105 <= Zdigits2 (Z.pos (ma * mc))).
  { apply Zdigits2_ge; [|lia]. rewrite Pos2Z.inj_mul.
    change (2 ^ (105 - 1)) with (2 ^ 52 * 2 ^ 52). nia. }
  assert (Al : ea + ec <= fexp prec emax (Zdigits2 (Z.pos (ma * mc)) + (ea + ec)))
    by fexp_lia.
  set (k := 2148).
  assert (Val : Z.pos (ma * mc) * 2 ^ (k + (ea + ec))
                = 1 * Z.pos mp * 2 ^ (k + ep)).
  { rewrite Pos2Z.inj_mul.
    replace (k + (ea + ec)) with ((ea + 1074) + (ec + 1074)) by (subst k; lia).
    replace (k + ep) with ((ep + 1074) + 1074) by (subst k; lia).
    rewrite (pow2_add (ea + 1074) (ec + 1074)), (pow2_add (ep + 1074) 1074) by lia.
    nia. }
  pose proof (round_aux_le false (Z.pos (ma * mc)) 1 (Z.pos (ma * mc)) (ea + ec)
                loc_Exact mp ep k ltac:(lia) ltac:(lia)
                ltac:(now rewrite Z.div_1_r) ltac:(reflexivity) Al Vc
                ltac:(subst k; lia) ltac:(subst k; lia) ltac:(lia)) as Le.
  pose proof (round_aux_ge false (Z.pos (ma * mc)) 1 (Z.pos (ma * mc)) (ea + ec)
                loc_Exact mp ep k ltac:(lia) ltac:(lia)
                ltac:(now rewrite Z.div_1_r) Al Vc
                ltac:(subst k; lia) ltac:(subst k; lia) ltac:(lia)) as Ge.
  destruct (binary_round_aux prec emax false (Z.pos (ma * mc)) (ea + ec) loc_Exact)
    as [s|s| |s m e]; try contradiction.
  destruct Le as (-> & V & B1). destruct Ge as (_ & _ & B2).
  apply finite_positive_eq; try assumption. lia.
Qed.

Lemma mul_of_Z (a c : Z) :
  0 <= a < 2 ^ 53 -> 0 <= c < 2 ^ 53 -> a * c < 2 ^ 53 ->
  mul (of_Z a) (of_Z c) = of_Z (a * c).
Proof.
  intros Ha Hc Hac.
  destruct (Z.eq_dec a 0) as [->|Na].
  { rewrite Z.mul_0_l. change (of_Z 0) with (S754_zero false).
    destruct (Z.eq_dec c 0) as [->|N]; [reflexivity|].
    destruct (of_Z_pos c ltac:(lia)) as (m & e & -> & _). reflexivity. }
  destruct (Z.eq_dec c 0) as [->|Nc].
  { rewrite Z.mul_0_r. change (of_Z 0) with (S754_zero false).
    destruct (of_Z_pos a ltac:(nia)) as (m & e & -> & _). reflexivity. }
  destruct (of_Z_exact a ltac:(lia)) as (Va & Fa & Ia).
  destruct (of_Z_exact c ltac:(lia)) as (Vc & Fc & Ic).
  destruct (of_Z_exact (a * c) ltac:(nia)) as (Vp & Fp & Ip).
  pose proof (pow2_pos 1074 ltac:(lia)) as PU.
  assert (P52 : 2 ^ 52 <= 2 ^ 1074) by (apply Z.pow_le_mono_r; lia).
  apply mul_exact; try assumption;
    [nia | nia | rewrite Ia, Ic, Ip; ring].
Qed.

Lemma integerOf_of_Z (z : Z) :
  0 <= z < 2 ^ 53 -> integerOf (of_Z z) = Some z.
Proof.
  intros Hz. destruct (Z.eq_dec z 0) as [->|N]; [reflexivity|].
  destruct (of_Z_pos z ltac:(lia)) as (m & e & -> & L & E).
  unfold integerOf. destruct (0 <=? e) eqn:C.
  - apply Z.leb_le in C. rewrite (pow2_add e 1074) in E by lia.
    pose proof (pow2_pos 1074 ltac:(lia)). f_equal. nia.
  - apply Z.leb_gt in C.
    replace 1074 with ((- e) + (e + 1074)) in E at 2 by lia.
    rewrite (pow2_add (- e) (e + 1074)) in E by lia.
    pose proof (pow2_pos (e + 1074) ltac:(lia)).
    pose proof (pow2_pos (- e) ltac:(lia)).
    assert (M : Z.pos m = z * 2 ^ (- e)) by nia.
    rewrite M, Z.mod_mul, Z.div_mul by lia. reflexivity.
Qed.

Lemma toIndex_of_Z (z : Z) :
  0 <= z < 2 ^ 53 -> toIndex (of_Z z) = Ok z.
Proof.
  intros Hz. destruct (Z.eq_dec z 0) as [->|N]; [reflexivity|].
  destruct (of_Z_pos z ltac:(lia)) as (m & e & -> & L & E).
  unfold toIndex.
  assert (A : (if 0 <=? e then Z.pos m * 2 ^ e else Z.pos m / 2 ^ (- e)) = z).
  { destruct (0 <=? e) eqn:C.
    - apply Z.leb_le in C. rewrite (pow2_add e 1074) in E by lia.
      pose proof (pow2_pos 1074 ltac:(lia)). nia.
    - apply Z.leb_gt in C.
      replace 1074 with ((- e) + (e + 1074)) in E at 2 by lia.
      rewrite (pow2_add (- e) (e + 1074)) in E by lia.
      pose proof (pow2_pos (e + 1074) ltac:(lia)).
      pose proof (pow2_pos (- e) ltac:(lia)).
      assert (Z.pos m = z * 2 ^ (- e)) as -> by nia.
      apply Z.div_mul. lia. }
  rewrite A. replace (z <? 2 ^ 53) with true by (symmetry; apply Z.ltb_lt; lia).
  reflexivity.
Qed.

(** The whole part of a positive number. *)
Lemma floor_between (x : number) (q : Z) :
  valid x -> isFinite x = true -> 0 <= q < 2 ^ 53 ->
  0 < ival x -> q * 2 ^ 1074 <= ival x < (q + 1) * 2 ^ 1074 ->
  Math_floor x = of_Z q.
Proof.
  intros V F Hq P [L U].
  pose proof (pow2_pos 1074 ltac:(lia)) as PU.
  pose proof (ival_sign x) as S.
  destruct x as [| | |s m e]; try discriminate; cbn [ival] in *; try lia.
  destruct (valid_exponent _ _ _ V) as [Le _].
  pose proof (pow2_pos (e + 1074) ltac:(lia)) as PE.
  destruct s; [exfalso; nia|].
  unfold Math_floor. destruct (0 <=? e) eqn:C.
  - apply Z.leb_le in C. rewrite (pow2_add e 1074) in L, U, P by lia.
    assert (Z.pos m * 2 ^ e = q) by nia.
    assert (q <> 0) by nia.
    apply of_Z_unique; try assumption; try lia. cbn [ival].
    rewrite (pow2_add e 1074) by lia. nia.
  - apply Z.leb_gt in C.
    assert (EQ : 2 ^ 1074 = 2 ^ (- e) * 2 ^ (e + 1074))
      by (rewrite <- (pow2_add (- e) (e + 1074)) by lia; f_equal; lia).
    rewrite EQ in L, U.
    pose proof (pow2_pos (- e) ltac:(lia)).
    assert (D : Z.pos m / 2 ^ (- e) = q).
    { assert (q * 2 ^ (- e) <= Z.pos m)
        by (apply (Z.mul_le_mono_pos_r _ _ (2 ^ (e + 1074))); lia).
      assert (Z.pos m < (q + 1) * 2 ^ (- e))
        by (apply (Z.mul_lt_mono_pos_r (2 ^ (e + 1074))); lia).
      symmetry. apply (Z.div_unique_pos _ _ q (Z.pos m - q * 2 ^ (- e))); lia. }
    rewrite D. destruct (q =? 0) eqn:Q0.
    + apply Z.eqb_eq in Q0. rewrite Q0. reflexivity.
    + reflexivity.
Qed.

(** Whole frames of a buffer: the floor of the quotient of a length by a
    frame size of [w / 4] bytes is the integer quotient. *)
Lemma floor_frames (len w : Z) (y : number) :
  0 <= len < 2 ^ 38 -> 0 < w < 2 ^ 12 ->
  valid y -> isFinite y = true -> ival y = w * 2 ^ 1072 ->
  Math_floor (div (of_Z len) y) = of_Z (4 * len / w).
Proof.
  intros Hl Hw Vy Fy Iy.
  pose proof (pow2_pos 1072 ltac:(lia)) as PW.
  destruct (Z.eq_dec len 0) as [->|N].
  { rewrite Z.mul_0_r, Z.div_0_l by lia. change (of_Z 0) with (S754_zero false).
    destruct y as [| | |s m e]; try discriminate; cbn [ival] in Iy; try nia.
    destruct (valid_exponent _ _ _ Vy) as [Le _].
    pose proof (pow2_pos (e + 1074) ltac:(lia)).
    destruct s; [exfalso; nia|reflexivity]. }
  set (q := 4 * len / w).
  pose proof (Z.div_mod (4 * len) w ltac:(lia)) as DM.
  pose proof (Z.mod_pos_bound (4 * len) w ltac:(lia)) as MB. fold q in DM.
  assert (Hq : 0 <= q < 2 ^ 40).
  { subst q. split; [apply Z.div_pos; lia|].
    apply Z.div_lt_upper_bound; nia. }
  destruct (of_Z_exact len ltac:(lia)) as (Vx & Fx & Ix).
  destruct (of_Z_exact q ltac:(lia)) as (Vq & Fq & Iq).
  pose proof (pow2_pos 1062 ltac:(lia)) as PV.
  assert (U12 : 2 ^ 1074 = 2 ^ 12 * 2 ^ 1062)
    by (rewrite <- (pow2_add 12 1062) by lia; reflexivity).
  assert (U10 : 2 ^ 1072 = 2 ^ 10 * 2 ^ 1062)
    by (rewrite <- (pow2_add 10 1062) by lia; reflexivity).
  destruct (representable 1 (-12) ltac:(lia) ltac:(simpl; lia) ltac:(simpl; lia))
    as (Ve & Fe & Ie).
  assert (Dh : Zdigits2 (Z.abs (2 ^ 12 * q + (2 ^ 12 - 1))) + -12 <= 1024).
  { assert (Zdigits2 (Z.abs (2 ^ 12 * q + (2 ^ 12 - 1))) <= 53)
      by (apply Zdigits2_le; lia). lia. }
  destruct (representable (2 ^ 12 * q + (2 ^ 12 - 1)) (-12) ltac:(lia) ltac:(lia) Dh)
    as (Vh & Fh & Ih).
  change (-12 + 1074) with 1062 in Ie, Ih.
  set (lo1 := binary_normalize prec emax 1 (-12) false) in *.
  set (hi := binary_normalize prec emax (2 ^ 12 * q + (2 ^ 12 - 1)) (-12) false) in *.
  assert (Py : 0 < ival y) by nia.
  assert (S1 : ival lo1 * ival y <= ival (of_Z len) * 2 ^ 1074 <= ival hi * ival y).
  { rewrite Ix, Iy, Ie, Ih, U12, U10. split; nia. }
  assert (S2 : ival (of_Z q) * ival y <= ival (of_Z len) * 2 ^ 1074
               <= ival hi * ival y).
  { rewrite Ix, Iy, Iq, Ih, U12, U10. split; nia. }
  destruct (div_sandwich (of_Z len) y lo1 hi Vx Vy Fx Fy Ve Vh Fe Fh Py S1)
    as (V1 & F1 & L1 & U1).
  destruct (div_sandwich (of_Z len) y (of_Z q) hi Vx Vy Fx Fy Vq Vh Fq Fh Py S2)
    as (_ & _ & L2 & _).
  apply floor_between; try assumption; lia.
Qed.

(** ** Storing a sample in a Float32Array *)

(** A number [a * 2^E0] with fewer than 25 significant bits and an exponent
    in the binary32 range is stored unchanged. *)
Lemma fround_fixed (s : bool) (M : positive) (e a E0 : Z) :
  valid (S754_finite s M e) ->
  Z.pos M * 2 ^ (e + 1074) = a * 2 ^ (E0 + 1074) ->
  0 < a < 2 ^ 24 -> -149 <= E0 <= 104 ->
  fround (S754_finite s M e) = S754_finite s M e.
Proof.
  intros V I Ha HE.
  destruct (valid_exponent _ _ _ V) as [Le Ue].
  pose proof V as V'. apply valid_finite in V' as [C _].
  destruct (canonical_facts _ _ (Pos2Z.is_pos M) C) as (_ & UM & NM).
  pose proof (pow2_pos (e + 1074) ltac:(lia)) as PE.
  pose proof (pow2_pos (E0 + 1074) ltac:(lia)) as PE0.
  assert (Ne : -1074 < e).
  { destruct (Z.eq_dec e (-1074)) as [->|]; [exfalso|lia].
    change (2 ^ (-1074 + 1074)) with 1 in I.
    pose proof (Z.pow_le_mono_r 2 53 (E0 + 1074) ltac:(lia) ltac:(lia)). nia. }
  specialize (NM Ne).
  assert (Dg : Zdigits2 (Z.pos M) = 53).
  { apply Z.le_antisymm; [apply Zdigits2_le; lia | apply Zdigits2_ge; [exact NM|lia]]. }
  assert (HE' : e + 29 <= E0).
  { destruct (Z_le_gt_dec (e + 29) E0) as [|G]; [assumption|exfalso].
    pose proof (Z.pow_le_mono_r 2 (E0 + 1074) (28 + (e + 1074)) ltac:(lia) ltac:(lia)) as P.
    rewrite (pow2_add 28 (e + 1074)) in P by lia.
    assert (Q : a * 2 ^ (E0 + 1074) <= a * (2 ^ 28 * 2 ^ (e + 1074)))
      by (apply Z.mul_le_mono_nonneg_l; lia).
    rewrite <- I, Z.mul_assoc in Q.
    apply Z.mul_le_mono_pos_r in Q; lia. }
  unfold fround. rewrite Dg.
  remember (Z.max (53 + e - 24) (-149)) as E eqn:HEq.
  remember (E - e) as n eqn:Hn.
  assert (HE1 : E <= E0) by lia.
  assert (Hn29 : 29 <= n) by lia.
  pose proof (pow2_pos (E0 - E) ltac:(lia)) as PQ.
  pose proof (pow2_pos n ltac:(lia)) as PN.
  pose proof (pow2_pos (n - 1) ltac:(lia)) as PH.
  assert (HM : Z.pos M = a * 2 ^ (E0 - E) * 2 ^ n).
  { apply (Z.mul_cancel_r _ _ (2 ^ (e + 1074))); [lia|].
    rewrite I, <- !Z.mul_assoc. f_equal.
    rewrite <- (pow2_add n (e + 1074)), <- (pow2_add (E0 - E) (n + (e + 1074))) by lia.
    f_equal. lia. }
  cbv zeta.
  replace (n <=? 0) with false by (symmetry; apply Z.leb_gt; lia).
  rewrite HM, Z.div_mul, Z.mod_mul by lia.
  replace (2 ^ (n - 1) <? 0) with false by (symmetry; apply Z.ltb_ge; lia).
  replace (0 =? 2 ^ (n - 1)) with false by (symmetry; apply Z.eqb_neq; lia).
  cbn [orb andb].
  set (q := a * 2 ^ (E0 - E)) in *.
  assert (Hq : 0 < q) by (subst q; nia).
  replace (q =? 0) with false by (symmetry; apply Z.eqb_neq; lia).
  assert (Ov : q * 2 ^ E < 2 ^ 128).
  { destruct (Z_lt_le_dec E 0) as [N|P].
    - rewrite (Z.pow_neg_r 2 E N). lia.
    - subst q. rewrite <- Z.mul_assoc, <- (pow2_add (E0 - E) E) by lia.
      replace (E0 - E + E) with E0 by lia.
      pose proof (Z.pow_le_mono_r 2 E0 104 ltac:(lia) ltac:(lia)).
      pose proof (pow2_pos E0 ltac:(lia)).
      change (2 ^ 128) with (2 ^ 24 * 2 ^ 104). nia. }
  replace (2 ^ 128 <=? q * 2 ^ E) with false by (symmetry; apply Z.leb_gt; lia).
  assert (Qb : q < 2 ^ 53) by nia.
  assert (Ab : Z.abs (if s then - q else q) = q) by (destruct s; lia).
  assert (Dq : Zdigits2 (Z.abs (if s then - q else q)) + E <= 1024).
  { rewrite Ab. assert (Zdigits2 q <= 53) by (apply Zdigits2_le; lia). lia. }
  destruct (representable (if s then - q else q) E ltac:(lia) ltac:(lia) Dq)
    as (Vc & Fc & Ic).
  assert (P2 : 2 ^ (E + 1074) = 2 ^ n * 2 ^ (e + 1074)).
  { rewrite <- (pow2_add n (e + 1074)) by lia. f_equal. lia. }
  apply ival_inj; try assumption; try reflexivity.
  - rewrite Ic, P2. cbn [ival]. destruct s.
    + change (Z.neg M) with (- Z.pos M). rewrite HM. ring.
    + rewrite HM. ring.
  - rewrite Ic. destruct s; nia.
Qed.

(** An integer sample of up to 32 bits divided by its full scale is exact. *)
Lemma scaled_exact (v k : Z) :
  0 <= k <= 31 -> Z.abs v < 2 ^ 53 ->
  let x := div (of_Z v) (of_Z (2 ^ k)) in
  valid x /\ isFinite x = true /\ ival x * 2 ^ k = v * 2 ^ 1074.
Proof.
  intros Hk Hv x.
  pose proof (pow2_pos k ltac:(lia)) as PK.
  pose proof (Z.pow_le_mono_r 2 k 31 ltac:(lia) ltac:(lia)) as PK31.
  pose proof (pow2_pos 1074 ltac:(lia)) as PU.
  pose proof (pow2_pos (- k + 1074) ltac:(lia)) as PS.
  assert (U : 2 ^ 1074 = 2 ^ k * 2 ^ (- k + 1074)).
  { rewrite <- (pow2_add k (- k + 1074)) by lia. f_equal. lia. }
  destruct (of_Z_exact v ltac:(lia)) as (Vx & Fx & Ix).
  destruct (of_Z_exact (2 ^ k) ltac:(lia)) as (Vy & Fy & Iy).
  assert (Dv : Zdigits2 (Z.abs v) + - k <= 1024).
  { assert (Zdigits2 (Z.abs v) <= 53) by (apply Zdigits2_le; lia). lia. }
  destruct (representable v (- k) ltac:(lia) ltac:(lia) Dv) as (Vc & Fc & Ic).
  assert (S : ival (binary_normalize prec emax v (- k) false) * ival (of_Z (2 ^ k))
              <= ival (of_Z v) * 2 ^ 1074
              <= ival (binary_normalize prec emax v (- k) false) * ival (of_Z (2 ^ k))).
  { rewrite Ix, Iy, Ic. rewrite U at 2 4. split; apply Z.eq_le_incl; ring. }
  destruct (div_sandwich _ _ _ _ Vx Vy Fx Fy Vc Vc Fc Fc ltac:(lia) S)
    as (V & F & L & H).
  repeat split; try assumption.
  fold x in L, H. replace (ival x) with (v * 2 ^ (- k + 1074)) by lia.
  rewrite U. ring.
Qed.

(** Up to 24 bits, the stored sample is that quotient. *)
Lemma scaled_stored (v k : Z) :
  0 <= k <= 23 -> Z.abs v <= 2 ^ k ->
  fround (div (of_Z v) (of_Z (2 ^ k))) = div (of_Z v) (of_Z (2 ^ k)).
Proof.
  intros Hk Hv.
  pose proof (pow2_pos k ltac:(lia)) as PK.
  pose proof (Z.pow_le_mono_r 2 k 23 ltac:(lia) ltac:(lia)) as PK23.
  destruct (scaled_exact v k ltac:(lia) ltac:(lia)) as (V & F & I).
  pose proof (pow2_pos 1074 ltac:(lia)) as PU.
  pose proof (pow2_pos (- k + 1074) ltac:(lia)) as PS.
  assert (U : 2 ^ 1074 = 2 ^ k * 2 ^ (- k + 1074)).
  { rewrite <- (pow2_add k (- k + 1074)) by lia. f_equal. lia. }
  destruct (div (of_Z v) (of_Z (2 ^ k))) as [| | |s M e]; try reflexivity.
  cbn [ival] in I.
  destruct (valid_exponent _ _ _ V) as [Le _].
  pose proof (pow2_pos (e + 1074) ltac:(lia)) as PE.
  apply (fround_fixed s M e (Z.abs v) (- k)); try assumption; try lia.
  - apply (Z.mul_cancel_r _ _ (2 ^ k)); [lia|].
    rewrite U in I. destruct s.
    + replace (Z.abs v) with (- v) by nia.
      change (Z.neg M) with (- Z.pos M) in I. nia.
    + replace (Z.abs v) with v by nia. nia.
  - assert (v <> 0) by (destruct s; nia). lia.
Qed.

(** A number of [-1, 1] is stored as a number of [-1, 1]. *)
Lemma fround_unit (x : number) :
  valid x -> isFinite x = true -> - 2 ^ 1074 <= ival x <= 2 ^ 1074 ->
  valid (fround x) /\ isFinite (fround x) = true /\
  - 2 ^ 1074 <= ival (fround x) <= 2 ^ 1074.
Proof.
  intros V F B.
  pose proof (pow2_pos 1074 ltac:(lia)) as PU.
  destruct x as [z| | |s M e]; try discriminate.
  { cbn [fround]. repeat split; try assumption; cbn [ival]; lia. }
  destruct (valid_exponent _ _ _ V) as [Le Ue].
  pose proof V as V'. apply valid_finite in V' as [C _].
  destruct (canonical_facts _ _ (Pos2Z.is_pos M) C) as (_ & UM & NM).
  pose proof (pow2_pos (e + 1074) ltac:(lia)) as PE.
  assert (Mag : Z.pos M * 2 ^ (e + 1074) <= 2 ^ 1074).
  { cbn [ival] in B. destruct s; [change (Z.neg M) with (- Z.pos M) in B|]; lia. }
  assert (Zero : forall b, valid (S754_zero b) /\ isFinite (S754_zero b) = true /\
                           - 2 ^ 1074 <= ival (S754_zero b) <= 2 ^ 1074).
  { intros b. repeat split; cbn [ival]; lia. }
  destruct (Z.eq_dec e (-1074)) as [->|Ne].
  - (* too small for a float: stored as zero *)
    assert (Dg : Zdigits2 (Z.pos M) <= 53) by (apply Zdigits2_le; lia).
    unfold fround.
    replace (Z.max (Zdigits2 (Z.pos M) + -1074 - 24) (-149)) with (-149) by lia.
    change (-149 - -1074) with 925. cbv zeta.
    change (925 <=? 0) with false. cbv iota.
    assert (Sm : Z.pos M < 2 ^ 924)
      by (pose proof (Z.pow_le_mono_r 2 53 924 ltac:(lia) ltac:(lia)); lia).
    assert (Sm' : Z.pos M < 2 ^ 925)
      by (pose proof (Z.pow_le_mono_r 2 53 925 ltac:(lia) ltac:(lia)); lia).
    rewrite Z.div_small, Z.mod_small by lia.
    change (925 - 1) with 924.
    replace (2 ^ 924 <? Z.pos M) with false by (symmetry; apply Z.ltb_ge; lia).
    replace (Z.pos M =? 2 ^ 924) with false by (symmetry; apply Z.eqb_neq; lia).
    cbn [orb andb Z.eqb]. apply Zero.
  - specialize (NM ltac:(lia)).
    assert (Dg : Zdigits2 (Z.pos M) = 53).
    { apply Z.le_antisymm; [apply Zdigits2_le; lia | apply Zdigits2_ge; [exact NM|lia]]. }
    assert (He : e <= -52).
    { destruct (Z_le_gt_dec e (-52)) as [|G]; [assumption|exfalso].
      pose proof (Z.pow_le_mono_r 2 1023 (e + 1074) ltac:(lia) ltac:(lia)) as P.
      change (2 ^ 1074) with (2 ^ 51 * 2 ^ 1023) in Mag. nia. }
    unfold fround. rewrite Dg.
    remember (Z.max (53 + e - 24) (-149)) as E eqn:HEq.
    remember (E - e) as n eqn:Hn.
    assert (HE : -149 <= E <= -23) by lia.
    assert (Hn29 : 29 <= n) by lia.
    pose proof (pow2_pos n ltac:(lia)) as PN.
    pose proof (pow2_pos (n - 1) ltac:(lia)) as PH.
    pose proof (pow2_pos (- E) ltac:(lia)) as PmE.
    pose proof (Z.pow_le_mono_r 2 29 n ltac:(lia) ltac:(lia)) as PN29.
    cbv zeta.
    replace (n <=? 0) with false by (symmetry; apply Z.leb_gt; lia).
    pose proof (Z.div_mod (Z.pos M) (2 ^ n) ltac:(lia)) as DM.
    pose proof (Z.mod_pos_bound (Z.pos M) (2 ^ n) ltac:(lia)) as MB.
    set (q := Z.pos M / 2 ^ n) in *. set (r := Z.pos M mod 2 ^ n) in *.
    assert (P1 : 2 ^ 1074 = 2 ^ (- E) * 2 ^ n * 2 ^ (e + 1074)).
    { rewrite <- (pow2_add (- E) n), <- (pow2_add (- E + n) (e + 1074)) by lia.
      f_equal. lia. }
    assert (HM : Z.pos M <= 2 ^ (- E) * 2 ^ n).
    { rewrite P1 in Mag. apply Z.mul_le_mono_pos_r in Mag; lia. }
    assert (Hq0 : 0 <= q) by (subst q; apply Z.div_pos; lia).
    assert (Hq : q <= 2 ^ (- E)) by nia.
    set (q' := if (2 ^ (n - 1) <? r) || (r =? 2 ^ (n - 1)) && Z.odd q
               then q + 1 else q).
    assert (Hq' : 0 <= q' <= 2 ^ (- E)).
    { subst q'. destruct (Z.eq_dec q (2 ^ (- E))) as [Q|Q].
      - assert (r = 0) by nia.
        replace (2 ^ (n - 1) <? r) with false by (symmetry; apply Z.ltb_ge; lia).
        replace (r =? 2 ^ (n - 1)) with false by (symmetry; apply Z.eqb_neq; lia).
        cbn [orb andb]. lia.
      - destruct ((2 ^ (n - 1) <? r) || (r =? 2 ^ (n - 1)) && Z.odd q); lia. }
    destruct (q' =? 0) eqn:Q0; [apply Zero|].
    apply Z.eqb_neq in Q0.
    rewrite (Z.pow_neg_r 2 E) by lia. rewrite Z.mul_0_r.
    change (2 ^ 128 <=? 0) with false. cbv iota.
    assert (Qs : q' < 2 ^ 53).
    { assert (q' <= q + 1) by (subst q';
        destruct ((2 ^ (n - 1) <? r) || (r =? 2 ^ (n - 1)) && Z.odd q); lia).
      assert (q < 2 ^ 24) by nia. lia. }
    assert (Ab : Z.abs (if s then - q' else q') = q') by (destruct s; lia).
    assert (Dq : Zdigits2 (Z.abs (if s then - q' else q')) + E <= 1024).
    { rewrite Ab. assert (Zdigits2 q' <= 53) by (apply Zdigits2_le; lia). lia. }
    destruct (representable (if s then - q' else q') E ltac:(lia) ltac:(lia) Dq)
      as (Vc & Fc & Ic).
    repeat split; try assumption; rewrite Ic.
    + assert (P2 : 2 ^ 1074 = 2 ^ (- E) * 2 ^ (E + 1074)).
      { rewrite <- (pow2_add (- E) (E + 1074)) by lia. f_equal. lia. }
      pose proof (pow2_pos (E + 1074) ltac:(lia)). destruct s; nia.
    + assert (P2 : 2 ^ 1074 = 2 ^ (- E) * 2 ^ (E + 1074)).
      { rewrite <- (pow2_add (- E) (E + 1074)) by lia. f_equal. lia. }
      pose proof (pow2_pos (E + 1074) ltac:(lia)). destruct s; nia.
Qed.

(** The value of four bytes read as a float is a float already. *)
Lemma fround_float32LE (bs : list Byte.byte) :
  fround (float32LE bs) = float32LE bs.
Proof.
  unfold float32LE.
  set (u := unsignedLE bs).
  set (s := 2 ^ 31 <=? u).
  pose proof (Z.mod_pos_bound (u / 2 ^ 23) (2 ^ 8) ltac:(lia)) as Bex.
  pose proof (Z.mod_pos_bound u (2 ^ 23) ltac:(lia)) as Bfr.
  set (ex := (u / 2 ^ 23) mod 2 ^ 8) in *.
  set (frac := u mod 2 ^ 23) in *.
  cbv zeta.
  assert (K : forall a E0, 0 < a < 2 ^ 24 -> -149 <= E0 <= 104 ->
            fround (binary_normalize prec emax (if s then - a else a) E0 false)
            = binary_normalize prec emax (if s then - a else a) E0 false).
  { intros a E0 Ha HE.
    assert (Ab : Z.abs (if s then - a else a) = a) by (destruct s; lia).
    assert (Dq : Zdigits2 (Z.abs (if s then - a else a)) + E0 <= 1024).
    { rewrite Ab. assert (Zdigits2 a <= 53) by (apply Zdigits2_le; lia). lia. }
    destruct (representable (if s then - a else a) E0 ltac:(lia) ltac:(lia) Dq)
      as (Vc & Fc & Ic).
    pose proof (pow2_pos (E0 + 1074) ltac:(lia)) as PE0.
    destruct (binary_normalize prec emax (if s then - a else a) E0 false)
      as [| | |s' M e]; try reflexivity.
    cbn [ival] in Ic. destruct (valid_exponent _ _ _ Vc) as [Le _].
    pose proof (pow2_pos (e + 1074) ltac:(lia)) as PE.
    apply (fround_fixed s' M e a E0); try assumption.
    destruct s', s; try (change (Z.neg M) with (- Z.pos M) in Ic); nia. }
  destruct (ex =? 255) eqn:E255.
  { destruct (frac =? 0); reflexivity. }
  destruct (ex =? 0) eqn:E0.
  { destruct (frac =? 0) eqn:F0; [reflexivity|].
    apply Z.eqb_neq in F0. apply K; lia. }
  apply Z.eqb_neq in E255, E0.
  apply K.
  - change (2 ^ 24) with (2 ^ 23 + 2 ^ 23). lia.
  - lia.
Qed.

(** ** Reading samples *)

Lemma byteZ_range (b : Byte.byte) : 0 <= byteZ b < 256.
Proof.
  unfold byteZ. pose proof (Byte.to_N_bounded b) as B. lia.
Qed.

Lemma unsignedLE_range (bs : list Byte.byte) :
  0 <= unsignedLE bs < 2 ^ (8 * Z.of_nat (length bs)).
Proof.
  induction bs as [|b r IH]; [cbn; lia|].
  cbn [unsignedLE length]. pose proof (byteZ_range b).
  replace (8 * Z.of_nat (S (length r))) with (8 + 8 * Z.of_nat (length r)) by lia.
  rewrite (pow2_add 8 (8 * Z.of_nat (length r))) by lia.
  change (2 ^ 8) with 256. lia.
Qed.

Lemma signedLE_range (bs : list Byte.byte) :
  bs <> [] ->
  - 2 ^ (8 * Z.of_nat (length bs) - 1) <= signedLE bs
   < 2 ^ (8 * Z.of_nat (length bs) - 1).
Proof.
  intros N. unfold signedLE. pose proof (unsignedLE_range bs) as U.
  assert (L : (0 < length bs)%nat) by (destruct bs; [congruence|cbn; lia]).
  set (w := 8 * Z.of_nat (length bs)) in *.
  assert (W : 2 ^ w = 2 * 2 ^ (w - 1)).
  { replace w with (1 + (w - 1)) at 1 by lia.
    rewrite (pow2_add 1 (w - 1)) by lia. reflexivity. }
  destruct (unsignedLE bs <? 2 ^ (w - 1)) eqn:C.
  - apply Z.ltb_lt in C. lia.
  - apply Z.ltb_ge in C. lia.
Qed.

Lemma length_bytesAt (buf : list Byte.byte) (o : Z) (n : nat) :
  0 <= o -> o + Z.of_nat n <= Z.of_nat (length buf) ->
  length (bytesAt buf o n) = n.
Proof.
  intros Ho H. unfold bytesAt. rewrite firstn_length_le; [reflexivity|].
  rewrite length_skipn. lia.
Qed.

Lemma readBytes_of_Z (buf : list Byte.byte) (o : Z) (n : nat) :
  0 <= o -> o + Z.of_nat n <= Z.of_nat (length buf) ->
  Z.of_nat (length buf) < 2 ^ 53 ->
  readBytes buf (of_Z o) n = Ok (bytesAt buf o n).
Proof.
  intros Ho H B. unfold readBytes. rewrite integerOf_of_Z by lia.
  replace (0 <=? o) with true by (symmetry; apply Z.leb_le; lia).
  replace (o + Z.of_nat n <=? Z.of_nat (length buf)) with true
    by (symmetry; apply Z.leb_le; lia).
  reflexivity.
Qed.

(** The loop reads frame after frame. *)
Lemma frames_ok (buf : list Byte.byte) (f : format) (bp : Z)
    (smp : Z -> number) :
  1 <= bp <= 4 -> Z.of_nat (length buf) < 2 ^ 50 ->
  (forall o, 0 <= o -> o + bp <= Z.of_nat (length buf) ->
             readSample buf f (of_Z bp) (of_Z o) = Ok (smp o)) ->
  forall (k i : nat),
    (Z.of_nat i + Z.of_nat k) * (2 * bp) <= Z.of_nat (length buf) ->
    frames buf f (of_Z bp) (of_Z (2 * bp)) k (Z.of_nat i) =
    Ok (map (fun j => fround (smp (2 * bp * Z.of_nat j))) (seq i k),
        map (fun j => fround (smp (2 * bp * Z.of_nat j + bp))) (seq i k)).
Proof.
  intros Hbp Hlen Hrd k. induction k as [|k IH]; intros i H; [reflexivity|].
  cbn [frames seq map].
  rewrite (mul_of_Z (Z.of_nat i) (2 * bp)) by nia.
  rewrite (add_of_Z (Z.of_nat i * (2 * bp)) bp) by nia.
  rewrite (Hrd (Z.of_nat i * (2 * bp))) by nia.
  rewrite (Hrd (Z.of_nat i * (2 * bp) + bp)) by nia.
  replace (Z.of_nat i + 1) with (Z.of_nat (S i)) by lia.
  rewrite (IH (S i)) by lia.
  replace (Z.of_nat i * (2 * bp)) with (2 * bp * Z.of_nat i) by ring.
  reflexivity.
Qed.

Lemma deinterleave_ok (buf : list Byte.byte) (f : format) (bp : Z)
    (smp : Z -> number) :
  channels f = 2 -> bytesPerSample f = of_Z bp ->
  1 <= bp <= 4 -> Z.of_nat (length buf) < 2 ^ 38 ->
  (forall o, 0 <= o -> o + bp <= Z.of_nat (length buf) ->
             readSample buf f (of_Z bp) (of_Z o) = Ok (smp o)) ->
  let n := Z.to_nat (Z.of_nat (length buf) / (2 * bp)) in
  deinterleaveToFloatStereo buf f =
  Ok (map (fun j => fround (smp (2 * bp * Z.of_nat j))) (seq 0 n),
      map (fun j => fround (smp (2 * bp * Z.of_nat j + bp))) (seq 0 n),
      sampleRate f).
Proof.
  intros Hc Hb Hbp Hlen Hrd n. unfold deinterleaveToFloatStereo.
  rewrite Hc, Hb. cbn [Z.eqb Pos.eqb negb].
  rewrite (mul_of_Z bp 2) by lia.
  replace (bp * 2) with (2 * bp) by ring.
  destruct (of_Z_exact (2 * bp) ltac:(lia)) as (Vy & Fy & Iy).
  assert (Iy' : ival (of_Z (2 * bp)) = (8 * bp) * 2 ^ 1072).
  { rewrite Iy. change 1074 with (2 + 1072). rewrite (pow2_add 2 1072) by lia.
    change (2 ^ 2) with 4. ring. }
  rewrite (floor_frames (Z.of_nat (length buf)) (8 * bp) _
             ltac:(lia) ltac:(lia) Vy Fy Iy').
  replace (8 * bp) with (4 * (2 * bp)) by ring.
  rewrite Z.div_mul_cancel_l by lia.
  pose proof (Z.div_mod (Z.of_nat (length buf)) (2 * bp) ltac:(lia)) as DM.
  pose proof (Z.mod_pos_bound (Z.of_nat (length buf)) (2 * bp) ltac:(lia)) as MB.
  assert (Q : 0 <= Z.of_nat (length buf) / (2 * bp) < 2 ^ 50).
  { split; [apply Z.div_pos; lia|]. apply Z.div_lt_upper_bound; nia. }
  rewrite toIndex_of_Z by lia.
  assert (Hlen' : Z.of_nat (length buf) < 2 ^ 50) by lia.
  pose proof (frames_ok buf f bp smp Hbp Hlen' Hrd n 0%nat) as FR.
  change (Z.of_nat 0) with 0 in FR. subst n.
  rewrite FR by (rewrite Z2Nat.id by lia; nia).
  reflexivity.
Qed.

Lemma sub_128 (u : Z) :
  0 <= u < 256 -> sub (of_Z u) (of_Z 128) = of_Z (u - 128).
Proof.
  intros H. destruct (Z.eq_dec u 128) as [->|N].
  - vm_compute. reflexivity.
  - apply sub_of_Z; lia.
Qed.

Lemma readSample_integer (buf : list Byte.byte) (f : format) (o : Z) :
  bitDepth f = 8 \/ bitDepth f = 16 \/ bitDepth f = 24 \/
  (bitDepth f = 32 /\ audioFormat f <> 3) ->
  Z.of_nat (length buf) < 2 ^ 53 ->
  0 <= o -> o + bitDepth f / 8 <= Z.of_nat (length buf) ->
  readSample buf f (of_Z (bitDepth f / 8)) (of_Z o) =
  Ok (integerSample (bitDepth f) buf o).
Proof.
  intros Hw Hlen Ho H. unfold readSample, integerSample, pcm.
  destruct Hw as [W|[W|[W|[W A]]]]; rewrite W in *.
  - replace ((audioFormat f =? 3) && eq (of_Z (8 / 8)) (of_Z 4)) with false
      by (rewrite andb_comm; reflexivity).
    cbn [Z.eqb Pos.eqb]. change (Z.to_nat (8 / 8)) with 1%nat.
    rewrite readBytes_of_Z by (change (8 / 8) with 1 in H; lia).
    rewrite sub_128; [reflexivity|].
    pose proof (unsignedLE_range (bytesAt buf o 1)) as U.
    rewrite length_bytesAt in U by (change (8 / 8) with 1 in H; lia).
    exact U.
  - replace ((audioFormat f =? 3) && eq (of_Z (16 / 8)) (of_Z 4)) with false
      by (rewrite andb_comm; reflexivity).
    cbn [Z.eqb Pos.eqb]. change (Z.to_nat (16 / 8)) with 2%nat.
    rewrite readBytes_of_Z by (change (16 / 8) with 2 in H; lia).
    reflexivity.
  - replace ((audioFormat f =? 3) && eq (of_Z (24 / 8)) (of_Z 4)) with false
      by (rewrite andb_comm; reflexivity).
    cbn [Z.eqb Pos.eqb]. change (Z.to_nat (24 / 8)) with 3%nat.
    rewrite readBytes_of_Z by (change (24 / 8) with 3 in H; lia).
    reflexivity.
  - replace (audioFormat f =? 3) with false by (symmetry; apply Z.eqb_neq; exact A).
    cbn [andb Z.eqb Pos.eqb]. change (Z.to_nat (32 / 8)) with 4%nat.
    rewrite readBytes_of_Z by (change (32 / 8) with 4 in H; lia).
    reflexivity.
Qed.

Lemma bytesPerSample_integer (f : format) :
  bitDepth f = 8 \/ bitDepth f = 16 \/ bitDepth f = 24 \/ bitDepth f = 32 ->
  bytesPerSample f = of_Z (bitDepth f / 8).
Proof.
  intros Hw. unfold bytesPerSample.
  destruct Hw as [W|[W|[W|W]]]; rewrite W;
    destruct (audioFormat f =? 3); vm_compute; reflexivity.
Qed.

Ltac depth_bytes :=
  change (8 / 8) with 1 in *; change (16 / 8) with 2 in *;
  change (24 / 8) with 3 in *; change (32 / 8) with 4 in *;
  change (Z.to_nat 1) with 1%nat in *; change (Z.to_nat 2) with 2%nat in *;
  change (Z.to_nat 3) with 3%nat in *; change (Z.to_nat 4) with 4%nat in *.

Lemma pcm_range (w : Z) (buf : list Byte.byte) (o : Z) :
  w = 8 \/ w = 16 \/ w = 24 \/ w = 32 ->
  0 <= o -> o + w / 8 <= Z.of_nat (length buf) ->
  - 2 ^ (w - 1) <= pcm w (bytesAt buf o (Z.to_nat (w / 8))) < 2 ^ (w - 1).
Proof.
  intros Hw Ho H. unfold pcm.
  destruct Hw as [ -> | [ -> | [ -> | -> ]]]; cbn [Z.eqb Pos.eqb]; depth_bytes.
  - pose proof (unsignedLE_range (bytesAt buf o 1)) as U.
    rewrite length_bytesAt in U by lia.
    change (2 ^ (8 * Z.of_nat 1)) with 256 in U.
    change (2 ^ (8 - 1)) with 128. lia.
  - pose proof (signedLE_range (bytesAt buf o 2)) as U.
    rewrite length_bytesAt in U by lia. apply U.
    intros E. apply (f_equal (@length _)) in E.
    rewrite length_bytesAt in E by lia. discriminate.
  - pose proof (signedLE_range (bytesAt buf o 3)) as U.
    rewrite length_bytesAt in U by lia. apply U.
    intros E. apply (f_equal (@length _)) in E.
    rewrite length_bytesAt in E by lia. discriminate.
  - pose proof (signedLE_range (bytesAt buf o 4)) as U.
    rewrite length_bytesAt in U by lia. apply U.
    intros E. apply (f_equal (@length _)) in E.
    rewrite length_bytesAt in E by lia. discriminate.
Qed.

(** ** Known values

    The decoder's arithmetic on values whose results are known. *)

Example fround_examples :
  map (fun x => toString (fround x))
      [dec 1 (-1); div (of_Z 1) (of_Z 3); of_Z 16777217; of_Z 16777219;
       dec 1 40; dec 1 (-40); dec 1 (-46); div (of_Z 2147483647) (of_Z 2147483648);
       of_Z 1; of_Z (-5); dec 5 (-1); dec 34028235677973366 22;
       dec 34028234664 28; dec 7 (-46); dec 8 (-46)]
  = ["0.10000000149011612"; "0.3333333432674408"; "16777216"; "16777220";
     "Infinity"; "9.99994610111476e-41"; "0"; "1";
     "1"; "-5"; "0.5"; "Infinity";
     "3.4028234663852886e+38"; "0"; "1.401298464324817e-45"].
Proof. vm_compute. reflexivity. Qed.

Example float32LE_examples :
  map (fun bs => toString (float32LE bs))
      [ [Byte.x00; Byte.x00; Byte.x80; Byte.x3f];
        [Byte.x00; Byte.x00; Byte.x00; Byte.xbf];
        [Byte.xcd; Byte.xcc; Byte.xcc; Byte.x3d];
        [Byte.x00; Byte.x00; Byte.x80; Byte.x7f];
        [Byte.x01; Byte.x00; Byte.x80; Byte.x7f];
        [Byte.x01; Byte.x00; Byte.x00; Byte.x00];
        [Byte.x00; Byte.x00; Byte.x00; Byte.x80];
        [Byte.xff; Byte.xff; Byte.x7f; Byte.x7f] ]
  = ["1"; "-0.5"; "0.10000000149011612"; "Infinity"; "NaN";
     "1.401298464324817e-45"; "0"; "3.4028234663852886e+38"].
Proof. vm_compute. reflexivity. Qed.

Example deinterleave_examples :
  let pcm16 := {| sampleRate := 48000; channels := 2; bitDepth := 16; audioFormat := 1 |} in
  let pcm24 := {| sampleRate := 48000; channels := 2; bitDepth := 24; audioFormat := 1 |} in
  let pcm0 := {| sampleRate := 48000; channels := 2; bitDepth := 0; audioFormat := 1 |} in
  let show r := match r with
                | Ok (l, r, _) => Ok (map toString l, map toString r)
                | Throw e => Throw e
                end in
  show (deinterleaveToFloatStereo
          [Byte.x00; Byte.x40; Byte.x00; Byte.x80; Byte.xff; Byte.x7f;
           Byte.x01; Byte.x00; Byte.x09] pcm16)
    = Ok (["0.5"; "0.999969482421875"], ["-1"; "0.000030517578125"]) /\
  show (deinterleaveToFloatStereo
          [Byte.x00; Byte.x00; Byte.x40; Byte.xff; Byte.xff; Byte.xff; Byte.x07] pcm24)
    = Ok (["0.5"], ["-1.1920928955078125e-7"]) /\
  show (deinterleaveToFloatStereo [] pcm0) = Ok ([], []) /\
  show (deinterleaveToFloatStereo [Byte.x01] pcm0) = Throw OutOfRange.
Proof. vm_compute. repeat split; reflexivity. Qed.

Lemma nth_map_seq {A : Type} (g : nat -> A) (n i : nat) (d : A) :
  (i < n)%nat -> nth i (map g (seq 0 n)) d = g i.
Proof.
  intros H.
  rewrite (nth_indep _ d (g 0%nat)) by (rewrite length_map, length_seq; lia).
  rewrite (map_nth g (seq 0 n) 0%nat i), seq_nth by lia. reflexivity.
Qed.

(** A stored sample of 8, 16 or 24 bits. *)
Lemma integer_sample_stored (w : Z) (buf : list Byte.byte) (o : Z) :
  w = 8 \/ w = 16 \/ w = 24 ->
  0 <= o -> o + w / 8 <= Z.of_nat (length buf) ->
  let x := fround (integerSample w buf o) in
  isFinite x = true /\
  ival x * 2 ^ (w - 1) = pcm w (bytesAt buf o (Z.to_nat (w / 8))) * 2 ^ 1074 /\
  le (of_Z (-1)) x = true /\ lt x (of_Z 1) = true.
Proof.
  intros Hw Ho H x. subst x. unfold integerSample.
  pose proof (pcm_range w buf o ltac:(tauto) Ho H) as R.
  set (v := pcm w (bytesAt buf o (Z.to_nat (w / 8)))) in *.
  assert (Hk : 0 <= w - 1 <= 23) by lia.
  pose proof (pow2_pos (w - 1) ltac:(lia)) as PK.
  pose proof (Z.pow_le_mono_r 2 (w - 1) 23 ltac:(lia) ltac:(lia)) as PK23.
  pose proof (pow2_pos 1074 ltac:(lia)) as PU.
  rewrite scaled_stored by lia.
  destruct (scaled_exact v (w - 1) ltac:(lia) ltac:(lia)) as (V & F & I).
  destruct (of_Z_exact (-1) ltac:(simpl; lia)) as (V1 & F1 & I1).
  destruct (of_Z_exact 1 ltac:(simpl; lia)) as (V2 & F2 & I2).
  repeat split; try assumption.
  - apply le_ival; try assumption. rewrite I1. nia.
  - apply lt_ival; try assumption. rewrite I2. nia.
Qed.

(** X14: a stereo buffer of 8, 16 or 24-bit samples decodes without an error
    into as many left and right samples as it holds whole frames, a trailing
    partial frame being ignored.  Each stored sample is exactly the integer of
    its bytes divided by the full scale 2^(depth-1): storing it as a 32-bit
    float loses nothing, and it lies in [-1, 1). *)
Theorem pcm_samples_exact (buf : list Byte.byte) (f : format)
    (Hstereo : channels f = 2)
    (Hdepth : bitDepth f = 8 \/ bitDepth f = 16 \/ bitDepth f = 24)
    (Hlen : Z.of_nat (length buf) < 2 ^ 38) :
  let w := bitDepth f in
  let bp := w / 8 in
  let n := Z.to_nat (Z.of_nat (length buf) / (2 * bp)) in
  exists ls rs,
    deinterleaveToFloatStereo buf f = Ok (ls, rs, sampleRate f) /\
    length ls = n /\ length rs = n /\
    forall i, (i < n)%nat ->
      let decoded o x :=
        isFinite x = true /\
        ival x * 2 ^ (w - 1) = pcm w (bytesAt buf o (Z.to_nat bp)) * 2 ^ 1074 /\
        le (of_Z (-1)) x = true /\ lt x (of_Z 1) = true in
      decoded (2 * bp * Z.of_nat i) (nth i ls NaN) /\
      decoded (2 * bp * Z.of_nat i + bp) (nth i rs NaN).
Proof.
  intros w bp n.
  assert (Hbp : 1 <= bp <= 4)
    by (subst bp w; destruct Hdepth as [-> | [-> | ->]]; cbv; split; congruence).
  assert (Hb : bytesPerSample f = of_Z bp)
    by (apply bytesPerSample_integer; tauto).
  assert (Hrd : forall o, 0 <= o -> o + bp <= Z.of_nat (length buf) ->
                  readSample buf f (of_Z bp) (of_Z o) = Ok (integerSample w buf o)).
  { intros o Ho H. apply readSample_integer; try assumption; try tauto. lia. }
  pose proof (deinterleave_ok buf f bp (integerSample w buf) Hstereo Hb Hbp Hlen Hrd)
    as D. cbv zeta in D. fold n in D.
  eexists _, _. split; [exact D|].
  split; [now rewrite length_map, length_seq|].
  split; [now rewrite length_map, length_seq|].
  intros i Hi decoded.
  pose proof (Z.div_mod (Z.of_nat (length buf)) (2 * bp) ltac:(lia)) as DM.
  pose proof (Z.mod_pos_bound (Z.of_nat (length buf)) (2 * bp) ltac:(lia)) as MB.
  assert (Hn : Z.of_nat i + 1 <= Z.of_nat (length buf) / (2 * bp)) by lia.
  rewrite !nth_map_seq by assumption.
  split; apply integer_sample_stored; try assumption; try nia.
Qed.

Lemma pcm_samples_witness :
  let buf := [Byte.x00; Byte.x40; Byte.x00; Byte.x80;
              Byte.xff; Byte.x7f; Byte.x01; Byte.x00; Byte.x09] in
  let f := {| sampleRate := 48000; channels := 2; bitDepth := 16;
              audioFormat := 1 |} in
  exists ls rs,
    deinterleaveToFloatStereo buf f = Ok (ls, rs, 48000) /\
    length ls = 2%nat /\ length rs = 2%nat.
Proof.
  intros buf f.
  destruct (pcm_samples_exact buf f eq_refl (or_intror (or_introl eq_refl))
              ltac:(simpl; lia)) as (ls & rs & D & L & R & _).
  exists ls, rs. repeat split; assumption.
Defined.

(** X15: a stereo buffer of 32-bit integer samples decodes without an error,
    one sample per channel and whole frame, and every stored sample is a
    number of [-1, 1].  The upper end is reached: rounding to a 32-bit float
    turns the largest sample, 2147483647 / 2147483648, into exactly 1. *)
Theorem pcm32_samples_in_range (buf : list Byte.byte) (f : format)
    (Hstereo : channels f = 2)
    (Hdepth : bitDepth f = 32) (Hint : audioFormat f <> 3)
    (Hlen : Z.of_nat (length buf) < 2 ^ 38) :
  let n := Z.to_nat (Z.of_nat (length buf) / 8) in
  (exists ls rs,
     deinterleaveToFloatStereo buf f = Ok (ls, rs, sampleRate f) /\
     length ls = n /\ length rs = n /\
     forall x, In x ls \/ In x rs ->
       isFinite x = true /\ le (of_Z (-1)) x = true /\ le x (of_Z 1) = true) /\
  deinterleaveToFloatStereo
    [Byte.xff; Byte.xff; Byte.xff; Byte.x7f; Byte.x00; Byte.x00; Byte.x00; Byte.x80] f
  = Ok ([of_Z 1], [of_Z (-1)], sampleRate f).
Proof.
  intros n.
  assert (Hb : bytesPerSample f = of_Z 4).
  { rewrite bytesPerSample_integer by tauto. now rewrite Hdepth. }
  assert (Hrd : forall b, Z.of_nat (length b) < 2 ^ 38 ->
            forall o, 0 <= o -> o + 4 <= Z.of_nat (length b) ->
            readSample b f (of_Z 4) (of_Z o) = Ok (integerSample 32 b o)).
  { intros b Hb' o Ho H.
    pose proof (readSample_integer b f o) as R. rewrite Hdepth in R.
    apply R; try assumption; try tauto. lia. }
  split.
  - pose proof (deinterleave_ok buf f 4 (integerSample 32 buf) Hstereo Hb
                  ltac:(lia) Hlen (Hrd buf Hlen)) as D.
    cbv zeta in D. change (2 * 4) with 8 in D. fold n in D.
    eexists _, _. split; [exact D|].
    split; [now rewrite length_map, length_seq|].
    split; [now rewrite length_map, length_seq|].
    pose proof (Z.div_mod (Z.of_nat (length buf)) 8 ltac:(lia)) as DM.
    pose proof (Z.mod_pos_bound (Z.of_nat (length buf)) 8 ltac:(lia)) as MB.
    assert (K : forall o, 0 <= o -> o + 4 <= Z.of_nat (length buf) ->
              let x := fround (integerSample 32 buf o) in
              isFinite x = true /\ le (of_Z (-1)) x = true /\ le x (of_Z 1) = true).
    { intros o Ho H x. subst x. unfold integerSample.
      pose proof (pcm_range 32 buf o ltac:(tauto) Ho H) as R.
      set (v := pcm 32 (bytesAt buf o (Z.to_nat (32 / 8)))) in *.
      change (32 - 1) with 31 in *.
      pose proof (pow2_pos 1074 ltac:(lia)) as PU.
      destruct (scaled_exact v 31 ltac:(lia) ltac:(lia)) as (V & F & I).
      destruct (fround_unit _ V F ltac:(nia)) as (V' & F' & I').
      destruct (of_Z_exact (-1) ltac:(simpl; lia)) as (V1 & F1 & I1).
      destruct (of_Z_exact 1 ltac:(simpl; lia)) as (V2 & F2 & I2).
      repeat split; try assumption.
      - apply le_ival; try assumption. rewrite I1. lia.
      - apply le_ival; try assumption. rewrite I2. lia. }
    intros x [Hx|Hx]; apply in_map_iff in Hx as (j & <- & Hj);
      apply in_seq in Hj; apply K; nia.
  - set (top := [Byte.xff; Byte.xff; Byte.xff; Byte.x7f;
                 Byte.x00; Byte.x00; Byte.x00; Byte.x80]).
    pose proof (deinterleave_ok top f 4 (integerSample 32 top) Hstereo Hb
                  ltac:(lia) ltac:(simpl; lia) (Hrd top ltac:(simpl; lia))) as D.
    rewrite D. vm_compute. reflexivity.
Qed.

Lemma pcm32_samples_witness :
  let f := {| sampleRate := 44100; channels := 2; bitDepth := 32;
              audioFormat := 1 |} in
  deinterleaveToFloatStereo
    [Byte.xff; Byte.xff; Byte.xff; Byte.x7f; Byte.x00; Byte.x00; Byte.x00; Byte.x80] f
  = Ok ([of_Z 1], [of_Z (-1)], 44100).
Proof.
  intros f.
  exact (proj2 (pcm32_samples_in_range [] f eq_refl eq_refl
                  ltac:(discriminate) ltac:(simpl; lia))).
Defined.

Lemma readSample_float (buf : list Byte.byte) (f : format) (o : Z) :
  audioFormat f = 3 -> Z.of_nat (length buf) < 2 ^ 53 ->
  0 <= o -> o + 4 <= Z.of_nat (length buf) ->
  readSample buf f (of_Z 4) (of_Z o) = Ok (float32LE (bytesAt buf o 4)).
Proof.
  intros A Hlen Ho H. unfold readSample. rewrite A.
  change ((3 =? 3) && eq (of_Z 4) (of_Z 4)) with true. cbv iota.
  rewrite readBytes_of_Z by lia. reflexivity.
Qed.

(** X16: a stereo buffer of 32-bit float samples (a float format of depth 0
    is read the same way) decodes without an error, and each sample is the
    value of its four bytes read as a little-endian float, unchanged: nothing
    is clamped or replaced, so infinities, NaN and values beyond [-1, 1] pass
    through.  A trailing partial frame is ignored. *)
Theorem float_samples_unchanged (buf : list Byte.byte) (f : format)
    (Hstereo : channels f = 2) (Hfloat : audioFormat f = 3)
    (Hdepth : bitDepth f = 32 \/ bitDepth f = 0)
    (Hlen : Z.of_nat (length buf) < 2 ^ 38) :
  let n := Z.to_nat (Z.of_nat (length buf) / 8) in
  deinterleaveToFloatStereo buf f =
  Ok (map (fun i => float32LE (bytesAt buf (8 * Z.of_nat i) 4)) (seq 0 n),
      map (fun i => float32LE (bytesAt buf (8 * Z.of_nat i + 4) 4)) (seq 0 n),
      sampleRate f).
Proof.
  intros n.
  assert (Hb : bytesPerSample f = of_Z 4).
  { unfold bytesPerSample. rewrite Hfloat.
    destruct Hdepth as [-> | ->]; vm_compute; reflexivity. }
  pose proof (deinterleave_ok buf f 4 (fun o => float32LE (bytesAt buf o 4))
                Hstereo Hb ltac:(lia) Hlen) as D.
  cbv zeta in D. change (2 * 4) with 8 in D. fold n in D.
  rewrite D.
  - f_equal. f_equal. f_equal; apply map_ext; intros i; apply fround_float32LE.
  - intros o Ho H. apply readSample_float; try assumption. lia.
Qed.

Lemma float_samples_witness :
  let f := {| sampleRate := 48000; channels := 2; bitDepth := 32;
              audioFormat := 3 |} in
  let buf := [Byte.x00; Byte.x00; Byte.x00; Byte.x40;
              Byte.x00; Byte.x00; Byte.x80; Byte.x7f; Byte.x01] in
  deinterleaveToFloatStereo buf f =
  Ok ([of_Z 2], [S754_infinity false], 48000).
Proof.
  intros f buf.
  exact (float_samples_unchanged buf f eq_refl eq_refl (or_introl eq_refl)
           ltac:(simpl; lia)).
Defined.

(** The bytes of a sample of an unusual depth. *)
Lemma bytesPerSample_other (f : format) :
  0 < bitDepth f < 2 ^ 12 ->
  let b := bytesPerSample f in
  b = div (of_Z (bitDepth f)) (of_Z 8) /\
  valid b /\ isFinite b = true /\ ival b = bitDepth f * 2 ^ 1071.
Proof.
  intros Hw b.
  destruct (scaled_exact (bitDepth f) 3 ltac:(lia) ltac:(lia)) as (V & F & I).
  change (2 ^ 3) with 8 in *.
  pose proof (pow2_pos 1071 ltac:(lia)) as P.
  assert (U : 2 ^ 1074 = 8 * 2 ^ 1071)
    by (change 1074 with (3 + 1071); rewrite (pow2_add 3 1071) by lia;
        reflexivity).
  assert (I' : ival (div (of_Z (bitDepth f)) (of_Z 8)) = bitDepth f * 2 ^ 1071)
    by lia.
  assert (E : b = div (of_Z (bitDepth f)) (of_Z 8)).
  { subst b. unfold bytesPerSample. cbv zeta.
    destruct (audioFormat f =? 3); [|reflexivity].
    destruct (div (of_Z (bitDepth f)) (of_Z 8)) as [| | |s m e];
      try reflexivity; try discriminate.
    cbn [ival] in I'. nia. }
  rewrite E. repeat split; assumption.
Qed.

(** X17: for a depth other than 8, 16, 24 and 32 bits, decoding fails, with
    the channel check coming first: a buffer that is not stereo is refused as
    such; a stereo buffer that holds at least one whole frame is refused for
    its bit depth; but a stereo buffer shorter than one frame is accepted and
    decodes to no samples at all. *)
Theorem unsupported_depth (buf : list Byte.byte) (f : format)
    (Hdepth : 0 < bitDepth f < 2 ^ 12)
    (Hother : bitDepth f <> 8 /\ bitDepth f <> 16 /\ bitDepth f <> 24 /\
              bitDepth f <> 32)
    (Hlen : Z.of_nat (length buf) < 2 ^ 38) :
  (channels f <> 2 ->
     deinterleaveToFloatStereo buf f = Throw NotStereo) /\
  (channels f = 2 -> bitDepth f <= 4 * Z.of_nat (length buf) ->
     deinterleaveToFloatStereo buf f = Throw UnsupportedBitDepth) /\
  (channels f = 2 -> 4 * Z.of_nat (length buf) < bitDepth f ->
     deinterleaveToFloatStereo buf f = Ok ([], [], sampleRate f)).
Proof.
  split.
  { intros Hc. unfold deinterleaveToFloatStereo.
    replace (channels f =? 2) with false by (symmetry; apply Z.eqb_neq; exact Hc).
    reflexivity. }
  destruct (bytesPerSample_other f Hdepth) as (Eb & Vb & Fb & Ib).
  set (w := bitDepth f) in *.
  pose proof (pow2_pos 1071 ltac:(lia)) as P71.
  assert (U2 : 2 ^ 1072 = 2 * 2 ^ 1071)
    by (change 1072 with (1 + 1071); rewrite (pow2_add 1 1071) by lia;
        reflexivity).
  assert (U4 : 2 ^ 1074 = 8 * 2 ^ 1071)
    by (change 1074 with (3 + 1071); rewrite (pow2_add 3 1071) by lia;
        reflexivity).
  assert (N52 : 2 ^ 52 <= 2 ^ 1071) by (apply Z.pow_le_mono_r; lia).
  (* the frame size, [w / 4] *)
  assert (Dc : Zdigits2 (Z.abs w) + -2 <= 1024).
  { assert (Zdigits2 (Z.abs w) <= 53) by (apply Zdigits2_le; lia). lia. }
  destruct (representable w (-2) ltac:(lia) ltac:(lia) Dc) as (Vc & Fc & Ic).
  change (-2 + 1074) with 1072 in Ic.
  destruct (of_Z_exact 2 ltac:(simpl; lia)) as (V2 & F2 & I2).
  assert (Fs : mul (bytesPerSample f) (of_Z 2)
               = binary_normalize prec emax w (-2) false).
  { apply mul_exact; try assumption;
      try (rewrite Ib, I2, Ic, U2, U4; ring); nia. }
  (* no sample can be read *)
  assert (Rd : forall o, readSample buf f (bytesPerSample f) o
                         = Throw UnsupportedBitDepth).
  { intros o. unfold readSample.
    assert (E4 : eq (bytesPerSample f) (of_Z 4) = false).
    { destruct (eq (bytesPerSample f) (of_Z 4)) eqn:E; [exfalso|reflexivity].
      destruct (of_Z_exact 4 ltac:(simpl; lia)) as (V4 & F4 & I4).
      apply eq_ival in E; try assumption. rewrite Ib, I4, U4 in E. nia. }
    rewrite E4, andb_false_r.
    fold w.
    replace (w =? 8) with false by (symmetry; apply Z.eqb_neq; tauto).
    replace (w =? 16) with false by (symmetry; apply Z.eqb_neq; tauto).
    replace (w =? 24) with false by (symmetry; apply Z.eqb_neq; tauto).
    replace (w =? 32) with false by (symmetry; apply Z.eqb_neq; tauto).
    reflexivity. }
  pose proof (Z.div_mod (4 * Z.of_nat (length buf)) w ltac:(lia)) as DM.
  pose proof (Z.mod_pos_bound (4 * Z.of_nat (length buf)) w ltac:(lia)) as MB.
  assert (Q : 0 <= 4 * Z.of_nat (length buf) / w < 2 ^ 53).
  { split; [apply Z.div_pos; lia|]. apply Z.div_lt_upper_bound; nia. }
  assert (D : channels f = 2 ->
            deinterleaveToFloatStereo buf f =
            match frames buf f (bytesPerSample f)
                    (binary_normalize prec emax w (-2) false)
                    (Z.to_nat (4 * Z.of_nat (length buf) / w)) 0 with
            | Throw e => Throw e
            | Ok (ls, rs) => Ok (ls, rs, sampleRate f)
            end).
  { intros Hc. unfold deinterleaveToFloatStereo. rewrite Hc.
    cbn [Z.eqb Pos.eqb negb]. cbv zeta. rewrite Fs.
    rewrite (floor_frames (Z.of_nat (length buf)) w _ ltac:(lia) ltac:(lia)
               Vc Fc Ic).
    rewrite toIndex_of_Z by lia. reflexivity. }
  split; intros Hc H; rewrite (D Hc).
  - assert (1 <= 4 * Z.of_nat (length buf) / w) by nia.
    destruct (Z.to_nat (4 * Z.of_nat (length buf) / w)) as [|k] eqn:K; [lia|].
    cbn [frames]. rewrite Rd. reflexivity.
  - assert (4 * Z.of_nat (length buf) / w = 0) as -> by (apply Z.div_small; lia).
    reflexivity.
Qed.

Lemma unsupported_depth_witness :
  let f := {| sampleRate := 48000; channels := 2; bitDepth := 64;
              audioFormat := 3 |} in
  deinterleaveToFloatStereo (repeat Byte.x00 16) f = Throw UnsupportedBitDepth /\
  deinterleaveToFloatStereo (repeat Byte.x00 15) f = Ok ([], [], 48000).
Proof.
  intros f. split.
  - destruct (unsupported_depth (repeat Byte.x00 16) f ltac:(simpl; lia)
                ltac:(simpl; lia) ltac:(simpl; lia)) as (_ & T & _).
    exact (T eq_refl ltac:(simpl; lia)).
  - destruct (unsupported_depth (repeat Byte.x00 15) f ltac:(simpl; lia)
                ltac:(simpl; lia) ltac:(simpl; lia)) as (_ & _ & T).
    exact (T eq_refl ltac:(simpl; lia)).
Defined.

(* ================================================================== *)
(** ** verify_beats.js: the dominant frequency *)
(* ================================================================== *)

Lemma ival_bound (x : number) : valid x -> Z.abs (ival x) < 2 ^ 2200.
Proof.
  intros V. destruct x as [| | |s m e]; cbn [ival]; try (simpl; lia).
  destruct (valid_exponent _ _ _ V) as [Le Ue].
  pose proof V as V'. apply valid_finite in V' as [C _].
  destruct (canonical_facts _ _ (Pos2Z.is_pos m) C) as (_ & UM & _).
  pose proof (pow2_pos (e + 1074) ltac:(lia)) as PE.
  pose proof (Z.pow_le_mono_r 2 (e + 1074) 2045 ltac:(lia) ltac:(lia)) as P.
  assert (Z.pos m * 2 ^ (e + 1074) < 2 ^ 53 * 2 ^ 2045) by nia.
  change (2 ^ 2200) with (2 ^ 102 * (2 ^ 53 * 2 ^ 2045)).
  destruct s; [change (Z.neg m) with (- Z.pos m)|]; nia.
Qed.

Lemma lt_rank (x y : number) :
  valid x -> valid y -> isNaN x = false -> isNaN y = false ->
  (lt x y = true <-> rank x < rank y).
Proof.
  intros Vx Vy Nx Ny.
  pose proof (ival_bound x Vx) as Bx. pose proof (ival_bound y Vy) as By.
  destruct x as [sx|sx| |sx mx ex] eqn:Ex; try discriminate;
  destruct y as [sy|sy| |sy my ey] eqn:Ey; try discriminate;
    try (rewrite <- Ex, <- Ey; subst; apply lt_ival; (assumption || reflexivity));
    cbn [rank] in *.
  all: cbn [ival] in *; try destruct sx; try destruct sy;
    (split; intros H;
     [ first [ lia | exfalso; vm_compute in H; discriminate H ]
     | first [ reflexivity | exfalso; lia ] ]).
Qed.

Lemma lt_not_NaN (x y : number) :
  lt x y = true -> isNaN x = false /\ isNaN y = false.
Proof. destruct x, y; try discriminate; split; reflexivity. Qed.

Lemma lt_transitive (a b c : number) :
  valid a -> valid b -> valid c ->
  lt a b = true -> lt b c = true -> lt a c = true.
Proof.
  intros Va Vb Vc H1 H2.
  destruct (lt_not_NaN _ _ H1) as [Na Nb]. destruct (lt_not_NaN _ _ H2) as [_ Nc].
  apply lt_rank in H1, H2; try assumption. apply lt_rank; try assumption. lia.
Qed.

(** What is not above a number is below whatever is above it. *)
Lemma lt_below (a b c : number) :
  valid a -> valid b -> valid c -> isNaN c = false ->
  lt a b = true -> lt a c = false -> lt c b = true.
Proof.
  intros Va Vb Vc Nc H1 H2.
  destruct (lt_not_NaN _ _ H1) as [Na Nb].
  apply lt_rank in H1; try assumption. apply lt_rank; try assumption.
  destruct (Z_lt_le_dec (rank a) (rank c)) as [L|L]; [|lia].
  apply lt_rank in L; try assumption. congruence.
Qed.

Lemma lt_asymmetric (a b : number) :
  valid a -> valid b -> lt a b = true -> lt b a = false.
Proof.
  intros Va Vb H. destruct (lt_not_NaN _ _ H) as [Na Nb].
  destruct (lt b a) eqn:E; [|reflexivity].
  apply lt_rank in H, E; try assumption. lia.
Qed.

Lemma lt_irreflexive (a : number) : valid a -> lt a a = false.
Proof.
  intros Va. destruct (lt a a) eqn:E; [|reflexivity].
  destruct (lt_not_NaN _ _ E) as [Na _]. apply lt_rank in E; try assumption. lia.
Qed.

(** The loop test [i < N / 2]. *)
Lemma half_test (i N : Z) :
  0 <= i < 2 ^ 53 -> Z.abs N < 2 ^ 53 ->
  lt (of_Z i) (div (of_Z N) (of_Z 2)) = (2 * i <? N).
Proof.
  intros Hi HN.
  destruct (scaled_exact N 1 ltac:(lia) HN) as (V & F & I).
  change (2 ^ 1) with 2 in *.
  destruct (of_Z_exact i ltac:(lia)) as (Vi & Fi & Ii).
  pose proof (pow2_pos 1074 ltac:(lia)) as PU.
  destruct (2 * i <? N) eqn:C.
  - apply Z.ltb_lt in C. apply lt_ival; try assumption. rewrite Ii. nia.
  - apply Z.ltb_ge in C. apply lt_ival_false; try assumption. rewrite Ii. nia.
Qed.

Lemma valid_elem (a : list number) (i : Z) : Forall valid a -> valid (elem a i).
Proof.
  intros H. unfold elem. destruct (i <? 0); [reflexivity|].
  destruct (nth_error a (Z.to_nat i)) as [v|] eqn:E; [|reflexivity].
  rewrite List.Forall_forall in H. apply H. eapply nth_error_In; eassumption.
Qed.

Section PeakSearch.
Variables (freqs mags : list number) (N : Z) (bandMin bandMax : number).
Hypothesis HN : Z.abs N < 2 ^ 53.
Hypothesis Hvalid : Forall valid mags.

Local Abbreviation candidate := (candidate freqs mags N bandMin bandMax).
Local Abbreviation searched := (searched freqs mags N bandMin bandMax).

Lemma candidate_above (i : Z) : N <= 2 * i -> candidate i = false.
Proof.
  intros H. unfold candidate.
  replace (2 * i <? N) with false by (symmetry; apply Z.ltb_ge; lia).
  now rewrite andb_false_r.
Qed.

Lemma searched_all (j p : Z) (pm : number) :
  N <= 2 * j -> searched j p pm -> forall k, j <= k -> searched k p pm.
Proof.
  intros H S k Hk. destruct S as [(E1 & E2 & S)|(L & C & E & S)]; [left|right].
  - split; [assumption|]. split; [assumption|]. intros i _.
    destruct (Z_lt_le_dec i j); [now apply S|apply candidate_above; lia].
  - split; [lia|]. split; [assumption|]. split; [assumption|].
    intros i _ Ci. destruct (Z_lt_le_dec i j) as [Lt|Ge]; [now apply S|].
    rewrite candidate_above in Ci by lia. discriminate.
Qed.

Lemma candidate_number (i : Z) :
  candidate i = true -> isNaN (elem mags i) = false.
Proof.
  unfold candidate, gt. intros C. apply andb_prop in C as [_ C].
  now destruct (lt_not_NaN _ _ C).
Qed.

Lemma searched_step (j p : Z) (pm : number) :
  0 <= j -> 2 * j < N -> searched j p pm ->
  let f := elem freqs j in
  let m := elem mags j in
  searched (j + 1)
    (if ge f bandMin && le f bandMax then if gt m pm then j else p else p)
    (if ge f bandMin && le f bandMax then if gt m pm then m else pm else pm).
Proof.
  intros Hj Hlt S f m.
  assert (Vm : forall i, valid (elem mags i)) by (intros; now apply valid_elem).
  assert (Cj : candidate j = (ge f bandMin && le f bandMax)
                             && gt m (S754_infinity true)).
  { unfold candidate. fold f m.
    replace (0 <=? j) with true by (symmetry; apply Z.leb_le; lia).
    replace (2 * j <? N) with true by (symmetry; apply Z.ltb_lt; lia).
    reflexivity. }
  destruct (ge f bandMin && le f bandMax) eqn:B.
  - cbn [andb] in Cj. destruct (gt m pm) eqn:G.
    + (* the new peak *)
      right. unfold gt in G.
      destruct S as [(E1 & E2 & S)|(L & C & E & S)].
      * subst pm. split; [lia|]. split; [now rewrite Cj|]. split; [reflexivity|].
        intros i Hi Ci. destruct (Z.eq_dec i j) as [->|Ne].
        -- split; [apply lt_irreflexive, Vm|lia].
        -- rewrite S in Ci by lia. discriminate.
      * assert (Gp : lt (S754_infinity true) pm = true).
        { subst pm. unfold candidate, gt in C.
          apply andb_prop in C as [_ C]. exact C. }
        assert (Vp : valid pm) by (subst pm; apply Vm).
        split; [lia|]. split.
        { rewrite Cj. unfold gt.
          apply (lt_transitive _ pm _); try reflexivity; try assumption.
          apply Vm. }
        split; [reflexivity|].
        intros i Hi Ci. destruct (Z.eq_dec i j) as [->|Ne].
        -- split; [apply lt_irreflexive, Vm|lia].
        -- destruct (S i ltac:(lia) Ci) as [S1 _]. unfold gt in S1 |- *.
           assert (Lt : lt (elem mags i) m = true).
           { apply (lt_below pm); try assumption; try apply Vm.
             now apply candidate_number. }
           split; [|intros _; exact Lt].
           apply lt_asymmetric; try apply Vm. exact Lt.
    + (* the peak stays *)
      destruct S as [(E1 & E2 & S)|(L & C & E & S)]; [left|right].
      * split; [assumption|]. split; [assumption|]. intros i Hi.
        destruct (Z.eq_dec i j) as [->|Ne]; [|apply S; lia].
        rewrite Cj. subst pm. exact G.
      * split; [lia|]. split; [assumption|]. split; [assumption|].
        intros i Hi Ci. destruct (Z.eq_dec i j) as [->|Ne].
        -- split; [exact G|lia].
        -- apply S; [lia|assumption].
  - cbn [andb] in Cj.
    destruct S as [(E1 & E2 & S)|(L & C & E & S)]; [left|right].
    + split; [assumption|]. split; [assumption|]. intros i Hi.
      destruct (Z.eq_dec i j) as [->|Ne]; [exact Cj|apply S; lia].
    + split; [lia|]. split; [assumption|]. split; [assumption|].
      intros i Hi Ci. destruct (Z.eq_dec i j) as [->|Ne]; [congruence|].
      apply S; [lia|assumption].
Qed.

Lemma peakLoop_searched (fuel : nat) :
  forall j p pm,
    0 <= j < 2 ^ 53 -> N <= 2 * (j + Z.of_nat fuel) -> searched j p pm ->
    exists pm' k0, forall k,
      k0 <= k -> searched k (peakLoop freqs mags N bandMin bandMax fuel j p pm) pm'.
Proof.
  induction fuel as [|fuel IH]; intros j p pm Hj Hf S.
  - exists pm, j. cbn [peakLoop]. apply searched_all; [lia|assumption].
  - cbn [peakLoop]. rewrite half_test by lia.
    destruct (Z_lt_le_dec (2 * j) N) as [L|G].
    + replace (2 * j <? N) with true by (symmetry; apply Z.ltb_lt; lia).
      pose proof (searched_step j p pm ltac:(lia) L S) as S'. cbv zeta in S'.
      destruct (ge (elem freqs j) bandMin && le (elem freqs j) bandMax);
        [destruct (gt (elem mags j) pm)|];
        exact (IH (j + 1) _ _ ltac:(lia) ltac:(lia) S').
    + replace (2 * j <? N) with false by (symmetry; apply Z.ltb_ge; lia).
      exists pm, j. apply searched_all; [lia|assumption].
Qed.

End PeakSearch.

Lemma searched_start (freqs mags : list number) (N : Z) (bandMin bandMax : number) :
  searched freqs mags N bandMin bandMax 0 0 (S754_infinity true).
Proof.
  left. split; [reflexivity|]. split; [reflexivity|]. intros i Hi.
  unfold candidate.
  replace (0 <=? i) with false by (symmetry; apply Z.leb_gt; lia).
  reflexivity.
Qed.

(** A frequency that is at least a positive bound is reported as it is. *)
Lemma reported_in_band (f bandMin : number) :
  lt (of_Z 0) bandMin = true -> ge f bandMin = true ->
  Math_abs (if truthyNumber f then f else of_Z 0) = f.
Proof.
  change (of_Z 0) with (S754_zero false). unfold ge, le, lt.
  destruct bandMin as [|[]| |[] mb eb]; try discriminate;
    destruct f as [|[]| |[] mf ef]; try discriminate; intros; reflexivity.
Qed.

Lemma reported_is_a_size (f : number) :
  let r := Math_abs (if truthyNumber f then f else of_Z 0) in
  isNaN r = false /\ lt r (of_Z 0) = false.
Proof.
  change (of_Z 0) with (S754_zero false).
  destruct f as [|[]| |[] mf ef]; split; reflexivity.
Qed.

(** X18: the frequency reported for a channel, given the spectrum of its
    windowed samples, is that of the strongest bin among those below half the
    transform size whose frequency lies in the band (bounds included) and
    whose magnitude is a number above -Infinity; of several equally strong
    bins the first wins.  With a positive lower bound the reported frequency
    is the bin's own, hence within the band.  When no bin qualifies, the
    search falls back to the first bin, whatever its frequency.  The result
    is never NaN and never negative. *)
Theorem dominant_frequency_is_the_band_peak
    (freqs mags : list number) (N : Z) (bandMin bandMax : number)
    (HN : Z.abs N < 2 ^ 53) (Hvalid : Forall valid mags) :
  let pick := candidate freqs mags N bandMin bandMax in
  let reported i :=
    Math_abs (if truthyNumber (elem freqs i) then elem freqs i else of_Z 0) in
  let result := dominantFreqInBand freqs mags N bandMin bandMax in
  ((forall i, pick i = false) -> result = reported 0) /\
  (forall i, pick i = true ->
     exists p, pick p = true /\ result = reported p /\
       (lt (of_Z 0) bandMin = true ->
          result = elem freqs p /\
          ge result bandMin = true /\ le result bandMax = true) /\
       forall j, pick j = true ->
         gt (elem mags j) (elem mags p) = false /\
         (j < p -> lt (elem mags j) (elem mags p) = true)) /\
  isNaN result = false /\ lt result (of_Z 0) = false.
Proof.
  intros pick reported result.
  destruct (peakLoop_searched freqs mags N bandMin bandMax HN Hvalid
              (Z.to_nat N) 0 0 (S754_infinity true) ltac:(lia) ltac:(lia)
              (searched_start freqs mags N bandMin bandMax)) as (pm & k0 & K).
  set (p := peakLoop freqs mags N bandMin bandMax (Z.to_nat N) 0 0
              (S754_infinity true)) in *.
  assert (R : result = reported p) by reflexivity.
  split; [|split].
  - intros None.
    destruct (K k0 ltac:(lia)) as [(_ & E & _)|(_ & C & _)].
    + now rewrite R, E.
    + fold pick in C. rewrite None in C. discriminate.
  - intros i Ci. exists p.
    destruct (K (Z.max k0 (i + 1)) ltac:(lia)) as [(_ & _ & S)|(_ & C & E & _)].
    { fold pick in S. rewrite S in Ci by lia. discriminate. }
    split; [exact C|]. split; [exact R|]. split.
    + intros Pos. unfold candidate in C.
      apply andb_prop in C as [C _]. apply andb_prop in C as [_ C].
      apply andb_prop in C as [C1 C2].
      assert (Rf : result = elem freqs p).
      { rewrite R. unfold reported. now apply (reported_in_band _ bandMin). }
      rewrite Rf. repeat split; assumption.
    + intros j Cj.
      destruct (K (Z.max k0 (j + 1)) ltac:(lia)) as [(_ & _ & S)|(_ & _ & E' & S)].
      { fold pick in S. rewrite S in Cj by lia. discriminate. }
      rewrite <- E'. apply S; [lia|exact Cj].
  - rewrite R. apply reported_is_a_size.
Qed.

Lemma dominant_frequency_witness :
  let freqs := map of_Z [0; 100; 200; 300; -400; -300; -200; -100] in
  let mags := map of_Z [9; 2; 7; 7; 0; 7; 7; 2] in
  let result := dominantFreqInBand freqs mags 8 (of_Z 150) (of_Z 1000) in
  ge result (of_Z 150) = true /\ le result (of_Z 1000) = true.
Proof.
  intros freqs mags result.
  assert (HN : Z.abs 8 < 2 ^ 53) by (simpl; lia).
  assert (Hv : Forall valid mags) by (repeat constructor).
  destruct (dominant_frequency_is_the_band_peak freqs mags 8 (of_Z 150)
              (of_Z 1000) HN Hv) as (_ & P & _).
  destruct (P 2 eq_refl) as (p & _ & _ & B & _).
  exact (proj2 (B eq_refl)).
Defined.


(* ================================================================== *)
(** ** verify_beats.js: from the file to the samples *)
(* ================================================================== *)

Lemma Math_ceil_of_Z (n : Z) :
  0 <= n < 2 ^ 53 -> Math_ceil (of_Z n) = of_Z n.
Proof.
  intros Hn. destruct (Z.eq_dec n 0) as [->|N]; [reflexivity|].
  destruct (of_Z_pos n ltac:(lia)) as (m & e & E & L & I).
  rewrite E. unfold Math_ceil. destruct (0 <=? e) eqn:C; [reflexivity|].
  apply Z.leb_gt in C.
  assert (EQ : 2 ^ 1074 = 2 ^ (- e) * 2 ^ (e + 1074))
    by (rewrite <- (pow2_add (- e) (e + 1074)) by lia; f_equal; lia).
  pose proof (pow2_pos (e + 1074) ltac:(lia)).
  pose proof (pow2_pos (- e) ltac:(lia)).
  assert (M : Z.pos m = n * 2 ^ (- e)) by (rewrite EQ in I; nia).
  cbv zeta. rewrite M.
  replace (- (n * 2 ^ (- e))) with ((- n) * 2 ^ (- e)) by ring.
  rewrite Z.div_mul by lia. rewrite Z.opp_involutive.
  replace (n =? 0) with false by (symmetry; apply Z.eqb_neq; lia).
  rewrite <- E. reflexivity.
Qed.

(** The byte target for a whole number of seconds of integer samples. *)
Lemma targetBytes_whole (f : format) (s : Z) :
  channels f = 2 ->
  bitDepth f = 8 \/ bitDepth f = 16 \/ bitDepth f = 24 \/ bitDepth f = 32 ->
  0 < sampleRate f -> 0 < s ->
  sampleRate f * s * (2 * (bitDepth f / 8)) < 2 ^ 53 ->
  targetBytesOf f (of_Z s) = of_Z (sampleRate f * s * (2 * (bitDepth f / 8))).
Proof.
  intros Hc Hw Hr Hs Hb. unfold targetBytesOf.
  assert (Bp : 1 <= bitDepth f / 8 <= 4)
    by (destruct Hw as [-> | [-> | [-> | ->]]]; cbv; split; congruence).
  rewrite bytesPerSample_integer by assumption. rewrite Hc.
  rewrite (mul_of_Z (sampleRate f) s) by nia.
  rewrite Math_ceil_of_Z by nia.
  rewrite (mul_of_Z (sampleRate f * s) 2) by nia.
  rewrite (mul_of_Z (sampleRate f * s * 2) (bitDepth f / 8)) by nia.
  f_equal. ring.
Qed.

(** X19: analysing the first [s] seconds, for a whole number [s], of a
    stereo file of 8, 16 or 24-bit samples means decoding exactly
    [sampleRate * s] samples per channel, taken from the start of the audio
    data, as soon as the file has delivered that many, however the data is
    cut into chunks and whatever follows; a shorter file is decoded at its
    end, into as many samples per channel as it holds whole frames. *)
Theorem analysed_samples
    (f : format) (s : Z) (cs : list (list Byte.byte))
    (Hstereo : channels f = 2)
    (Hdepth : bitDepth f = 8 \/ bitDepth f = 16 \/ bitDepth f = 24)
    (Hrate : 0 < sampleRate f) (Hs : 0 < s)
    (Hsize : sampleRate f * s * (2 * (bitDepth f / 8)) < 2 ^ 38)
    (Hsmall : Forall (fun ch => Z.of_nat (length ch) < 2 ^ 53) cs) :
  let frame := 2 * (bitDepth f / 8) in
  let T := sampleRate f * s * frame in
  let all := concat cs in
  let decodes buf n :=
    exists ls rs,
      deinterleaveToFloatStereo buf f = Ok (ls, rs, sampleRate f) /\
      length ls = n /\ length rs = n in
  (T <= Z.of_nat (length all) ->
     forall more, exists buf,
       analyses (read (of_Z s) (Format f :: map Data cs ++ more)) = [(buf, f)] /\
       buf = firstn (Z.to_nat T) all /\
       decodes buf (Z.to_nat (sampleRate f * s))) /\
  (Z.of_nat (length all) < T ->
     analyses (read (of_Z s) (Format f :: map Data cs)) = [] /\
     analyses (read (of_Z s) (Format f :: map Data cs ++ [End])) = [(all, f)] /\
     decodes all (Z.to_nat (Z.of_nat (length all) / frame))).
Proof.
  intros frame T all decodes.
  assert (Bp : 1 <= bitDepth f / 8 <= 4)
    by (destruct Hdepth as [-> | [-> | ->]]; cbv; split; congruence).
  assert (HT : targetBytesOf f (of_Z s) = of_Z T)
    by (apply targetBytes_whole; try assumption; try tauto; lia).
  assert (T0 : 0 < T) by (subst T frame; nia).
  assert (T38 : T < 2 ^ 38) by (subst T frame; exact Hsize).
  set (st := {| fmt := Some f; targetBytes := targetBytesOf f (of_Z s);
                chunks := []; collected := of_Z 0; analyzed := false;
                analyses := [] |}).
  destruct (collect (of_Z s) f T cs st 0 ltac:(lia) Hsmall eq_refl HT
              eq_refl eq_refl ltac:(lia) ltac:(lia)) as [C1 C2].
  fold all in C1, C2. rewrite Z.add_0_l, Z.sub_0_r in *.
  assert (Hb : bytesPerSample f = of_Z (bitDepth f / 8))
    by (apply bytesPerSample_integer; tauto).
  assert (D : forall buf, Z.of_nat (length buf) < 2 ^ 38 ->
            decodes buf (Z.to_nat (Z.of_nat (length buf) / frame))).
  { intros buf Hlen.
    assert (Hrd : forall o, 0 <= o -> o + bitDepth f / 8 <= Z.of_nat (length buf) ->
              readSample buf f (of_Z (bitDepth f / 8)) (of_Z o)
              = Ok (integerSample (bitDepth f) buf o)).
    { intros o Ho H. apply readSample_integer; try assumption; try tauto. lia. }
    pose proof (deinterleave_ok buf f (bitDepth f / 8)
                  (integerSample (bitDepth f) buf) Hstereo Hb Bp Hlen Hrd) as E.
    cbv zeta in E. eexists _, _. split; [exact E|].
    split; now rewrite length_map, length_seq. }
  split.
  - intros H more. exists (firstn (Z.to_nat T) all).
    specialize (C2 H more). split; [|split; [reflexivity|]].
    + rewrite read_format. fold st. rewrite C2. reflexivity.
    + assert (L : Z.of_nat (length (firstn (Z.to_nat T) all)) = T)
        by (rewrite firstn_length_le by lia; lia).
      pose proof (D (firstn (Z.to_nat T) all) ltac:(lia)) as D'.
      rewrite L in D'. subst T.
      rewrite Z.div_mul in D' by (subst frame; lia). exact D'.
  - intros H. specialize (C1 H). split; [|split].
    + rewrite read_format. fold st. rewrite C1. reflexivity.
    + rewrite read_format. fold st. rewrite fold_left_app, C1. reflexivity.
    + apply D. lia.
Qed.

Lemma analysed_samples_witness :
  let f := {| sampleRate := 2; channels := 2; bitDepth := 16; audioFormat := 1 |} in
  let a := [Byte.x01; Byte.x02; Byte.x03; Byte.x04; Byte.x05] in
  let b := [Byte.x06; Byte.x07; Byte.x08; Byte.x09; Byte.x0a] in
  exists buf ls rs,
    analyses (read (of_Z 1) (Format f :: map Data [a; b] ++ [Data a; End]))
      = [(buf, f)] /\
    deinterleaveToFloatStereo buf f = Ok (ls, rs, 2) /\
    length ls = 2%nat /\ length rs = 2%nat.
Proof.
  intros f a b.
  assert (H3 : Forall (fun ch : list Byte.byte => Z.of_nat (length ch) < 2 ^ 53)
                 [a; b]) by (repeat constructor).
  assert (H1 : 0 < sampleRate f) by reflexivity.
  assert (H2 : sampleRate f * 1 * (2 * (bitDepth f / 8)) < 2 ^ 38) by reflexivity.
  destruct (analysed_samples f 1 [a; b] eq_refl (or_intror (or_introl eq_refl))
              H1 ltac:(lia) H2 H3) as [P _].
  destruct (P ltac:(vm_compute; discriminate) [Data a; End])
    as (buf & A & _ & ls & rs & D & L & R).
  exists buf, ls, rs. repeat split; assumption.
Defined.
